(** * linagora.esn.chat: the backend conversation/message service

    A shallow embedding of [backend/lib/conversation.js] (the service that
    coordinates the ChatConversation and ChatMessage collections and the
    pub/sub topics), followed by the properties of the natural-language
    specification that are stated about it.

    Conventions of the embedding.
    - Stored documents are records; update and query documents, which the
      source builds as object literals and reads back with property
      accesses, are JavaScript values ([JsVal]).
    - The document store (Mongoose over MongoDB) and the pub/sub bus are
      external collaborators.  They are modelled by the fields of [World]
      and by the [Conversation_*] / [ChatMessage_*] primitives, which follow
      the documented behaviour of the Mongoose 4 API the source is written
      against (in particular: [findByIdAndUpdate] and [findOneAndUpdate]
      hand the callback the document as it was BEFORE the update unless the
      option [{new: true}] is passed, as the source itself does in
      [moderateConversation] and [moderateMessage]).
    - Node-style callbacks [(err, result)] become an [Outcome]; an exception
      raised inside a function is the outcome [Thrown].
    - Every store primitive may fail: the world carries a schedule of
      faults, one flag per store access, and counts the accesses.
    - Operations run to completion one after the other; interleavings of
      concurrent requests are not part of the model. *)

From stdpp Require Import gmap strings list fin_maps sorting pretty.
From Stdlib Require Import Ascii String.

Set Warnings "-register-all".

Local Open Scope string_scope.
Local Open Scope list_scope.
Local Open Scope nat_scope.

(* ===================================================================== *)
(** * Part 1. Definitions                                                 *)
(* ===================================================================== *)

(** ** JavaScript values *)

Inductive JsVal : Type :=
| JsUndefined
| JsNull
| JsBool (b : bool)
| JsNum (n : nat)
| JsStr (s : string)
| JsArray (l : list JsVal)
| JsObject (fields : list (string * JsVal)).

Inductive JsError : Type :=
| Error (msg : string)          (* [new Error(msg)] *)
| TypeError (msg : string)      (* raised by the language itself *)
| StoreError.                   (* the [err] a store primitive reports *)

(** Own-property lookup in a list of fields. *)
Fixpoint fields_get (fs : list (string * JsVal)) (k : string) : JsVal :=
  match fs with
  | [] => JsUndefined
  | (k', v) :: fs' => if decide (k' = k) then v else fields_get fs' k
  end.

(** [o.k] on an object.  The service only reads properties of values it
    has just checked to be objects; on every other value the result is
    [JsUndefined]. *)
Definition js_get (o : JsVal) (k : string) : JsVal :=
  match o with
  | JsObject fs => fields_get fs k
  | _ => JsUndefined
  end.

(** [o[k] = v]: replaces the property in place, or appends it. *)
Fixpoint fields_set (fs : list (string * JsVal)) (k : string) (v : JsVal)
  : list (string * JsVal) :=
  match fs with
  | [] => [(k, v)]
  | (k', v') :: fs' =>
      if decide (k' = k) then (k, v) :: fs' else (k', v') :: fields_set fs' k v
  end.

Definition js_set (o : JsVal) (k : string) (v : JsVal) : JsVal :=
  match o with
  | JsObject fs => JsObject (fields_set fs k v)
  | _ => o
  end.

(** [delete o[k]]. *)
Definition js_delete (o : JsVal) (k : string) : JsVal :=
  match o with
  | JsObject fs => JsObject (filter (λ kv, kv.1 ≠ k) fs)
  | _ => o
  end.

(** Truthiness, as used by [if (x)], [!x], [x && y], [x || y]. *)
Definition truthy (v : JsVal) : bool :=
  match v with
  | JsUndefined | JsNull => false
  | JsBool b => b
  | JsNum n => negb (Nat.eqb n 0)
  | JsStr s => negb (bool_decide (s = ""))
  | JsArray _ | JsObject _ => true
  end.

(** [_.isArray]. *)
Definition isArray (v : JsVal) : bool :=
  match v with JsArray _ => true | _ => false end.

(** [_.isEmpty] on the values the service applies it to. *)
Definition isEmpty (v : JsVal) : bool :=
  match v with
  | JsObject [] | JsArray [] | JsStr "" => true
  | JsObject _ | JsArray _ | JsStr _ => false
  | _ => true
  end.

(** [String(v)]. *)
Fixpoint js_String (v : JsVal) : string :=
  match v with
  | JsUndefined => "undefined"
  | JsNull => "null"
  | JsBool true => "true"
  | JsBool false => "false"
  | JsNum n => pretty n
  | JsStr s => s
  | JsArray l =>
      (fix join (l : list JsVal) : string :=
         match l with
         | [] => ""
         | [x] => match x with JsUndefined | JsNull => "" | _ => js_String x end
         | x :: l' =>
             String.append
               (match x with JsUndefined | JsNull => "" | _ => js_String x end)
               (String.append "," (join l'))
         end) l
  | JsObject _ => "[object Object]"
  end.

(** ** Object identifiers *)

(** An [ObjectId] is kept as its canonical text, the 24 lower-case
    hexadecimal digits that [toHexString] (and so [String(id)]) prints. *)
Abbreviation ObjectId := string (only parsing).

Definition is_digit (c : ascii) : bool :=
  let n := nat_of_ascii c in Nat.leb 48 n && Nat.leb n 57.
Definition is_lower_hex (c : ascii) : bool :=
  let n := nat_of_ascii c in Nat.leb 97 n && Nat.leb n 102.
Definition is_upper_hex (c : ascii) : bool :=
  let n := nat_of_ascii c in Nat.leb 65 n && Nat.leb n 70.

(** The character class [[a-fA-F0-9]]. *)
Definition is_hex (c : ascii) : bool :=
  is_lower_hex c || is_upper_hex c || is_digit c.

Fixpoint all_hex (s : string) : bool :=
  match s with
  | EmptyString => true
  | String c s' => is_hex c && all_hex s'
  end.

Definition lower_hex_char (c : ascii) : ascii :=
  if is_upper_hex c then ascii_of_nat (nat_of_ascii c + 32) else c.

Fixpoint lower_hex (s : string) : string :=
  match s with
  | EmptyString => EmptyString
  | String c s' => String (lower_hex_char c) (lower_hex s')
  end.

Definition hex_digit (n : nat) : ascii :=
  if Nat.ltb n 10 then ascii_of_nat (48 + n) else ascii_of_nat (87 + n).

Fixpoint hex_of_bytes (s : string) : string :=
  match s with
  | EmptyString => EmptyString
  | String c s' =>
      let n := nat_of_ascii c in
      String (hex_digit (n / 16)) (String (hex_digit (n mod 16)) (hex_of_bytes s'))
  end.

(** [new ObjectId(s)] for a string [s]: 24 hexadecimal digits are parsed
    (either case, the identifier is the 12 bytes they denote); a string of
    12 characters is taken as the 12 bytes themselves; anything else is
    refused with an [Error]. *)
Definition ObjectId_new (s : string) : JsError + ObjectId :=
  if Nat.eqb (String.length s) 24 && all_hex s then inr (lower_hex s)
  else if Nat.eqb (String.length s) 12 then inr (hex_of_bytes s)
  else inl (Error "Argument passed in must be a single String of 12 bytes or a string of 24 hex characters").

(** A caller hands an identifier over either as an [ObjectId] or as a
    string. *)
Inductive IdArg : Type :=
| IdObj (o : ObjectId)
| IdStr (s : string).

Definition IdArg_js (a : IdArg) : JsVal :=
  match a with IdObj o => JsStr o | IdStr s => JsStr s end.

(** ** Mentions: [text.match(/@[a-fA-F0-9]{24}/g)] *)

(** The first [n] characters of [s] when they are all hexadecimal. *)
Fixpoint take_hex (n : nat) (s : string) : option string :=
  match n with
  | 0 => Some EmptyString
  | S n' =>
      match s with
      | EmptyString => None
      | String c s' => if is_hex c then String c <$> take_hex n' s' else None
      end
  end.

(** Left-to-right scan for the non-overlapping matches of the pattern.
    [skip] counts the characters still covered by the last match. *)
Fixpoint scan_mentions (skip : nat) (s : string) : list string :=
  match s with
  | EmptyString => []
  | String c s' =>
      match skip with
      | S k => scan_mentions k s'
      | 0 =>
          if bool_decide (c = "@"%char) then
            match take_hex 24 s' with
            | Some h => String "@" h :: scan_mentions 24 s'
            | None => scan_mentions 0 s'
            end
          else scan_mentions 0 s'
      end
  end.

(** [String.prototype.match] with a global pattern: [null] ([None]) when
    nothing matches, the array of the matched substrings otherwise. *)
Definition match_mentions (text : string) : option (list string) :=
  match scan_mentions 0 text with
  | [] => None
  | l => Some l
  end.

(** [_.uniq]: the first occurrence of every value, in order; an empty
    array for [null]. *)
Fixpoint uniq_from (seen : list string) (l : list string) : list string :=
  match l with
  | [] => []
  | x :: l' =>
      if bool_decide (x ∈ seen) then uniq_from seen l'
      else x :: uniq_from (x :: seen) l'
  end.

Definition uniq (a : option (list string)) : list string :=
  match a with
  | None => []
  | Some l => uniq_from [] l
  end.

(** [mention.replace(/^@/, '')]. *)
Definition strip_at (s : string) : string :=
  match s with
  | String c s' => if bool_decide (c = "@"%char) then s' else s
  | EmptyString => s
  end.

(** ** Stored documents *)

(** Modelled from the spec: the schema of ChatConversation
    ([lib/db/conversation]) is not among the sources.  The fields are those
    of the spec's data model that the service reads and writes.  The ones
    the service computes with are typed; the sub-documents it only stores
    and hands back ([last_message], [topic], [avatar], [name]) stay
    JavaScript values.  [numOfReadedMessage] is the object used as a map
    from [String(userId)] to a message count. *)
Record Conversation : Type := {
  c_id : ObjectId;
  c_type : string;
  c_name : JsVal;
  c_moderate : bool;
  c_members : list ObjectId;
  c_topic : JsVal;
  c_avatar : JsVal;
  last_message : JsVal;
  numOfMessage : nat;
  numOfReadedMessage : gmap string nat
}.

(** Modelled from the spec: the schema of ChatMessage ([lib/db/message])
    is not among the sources.  The fields are those of the spec's data
    model: owning conversation, creator, text, mentions, moderation flag,
    creation time. *)
Record ChatMessage : Type := {
  channel : ObjectId;
  creator : ObjectId;
  text : string;
  user_mentions : list ObjectId;
  m_moderate : bool;
  timestamps_creation : nat
}.

(** The plain object a caller passes to [createMessage]. *)
Record MessageInput : Type := {
  i_channel : ObjectId;
  i_creator : ObjectId;
  i_text : option string;              (* [None]: no [text] property *)
  i_user_mentions : list ObjectId;
  i_moderate : bool;
  i_creation : option nat              (* [timestamps.creation], when given *)
}.

(** The pub/sub topics the service publishes on. *)
Inductive PubsubTopic : Type :=
| channelCreationTopic
| channelUpdateTopic
| channelDeletionTopic
| channelAddMember
| channelTopicUpdateTopic.

Inductive Payload : Type :=
| PDoc (c : option Conversation)                       (* a document, or null *)
| PUpdate (c : Conversation) (deleteMembers : JsVal)   (* {conversation, deleteMembers} *)
| PObject (v : JsVal).                                 (* an object literal *)

(** ** The world: both collections, the bus, the log, the fault schedule *)

Record World : Type := {
  conversations : gmap string Conversation;   (* ChatConversation, by [_id] *)
  messages : list ChatMessage;                (* ChatMessage, in insertion order *)
  published : list (PubsubTopic * Payload);   (* oldest first *)
  logged : list string;                       (* [logger.error] lines *)
  faults : list bool;                         (* [true]: the next store access fails *)
  accesses : nat;                             (* store accesses made so far *)
  clock : nat                                 (* [Date.now()] *)
}.

Definition St (A : Type) : Type := World → A * World.

Definition st_ret {A} (a : A) : St A := λ w, (a, w).
Definition st_bind {A B} (m : St A) (k : A → St B) : St B :=
  λ w, let (a, w') := m w in k a w'.

#[global] Instance St_ret : MRet St := @st_ret.
#[global] Instance St_bind : MBind St := λ A B k m, st_bind m k.

(** What an operation reports: [Returned a] is [callback(null, a)],
    [Failed e] is [callback(e)], [Thrown e] is an exception escaping the
    function (the callback is then never called). *)
Inductive Outcome (A : Type) : Type :=
| Returned (a : A)
| Failed (e : JsError)
| Thrown (e : JsError).
Arguments Returned {A} a.
Arguments Failed {A} e.
Arguments Thrown {A} e.

Definition with_conversations (f : gmap string Conversation → gmap string Conversation)
  (w : World) : World :=
  {| conversations := f (conversations w); messages := messages w;
     published := published w; logged := logged w; faults := faults w;
     accesses := accesses w; clock := clock w |}.

Definition with_messages (f : list ChatMessage → list ChatMessage) (w : World) : World :=
  {| conversations := conversations w; messages := f (messages w);
     published := published w; logged := logged w; faults := faults w;
     accesses := accesses w; clock := clock w |}.

(** [topic.publish(payload)]: fire and forget. *)
Definition publish (t : PubsubTopic) (p : Payload) : St unit :=
  λ w, (tt, {| conversations := conversations w; messages := messages w;
               published := published w ++ [(t, p)]; logged := logged w;
               faults := faults w; accesses := accesses w; clock := clock w |}).

(** [logger.error(line, err)]. *)
Definition logger_error (line : string) : St unit :=
  λ w, (tt, {| conversations := conversations w; messages := messages w;
               published := published w; logged := logged w ++ [line];
               faults := faults w; accesses := accesses w; clock := clock w |}).

(** [Date.now()]. *)
Definition Date_now : St nat := λ w, (clock w, w).

(** One store access: it is counted, it consumes one flag of the fault
    schedule, and it either reports [StoreError] without touching the
    collections or runs [body]. *)
Definition tick (w : World) : World :=
  {| conversations := conversations w; messages := messages w;
     published := published w; logged := logged w;
     faults := tail (faults w); accesses := S (accesses w); clock := clock w |}.

Definition store_access {A} (body : St A) : St (JsError + A) :=
  λ w,
    match faults w with
    | true :: _ => (inl StoreError, tick w)
    | _ => let (a, w') := body (tick w) in (inr a, w')
    end.

(** ** The store: update operators on a conversation document *)

Definition set_name (v : JsVal) (c : Conversation) : Conversation :=
  {| c_id := c_id c; c_type := c_type c; c_name := v; c_moderate := c_moderate c;
     c_members := c_members c; c_topic := c_topic c; c_avatar := c_avatar c;
     last_message := last_message c; numOfMessage := numOfMessage c;
     numOfReadedMessage := numOfReadedMessage c |}.

Definition set_avatar (v : JsVal) (c : Conversation) : Conversation :=
  {| c_id := c_id c; c_type := c_type c; c_name := c_name c; c_moderate := c_moderate c;
     c_members := c_members c; c_topic := c_topic c; c_avatar := v;
     last_message := last_message c; numOfMessage := numOfMessage c;
     numOfReadedMessage := numOfReadedMessage c |}.

Definition set_topic (v : JsVal) (c : Conversation) : Conversation :=
  {| c_id := c_id c; c_type := c_type c; c_name := c_name c; c_moderate := c_moderate c;
     c_members := c_members c; c_topic := v; c_avatar := c_avatar c;
     last_message := last_message c; numOfMessage := numOfMessage c;
     numOfReadedMessage := numOfReadedMessage c |}.

Definition set_last_message (v : JsVal) (c : Conversation) : Conversation :=
  {| c_id := c_id c; c_type := c_type c; c_name := c_name c; c_moderate := c_moderate c;
     c_members := c_members c; c_topic := c_topic c; c_avatar := c_avatar c;
     last_message := v; numOfMessage := numOfMessage c;
     numOfReadedMessage := numOfReadedMessage c |}.

Definition set_moderate (b : bool) (c : Conversation) : Conversation :=
  {| c_id := c_id c; c_type := c_type c; c_name := c_name c; c_moderate := b;
     c_members := c_members c; c_topic := c_topic c; c_avatar := c_avatar c;
     last_message := last_message c; numOfMessage := numOfMessage c;
     numOfReadedMessage := numOfReadedMessage c |}.

Definition set_members (l : list ObjectId) (c : Conversation) : Conversation :=
  {| c_id := c_id c; c_type := c_type c; c_name := c_name c; c_moderate := c_moderate c;
     c_members := l; c_topic := c_topic c; c_avatar := c_avatar c;
     last_message := last_message c; numOfMessage := numOfMessage c;
     numOfReadedMessage := numOfReadedMessage c |}.

Definition set_numOfMessage (n : nat) (c : Conversation) : Conversation :=
  {| c_id := c_id c; c_type := c_type c; c_name := c_name c; c_moderate := c_moderate c;
     c_members := c_members c; c_topic := c_topic c; c_avatar := c_avatar c;
     last_message := last_message c; numOfMessage := n;
     numOfReadedMessage := numOfReadedMessage c |}.

Definition set_numOfReadedMessage (m : gmap string nat) (c : Conversation) : Conversation :=
  {| c_id := c_id c; c_type := c_type c; c_name := c_name c; c_moderate := c_moderate c;
     c_members := c_members c; c_topic := c_topic c; c_avatar := c_avatar c;
     last_message := last_message c; numOfMessage := numOfMessage c;
     numOfReadedMessage := m |}.

(** [strip_prefix p s] is [Some r] when [s] is [p] followed by [r]. *)
Fixpoint strip_prefix (p s : string) : option string :=
  match p with
  | EmptyString => Some s
  | String a p' =>
      match s with
      | EmptyString => None
      | String b s' => if bool_decide (a = b) then strip_prefix p' s' else None
      end
  end.

(** The dotted path of a read counter: ['numOfReadedMessage.' + key]. *)
Definition counter_path (key : string) : string :=
  String.append "numOfReadedMessage." key.

Definition counter_key (path : string) : option string :=
  strip_prefix "numOfReadedMessage." path.

(** The identifiers held by an array value. *)
Definition js_ids (v : JsVal) : list ObjectId :=
  match v with
  | JsArray l => omap (λ x, match x with JsStr s => Some s | _ => None end) l
  | _ => []
  end.

(** [$set]: the paths the service writes. *)
Definition apply_set_field (c : Conversation) (kv : string * JsVal) : Conversation :=
  let (k, v) := kv in
  if bool_decide (k = "name") then set_name v c
  else if bool_decide (k = "avatar") then set_avatar v c
  else if bool_decide (k = "topic") then set_topic v c
  else if bool_decide (k = "last_message") then set_last_message v c
  else if bool_decide (k = "moderate") then
    match v with JsBool b => set_moderate b c | _ => c end
  else c.

Definition apply_set (op : JsVal) (c : Conversation) : Conversation :=
  match op with
  | JsObject fs => foldl apply_set_field c fs
  | _ => c
  end.

(** [$inc: {numOfMessage: k}]. *)
Definition apply_inc (op : JsVal) (c : Conversation) : Conversation :=
  match js_get op "numOfMessage" with
  | JsNum k => set_numOfMessage (numOfMessage c + k) c
  | _ => c
  end.

(** [$max: {'numOfReadedMessage.<key>': n, ...}]: the field becomes [n]
    when it is absent or smaller than [n], and is left alone otherwise. *)
Definition max_field (m : gmap string nat) (kv : string * JsVal) : gmap string nat :=
  match counter_key kv.1, kv.2 with
  | Some key, JsNum n =>
      match m !! key with
      | Some r => if Nat.ltb r n then <[key := n]> m else m
      | None => <[key := n]> m
      end
  | _, _ => m
  end.

Definition apply_max (op : JsVal) (c : Conversation) : Conversation :=
  match op with
  | JsObject fs => set_numOfReadedMessage (foldl max_field (numOfReadedMessage c) fs) c
  | _ => c
  end.

(** [$unset: {'numOfReadedMessage.<key>': ''}]. *)
Definition unset_field (m : gmap string nat) (kv : string * JsVal) : gmap string nat :=
  match counter_key kv.1 with
  | Some key => delete key m
  | None => m
  end.

Definition apply_unset (op : JsVal) (c : Conversation) : Conversation :=
  match op with
  | JsObject fs => set_numOfReadedMessage (foldl unset_field (numOfReadedMessage c) fs) c
  | _ => c
  end.

(** [$addToSet] on [members]: one identifier, or each of [{$each: [...]}];
    an identifier already present is not added again. *)
Definition add_to_set (l : list ObjectId) (x : ObjectId) : list ObjectId :=
  if bool_decide (x ∈ l) then l else l ++ [x].

Definition apply_addToSet (op : JsVal) (c : Conversation) : Conversation :=
  match js_get op "members" with
  | JsStr x => set_members (add_to_set (c_members c) x) c
  | JsObject fs =>
      set_members (foldl add_to_set (c_members c) (js_ids (fields_get fs "$each"))) c
  | _ => c
  end.

(** [$pullAll: {members: [...]}] and [$pull: {members: id}]. *)
Definition apply_pullAll (op : JsVal) (c : Conversation) : Conversation :=
  match js_get op "members" with
  | JsArray l =>
      set_members (filter (λ m, m ∉ js_ids (JsArray l)) (c_members c)) c
  | _ => c
  end.

Definition apply_pull (op : JsVal) (c : Conversation) : Conversation :=
  match js_get op "members" with
  | JsStr x => set_members (filter (λ m, m ≠ x) (c_members c)) c
  | _ => c
  end.

(** One atomic update of one document. *)
Definition apply_update (update : JsVal) (c : Conversation) : Conversation :=
  apply_unset (js_get update "$unset")
    (apply_pull (js_get update "$pull")
       (apply_pullAll (js_get update "$pullAll")
          (apply_addToSet (js_get update "$addToSet")
             (apply_max (js_get update "$max")
                (apply_inc (js_get update "$inc")
                   (apply_set (js_get update "$set") c)))))).

(** ** The store: primitives of the two collections *)

(** [Conversation.findByIdAndUpdate(id, update, {new: new_}, cb)]: updates
    the document when there is one and hands over the document before the
    update, or after it when [new_] is set; [null] when there is none. *)
Definition Conversation_findByIdAndUpdate (id : ObjectId) (update : JsVal) (new_ : bool)
  : St (JsError + option Conversation) :=
  store_access (λ w,
    match conversations w !! id with
    | None => (None, w)
    | Some c =>
        let c' := apply_update update c in
        (Some (if new_ then c' else c), with_conversations (insert id c') w)
    end).

(** [Conversation.findOneAndUpdate({_id: id}, update, cb)]. *)
Definition Conversation_findOneAndUpdate (id : ObjectId) (update : JsVal)
  : St (JsError + option Conversation) :=
  Conversation_findByIdAndUpdate id update false.

(** [Conversation.findOne({_id: id}, cb)]. *)
Definition Conversation_findOne (id : ObjectId) : St (JsError + option Conversation) :=
  store_access (λ w, (conversations w !! id, w)).

(** [Conversation.findOneAndRemove({_id: id, members: userId}, cb)]: the
    document is removed and handed over when it exists and lists [userId];
    otherwise nothing is removed and the result is [null]. *)
Definition Conversation_findOneAndRemove (id : ObjectId) (userId : ObjectId)
  : St (JsError + option Conversation) :=
  store_access (λ w,
    match conversations w !! id with
    | Some c =>
        if bool_decide (userId ∈ c_members c)
        then (Some c, with_conversations (delete id) w)
        else (None, w)
    | None => (None, w)
    end).

(** [Conversation.populate(doc, 'members', cb)]: a read of the User
    collection, which is outside the model; the identifiers stay. *)
Definition Conversation_populate (c : Conversation) : St (JsError + Conversation) :=
  store_access (λ w, (c, w)).

(** [doc.save(cb)] on a new ChatMessage. *)
Definition ChatMessage_save (m : ChatMessage) : St (JsError + ChatMessage) :=
  store_access (λ w, (m, with_messages (λ l, l ++ [m]) w)).

(** [ChatMessage.populate(message, [...], cb)]. *)
Definition ChatMessage_populate (m : ChatMessage) : St (JsError + ChatMessage) :=
  store_access (λ w, (m, w)).

(** [ChatMessage.remove({channel: id}, cb)]. *)
Definition ChatMessage_remove (id : ObjectId) : St (JsError + unit) :=
  store_access (λ w, (tt, with_messages (filter (λ m, channel m ≠ id)) w)).

(** Newest first: the order of [sort('-timestamps.creation')]. *)
Definition newer_first (a b : ChatMessage) : Prop :=
  timestamps_creation b ≤ timestamps_creation a.

#[global] Instance newer_first_dec a b : Decision (newer_first a b).
Proof. unfold newer_first. apply _. Defined.

(** [ChatMessage.find({channel, moderate}).limit(l).skip(o)
      .sort('-timestamps.creation').exec(cb)]: the matching documents are
    sorted, then [o] of them are skipped, then at most [l] are kept. *)
Definition ChatMessage_find_page (id : ObjectId) (moderate : bool) (l o : nat)
  : St (JsError + list ChatMessage) :=
  store_access (λ w,
    (take l (drop o (merge_sort newer_first
        (filter (λ m, channel m = id ∧ m_moderate m = moderate) (messages w)))), w)).

(** ** The service *)

(** [throw e] and the two ways of calling back. *)
Definition throw {A} (e : JsError) : St (Outcome A) := mret (Thrown e).
Definition callback {A} (r : JsError + A) : St (Outcome A) :=
  mret (match r with inl err => Failed err | inr a => Returned a end).

(** [list.map(s => new ObjectId(f(s)))]: the first refusal is thrown. *)
Fixpoint map_ObjectId (f : string → string) (l : list string) : JsError + list ObjectId :=
  match l with
  | [] => inr []
  | s :: l' =>
      match ObjectId_new (f s) with
      | inl e => inl e
      | inr o =>
          match map_ObjectId f l' with
          | inl e => inl e
          | inr os => inr (o :: os)
          end
      end
  end.

Definition with_user_mentions (l : list ObjectId) (message : MessageInput) : MessageInput :=
  {| i_channel := i_channel message; i_creator := i_creator message;
     i_text := i_text message; i_user_mentions := l;
     i_moderate := i_moderate message; i_creation := i_creation message |}.

(** [parseMention(message)]: overwrites [message.user_mentions]. *)
Definition parseMention (message : MessageInput) : JsError + MessageInput :=
  match i_text message with
  | None => inl (TypeError "Cannot read property 'match' of undefined")
  | Some text =>
      match map_ObjectId strip_at (uniq (match_mentions text)) with
      | inl e => inl e
      | inr ids => inr (with_user_mentions ids message)
      end
  end.

(** [makeAllMessageReadedForAnUserHelper(userIds, conversation, callback)].
    [conversation] is [None] when the caller holds [null] or [undefined]:
    reading [conversation.numOfMessage] (or [conversation._id]) then
    raises a [TypeError]. *)
Definition makeAllMessageReadedForAnUserHelper
    (userIds : JsVal) (conversation : option Conversation)
  : St (Outcome (option Conversation)) :=
  let userIds := match userIds with JsArray l => l | _ => [userIds] end in
  match conversation with
  | None => throw (TypeError "Cannot read property 'numOfMessage' of null")
  | Some conversation =>
      let updateMaxOperation :=
        foldl (λ o userId,
                 js_set o (counter_path (js_String userId))
                          (JsNum (numOfMessage conversation)))
              (JsObject []) userIds in
      r ← Conversation_findByIdAndUpdate (c_id conversation)
            (JsObject [("$max", updateMaxOperation)]) false;
      callback r
  end.

(** [makeAllMessageReadedForAnUser(userId, conversationId, callback)]. *)
Definition makeAllMessageReadedForAnUser (userId : JsVal) (conversationId : ObjectId)
  : St (Outcome (option Conversation)) :=
  r ← Conversation_findOne conversationId;
  match r with
  | inl err => callback (inl err)
  | inr conversation => makeAllMessageReadedForAnUserHelper userId conversation
  end.

(** [new ChatMessage(message)]: the document gets the caller's fields; its
    creation time is the caller's when given and the current time
    otherwise. *)
Definition new_ChatMessage (message : MessageInput) (text_ : string) : St ChatMessage :=
  now ← Date_now;
  mret {| channel := i_channel message; creator := i_creator message;
          text := text_; user_mentions := i_user_mentions message;
          m_moderate := i_moderate message;
          timestamps_creation := default now (i_creation message) |}.

(** The [last_message] summary [createMessage] writes. *)
Definition last_message_of (message : ChatMessage) : JsVal :=
  JsObject [("text", JsStr (text message));
            ("date", JsNum (timestamps_creation message));
            ("creator", JsStr (creator message));
            ("user_mentions", JsArray (JsStr <$> user_mentions message))].

(** [createMessage(message, callback)]. *)
Definition createMessage (message : MessageInput) : St (Outcome ChatMessage) :=
  match parseMention message with
  | inl e => throw e
  | inr message =>
      chatMessage ← new_ChatMessage message (default "" (i_text message));
      saved ← ChatMessage_save chatMessage;
      match saved with
      | inl err => callback (inl err)
      | inr message =>
          r ← Conversation_findByIdAndUpdate (channel message)
                (JsObject [("$set", JsObject [("last_message", last_message_of message)]);
                           ("$inc", JsObject [("numOfMessage", JsNum 1)])]) false;
          conversation ←
            match r with
            | inl err =>
                logger_error "Can not update channel with last_update";;
                mret None
            | inr conversation => mret conversation
            end;
          marked ← makeAllMessageReadedForAnUserHelper (JsStr (creator message)) conversation;
          match marked with
          | Thrown e => throw e
          | Failed err => callback (inl err)
          | Returned _ =>
              populated ← ChatMessage_populate message;
              callback populated
          end
      end
  end.

(** [ensureObjectId(id)]. *)
Definition ensureObjectId (id : IdArg) : JsError + ObjectId :=
  match id with
  | IdObj o => inr o
  | IdStr s => ObjectId_new s
  end.

(** [ids.map(ensureObjectId)]. *)
Fixpoint map_ensureObjectId (l : list IdArg) : JsError + list ObjectId :=
  match l with
  | [] => inr []
  | id :: l' =>
      match ensureObjectId id with
      | inl e => inl e
      | inr o =>
          match map_ensureObjectId l' with
          | inl e => inl e
          | inr os => inr (o :: os)
          end
      end
  end.

(** [addMemberToConversation(conversationId, userId, callback)].  The
    helper is started before the event is published and completes after
    it; the two touch different parts of the world. *)
Definition addMemberToConversation (conversationId : ObjectId) (userId : IdArg)
  : St (Outcome (option Conversation)) :=
  match ensureObjectId userId with
  | inl e => throw e
  | inr userObjectId =>
      r ← Conversation_findByIdAndUpdate conversationId
            (JsObject [("$addToSet", JsObject [("members", JsStr userObjectId)])]) false;
      match r with
      | inl err => callback (inl err)
      | inr conversation =>
          marked ← makeAllMessageReadedForAnUserHelper (IdArg_js userId) conversation;
          match marked with
          | Thrown e => throw e
          | _ => publish channelAddMember (PDoc conversation);; mret marked
          end
      end
  end.

(** The [modifications] argument of [updateConversation]. *)
Record Modifications : Type := {
  newMembers : option (list IdArg);
  deleteMembers : option (list IdArg);
  mod_name : option string;
  mod_avatar : option string
}.

(** [x && x.length] for an optional array. *)
Definition nonempty {A} (x : option (list A)) : bool :=
  match x with Some (_ :: _) => true | _ => false end.

(** [if (s)] for an optional string. *)
Definition nonblank (x : option string) : bool :=
  match x with Some s => negb (bool_decide (s = "")) | None => false end.

Definition js_id_array (l : list ObjectId) : JsVal := JsArray (JsStr <$> l).

Definition js_optional_ids (x : option (list IdArg)) : JsVal :=
  match x with Some l => JsArray (IdArg_js <$> l) | None => JsUndefined end.

(** The first part of [updateConversation]: the update document, up to the
    point where the store is first called.  [map(ensureObjectId)] and
    [new ObjectId(avatar)] may throw. *)
Definition updateConversation_modifications (modifications : Modifications)
  : JsError + JsVal :=
  let mongoModifications := JsObject [] in
  match (if nonempty (newMembers modifications)
         then match map_ensureObjectId (default [] (newMembers modifications)) with
              | inl e => inl e
              | inr ids =>
                  inr (js_set mongoModifications "$addToSet"
                         (JsObject [("members", JsObject [("$each", js_id_array ids)])]))
              end
         else inr mongoModifications) with
  | inl e => inl e
  | inr mongoModifications =>
  match (if nonempty (deleteMembers modifications)
         then match map_ensureObjectId (default [] (deleteMembers modifications)) with
              | inl e => inl e
              | inr ids =>
                  inr (js_set mongoModifications "$pullAll"
                         (JsObject [("members", js_id_array ids)]))
              end
         else inr mongoModifications) with
  | inl e => inl e
  | inr mongoModifications =>
      let set_ := JsObject [] in
      let set_ := if nonblank (mod_name modifications)
                  then js_set set_ "name" (JsStr (default "" (mod_name modifications)))
                  else set_ in
      match (if nonblank (mod_avatar modifications)
             then match ObjectId_new (default "" (mod_avatar modifications)) with
                  | inl e => inl e
                  | inr o => inr (js_set set_ "avatar" (JsStr o))
                  end
             else inr set_) with
      | inl e => inl e
      | inr set_ => inr (js_set mongoModifications "$set" set_)
      end
  end end.

(** [done(callback, err, conversation)] inside [updateConversation]. *)
Definition updateConversation_done (modifications : Modifications)
    (mongoModifications nextMongoModification : JsVal)
    (r : JsError + option Conversation) : St (Outcome (option Conversation)) :=
  match r with
  | inl err => callback (inl err)
  | inr None => throw (TypeError "Cannot read property 'toObject' of null")
  | inr (Some conversation) =>
      p ← Conversation_populate conversation;
      match p with
      | inl err => callback (inl err)
      | inr conversation =>
          publish channelUpdateTopic
            (PUpdate conversation (js_optional_ids (deleteMembers modifications)));;
          if nonempty (newMembers modifications) then
            makeAllMessageReadedForAnUserHelper
              (js_get (js_get (if truthy nextMongoModification
                               then nextMongoModification
                               else mongoModifications) "$addToSet") "$each")
              (Some conversation)
          else callback (inr (Some conversation))
      end
  end.

(** [updateConversation(conversationId, modifications, callback)]. *)
Definition updateConversation (conversationId : ObjectId) (modifications : Modifications)
  : St (Outcome (option Conversation)) :=
  match updateConversation_modifications modifications with
  | inl e => throw e
  | inr mongoModifications =>
      let nextMongoModification := JsNull in
      let '(mongoModifications, nextMongoModification) :=
        if truthy (js_get mongoModifications "$addToSet")
           && truthy (js_get mongoModifications "$pullAll")
        then (js_delete mongoModifications "$addToSet",
              JsObject [("$addToSet", js_get mongoModifications "$addToSet")])
        else (mongoModifications, nextMongoModification) in
      let mongoModifications :=
        if isEmpty (js_get mongoModifications "$set")
        then js_delete mongoModifications "$set"
        else mongoModifications in
      r ← Conversation_findOneAndUpdate conversationId mongoModifications;
      if truthy nextMongoModification then
        r2 ← Conversation_findOneAndUpdate conversationId nextMongoModification;
        updateConversation_done modifications mongoModifications nextMongoModification r2
      else
        updateConversation_done modifications mongoModifications nextMongoModification r
  end.

(** [moderateConversation(conversationId, moderate, callback)]: here the
    source asks for the updated document with [{new: true}]. *)
Definition moderateConversation (conversationId : ObjectId) (moderate : bool)
  : St (Outcome (option Conversation)) :=
  r ← Conversation_findByIdAndUpdate conversationId
        (JsObject [("$set", JsObject [("moderate", JsBool moderate)])]) true;
  callback r.

(** [deleteConversation(userId, channel, callback)]. *)
Definition deleteConversation (userId : ObjectId) (channel_ : ObjectId)
  : St (Outcome (option Conversation)) :=
  r ← Conversation_findOneAndRemove channel_ userId;
  match r with
  | inl err => callback (inl err)
  | inr deleteResult =>
      publish channelDeletionTopic (PDoc deleteResult);;
      removed ← ChatMessage_remove channel_;
      match removed with
      | inl err => callback (inl err)
      | inr _ => callback (inr deleteResult)
      end
  end.

(** The [query] argument of [getMessages].  [q_limit] and [q_offset] are
    the numbers [+query.limit] and [+query.offset], [None] when the
    conversion gives [NaN] (a missing or non-numeric property). *)
Record MessagesQuery : Type := {
  q_moderate : JsVal;
  q_limit : option nat;
  q_offset : option nat
}.

(** [n || d] for a number that may be [NaN]. *)
Definition number_or (n : option nat) (d : nat) : nat :=
  match n with
  | Some (S k) => S k
  | _ => d
  end.

(** The [conversation] argument: a document or an identifier
    ([conversation._id || conversation]). *)
Inductive ConversationArg : Type :=
| ByDocument (c : Conversation)
| ById (id : ObjectId).

(** [getMessages(conversation, query, callback)]. *)
Definition getMessages (conversation : ConversationArg) (query : option MessagesQuery)
  : St (Outcome (list ChatMessage)) :=
  let query := default {| q_moderate := JsUndefined; q_limit := None; q_offset := None |}
                       query in
  let query :=
    if negb (truthy (q_moderate query))
    then {| q_moderate := JsBool false; q_limit := q_limit query;
            q_offset := q_offset query |}
    else query in
  let conversationId :=
    match conversation with ByDocument c => c_id c | ById id => id end in
  r ← ChatMessage_find_page conversationId false
        (number_or (q_limit query) 20) (number_or (q_offset query) 0);
  match r with
  | inl err => callback (inl err)
  | inr result => callback (inr (reverse result))
  end.

(** The [topic] argument of [updateTopic]. *)
Record TopicInput : Type := {
  t_value : JsVal;
  t_creator : JsVal;
  t_last_set : JsVal
}.

(** [updateTopic(conversationId, topic, callback)].  The callback reads
    [conversation._id] and [conversation.topic.value] whatever [err] is:
    with no document, or a document without a topic, that is a
    [TypeError]. *)
Definition updateTopic (conversationId : ObjectId) (topic : TopicInput)
  : St (Outcome (option Conversation)) :=
  r ← Conversation_findByIdAndUpdate conversationId
        (JsObject [("$set", JsObject [("topic",
            JsObject [("value", t_value topic);
                      ("creator", t_creator topic);
                      ("last_set", t_last_set topic)])])]) false;
  match r with
  | inl _ | inr None => throw (TypeError "Cannot read property '_id' of undefined")
  | inr (Some conversation) =>
      match c_topic conversation with
      | JsUndefined | JsNull => throw (TypeError "Cannot read property 'value' of undefined")
      | _ =>
          now ← Date_now;
          let message :=
            JsObject [("type", JsStr "text");
                      ("subtype", JsStr "channel:topic");
                      ("date", JsNum now);
                      ("channel", JsStr (js_String (JsStr (c_id conversation))));
                      ("user", JsStr (js_String (t_creator topic)));
                      ("topic",
                       JsObject [("value", js_get (c_topic conversation) "value");
                                 ("creator", JsStr (js_String
                                    (js_get (c_topic conversation) "creator")));
                                 ("last_set", js_get (c_topic conversation) "last_set")]);
                      ("text", JsStr (String.append "set the channel topic: "
                                        (js_String (t_value topic))))] in
          publish channelTopicUpdateTopic (PObject message);;
          callback (inr (Some conversation))
      end
  end.

(** Modelled from the spec: the constants module ([lib/constants]) is not
    among the sources; the spec names the openly-joinable conversation
    type a channel, and this is the value of [CONVERSATION_TYPE.CHANNEL]. *)
Definition CONVERSATION_TYPE_CHANNEL : string := "channel".

(** The [options] argument of [findConversation]. *)
Record FindOptions : Type := {
  o_type : option (string + list string);      (* a type, or an array of types *)
  o_ignoreMemberFilterForChannel : bool;
  o_exactMembersMatch : bool;
  o_members : option (list string);            (* an array is truthy even when empty *)
  o_name : JsVal;                              (* undefined, null or a string *)
  o_moderate : bool
}.

(** [s.indexOf(sub) > -1] on strings. *)
Fixpoint is_prefix (p s : string) : bool :=
  match p, s with
  | EmptyString, _ => true
  | String a p', String b s' => bool_decide (a = b) && is_prefix p' s'
  | String _ _, EmptyString => false
  end.

Fixpoint has_substring (sub s : string) : bool :=
  is_prefix sub s ||
  match s with
  | EmptyString => false
  | String _ s' => has_substring sub s'
  end.

(** [if (type)] and [type.indexOf(CONVERSATION_TYPE.CHANNEL) > -1]. *)
Definition type_truthy (t : option (string + list string)) : bool :=
  match t with
  | None => false
  | Some (inl s) => negb (bool_decide (s = ""))
  | Some (inr _) => true
  end.

Definition type_has_channel (t : option (string + list string)) : bool :=
  match t with
  | None => false
  | Some (inl s) => has_substring CONVERSATION_TYPE_CHANNEL s
  | Some (inr l) => bool_decide (CONVERSATION_TYPE_CHANNEL ∈ l)
  end.

(** Whether a conversation satisfies a query document: the operators
    [findConversation] writes. *)
Definition matches_field (c : Conversation) (k : string) (v : JsVal) : bool :=
  if bool_decide (k = "moderate") then
    match v with JsBool b => bool_decide (c_moderate c = b) | _ => false end
  else if bool_decide (k = "members") then
    forallb (λ m, bool_decide (m ∈ c_members c)) (js_ids (js_get v "$all"))
    && match js_get v "$size" with
       | JsNum n => Nat.eqb (List.length (c_members c)) n
       | _ => true
       end
  else if bool_decide (k = "type") then
    match js_get v "$in" with
    | JsArray l => bool_decide (c_type c ∈ js_ids (JsArray l))
    | _ => match v with JsStr s => bool_decide (c_type c = s) | _ => false end
    end
  else if bool_decide (k = "name") then
    match v with
    | JsStr s => match c_name c with JsStr s' => bool_decide (s' = s) | _ => false end
    | JsNull => match c_name c with JsNull | JsUndefined => true | _ => false end
    | JsObject _ =>
        match js_get v "$exists" with
        | JsBool false => match c_name c with JsUndefined => true | _ => false end
        | JsBool true => match c_name c with JsUndefined => false | _ => true end
        | _ => false
        end
    | _ => false
    end
  else false.

Fixpoint matches (c : Conversation) (request : JsVal) {struct request} : bool :=
  match request with
  | JsObject fs =>
      (fix all_fields (fs : list (string * JsVal)) : bool :=
         match fs with
         | [] => true
         | kv :: fs' =>
             (if bool_decide (kv.1 = "$or") then
                match kv.2 with
                | JsArray alts =>
                    (fix any (l : list JsVal) : bool :=
                       match l with
                       | [] => false
                       | r :: l' => matches c r || any l'
                       end) alts
                | _ => false
                end
              else matches_field c kv.1 kv.2)
             && all_fields fs'
         end) fs
  | _ => false
  end.

Definition last_message_date (c : Conversation) : nat :=
  match js_get (last_message c) "date" with JsNum n => n | _ => 0 end.

Definition latest_first (a b : Conversation) : Prop :=
  last_message_date b ≤ last_message_date a.

#[global] Instance latest_first_dec a b : Decision (latest_first a b).
Proof. unfold latest_first. apply _. Defined.

(** [Conversation.find(request).populate(...).sort('-last_message.date')
      .exec(callback)]. *)
Definition Conversation_find (request : JsVal) : St (JsError + list Conversation) :=
  store_access (λ w,
    (merge_sort latest_first
       (filter (λ c, matches c request = true) (map_to_list (conversations w)).*2), w)).

(** The two errors [findConversation] raises on its options. *)
Definition exactMembersMatch_error : JsError :=
  Error "Could not set exactMembersMatch to true without providing members".
Definition ignoreMemberFilterForChannel_error : JsError :=
  Error "Could not set ignoreMemberFilterForChannel to true without providing members".

(** The part of [findConversation] that runs before the store is called:
    the two checks, then the query document. *)
Definition findConversation_request (options : FindOptions) : JsError + JsVal :=
  let type := o_type options in
  let ignoreMemberFilterForChannel := o_ignoreMemberFilterForChannel options in
  let exactMembersMatch := o_exactMembersMatch options in
  let members := o_members options in
  let name := o_name options in
  let moderate := o_moderate options in
  if exactMembersMatch && negb (bool_decide (is_Some members)) then
    inl exactMembersMatch_error
  else if ignoreMemberFilterForChannel && negb (bool_decide (is_Some members)) then
    inl ignoreMemberFilterForChannel_error
  else
    let request := JsObject [("moderate", JsBool moderate)] in
    match (match members with
           | Some participants =>
               match map_ObjectId id participants with
               | inl e => inl e
               | inr ids =>
                   inr (js_set request "members" (JsObject [("$all", js_id_array ids)]))
               end
           | None => inr request
           end) with
    | inl e => inl e
    | inr request =>
        let request :=
          if type_truthy type then
            js_set request "type"
              (JsObject [("$in", match type with
                                 | Some (inr l) => JsArray (JsStr <$> l)
                                 | Some (inl s) => JsArray [JsStr s]
                                 | None => JsArray []
                                 end)])
          else request in
        let request := if truthy name then js_set request "name" name else request in
        let request :=
          match name with
          | JsNull =>
              js_set request "$or"
                (JsArray [JsObject [("name", JsObject [("$exists", JsBool false)])];
                          JsObject [("name", JsNull)]])
          | _ => request
          end in
        let request :=
          if ignoreMemberFilterForChannel
             && (negb (type_truthy type) || type_has_channel type)
          then JsObject [("$or", JsArray [js_delete request "moderate";
                                          JsObject [("type", JsStr CONVERSATION_TYPE_CHANNEL)]]);
                         ("moderate", JsBool moderate)]
          else request in
        if exactMembersMatch then
          match js_get request "members" with
          | JsObject fs =>
              inr (js_set request "members"
                     (JsObject (fields_set fs "$size"
                                  (JsNum (List.length (default [] members))))))
          | _ => inl (TypeError "Cannot set property '$size' of undefined")
          end
        else inr request
    end.

(** [findConversation(options, callback)]. *)
Definition findConversation (options : FindOptions) : St (Outcome (list Conversation)) :=
  match findConversation_request options with
  | inl e => throw e
  | inr request =>
      r ← Conversation_find request;
      callback r
  end.

(** ** Vocabulary of the statements *)

(** A text contains a mention: [@] followed by 24 hexadecimal digits. *)
Definition has_mention (text : string) : Prop :=
  ∃ pre h post : string,
    text = String.append pre (String "@" (String.append h post))
    ∧ String.length h = 24 ∧ all_hex h = true.

(** One match of the pattern. *)
Definition is_mention (m : string) : Prop :=
  ∃ h, m = String "@" h ∧ String.length h = 24 ∧ all_hex h = true.

(** The identifier a match denotes. *)
Definition mention_id (m : string) : ObjectId := lower_hex (strip_at m).

(** In the store every document is filed under its own [_id]. *)
Definition store_wf (w : World) : Prop :=
  ∀ id c, conversations w !! id = Some c → c_id c = id.

(** The next [n] store accesses succeed. *)
Definition healthy (n : nat) (w : World) : Prop := true ∉ take n (faults w).

(** The counters a [userIds] argument addresses: [String(userId)] for the
    one value, or for each element of the array. *)
Definition user_keys (userIds : JsVal) : list string :=
  match userIds with
  | JsArray l => js_String <$> l
  | v => [js_String v]
  end.

(** [max(previous, n)], where a missing counter gives [n]. *)
Definition max_read (previous : option nat) (n : nat) : nat :=
  match previous with
  | Some r => r `max` n
  | None => n
  end.

(** The read-counter invariant of one document: for its members, and for
    every counter it records. *)
Definition members_bounded (c : Conversation) : Prop :=
  ∀ u r, u ∈ c_members c → numOfReadedMessage c !! u = Some r → r ≤ numOfMessage c.

Definition counters_bounded (c : Conversation) : Prop :=
  ∀ u r, numOfReadedMessage c !! u = Some r → r ≤ numOfMessage c.

Definition member_invariant (w : World) : Prop :=
  ∀ id c, conversations w !! id = Some c → members_bounded c.

Definition read_invariant (w : World) : Prop :=
  ∀ id c, conversations w !! id = Some c → counters_bounded c.

(** A [$max] document all of whose fields set a read counter to [n]. *)
Definition max_fields (n : nat) (fs : list (string * JsVal)) : Prop :=
  Forall (λ kv, ∃ k, kv = (counter_path k, JsNum n)) fs.

(** [inv]: the store is well formed and every recorded counter is bounded. *)
Definition inv (w : World) : Prop := store_wf w ∧ read_invariant w.

(** [snapshot c0 w]: [c0] was read from the store earlier; the document
    filed under its [_id] has at least as many messages now. *)
Definition snapshot (c0 : Conversation) (w : World) : Prop :=
  ∃ c1, conversations w !! c_id c0 = Some c1 ∧ numOfMessage c0 ≤ numOfMessage c1.

(** Every number a [$max] document carries is at most [n]. *)
Definition max_le (n : nat) (op : JsVal) : Prop :=
  match op with
  | JsObject fs => Forall (λ kv, ∀ r, kv.2 = JsNum r → r ≤ n) fs
  | _ => True
  end.

(** Hoare triples over the state of the world. *)
Definition triple {A} (P : World → Prop) (m : St A) (Q : A → World → Prop) : Prop :=
  ∀ w, P w → Q (m w).1 (m w).2.

(** Against a world [w0]: every conversation of [w] was there in [w0],
    with the same read counters except possibly the one filed under the
    key [undefined]. *)
Definition counters_kept (w0 w : World) : Prop :=
  ∀ id c', conversations w !! id = Some c' →
    ∃ c, conversations w0 !! id = Some c
         ∧ ∀ u, u ≠ "undefined" →
                numOfReadedMessage c' !! u = numOfReadedMessage c !! u.

(** The two orders of [getMessages]: see [newer_first]. *)
Definition older_first (a b : ChatMessage) : Prop :=
  timestamps_creation a ≤ timestamps_creation b.

(** A property that only looks at the conversations. *)
Definition convs_only (P : World → Prop) : Prop :=
  ∀ w w', conversations w' = conversations w → P w → P w'.

(** What an update hands over is a snapshot of the store. *)
Definition snapshot_result (r : JsError + option Conversation) (w : World) : Prop :=
  match r with
  | inr (Some c0) => snapshot c0 w
  | _ => True
  end.

(** ** Sample data *)

Definition alice : ObjectId := "aaaaaaaaaaaaaaaaaaaaaaaa".
Definition bob : ObjectId := "bbbbbbbbbbbbbbbbbbbbbbbb".
Definition carol : ObjectId := "cccccccccccccccccccccccc".
Definition general : ObjectId := "0123456789abcdef01234567".

(** The conversation [general]: five messages so far, [alice] its only
    member, a topic set earlier. *)
Definition general_conversation : Conversation :=
  {| c_id := general; c_type := "channel"; c_name := JsStr "general";
     c_moderate := false; c_members := [alice];
     c_topic := JsObject [("value", JsStr "old topic");
                          ("creator", JsStr alice);
                          ("last_set", JsNum 10)];
     c_avatar := JsUndefined;
     last_message := JsObject [("date", JsNum 40); ("user_mentions", JsArray [])];
     numOfMessage := 5;
     numOfReadedMessage := {[alice := 3]} |}.

Definition sample_message (t : string) (moderated : bool) (created : nat) : ChatMessage :=
  {| channel := general; creator := alice; text := t; user_mentions := [];
     m_moderate := moderated; timestamps_creation := created |}.

Definition sample_world : World :=
  {| conversations := {[general := general_conversation]};
     messages := [sample_message "one" false 10; sample_message "two" true 20;
                  sample_message "three" false 30; sample_message "four" false 40];
     published := []; logged := []; faults := []; accesses := 0; clock := 100 |}.

Definition sample_input (t : string) : MessageInput :=
  {| i_channel := general; i_creator := alice; i_text := Some t;
     i_user_mentions := []; i_moderate := false; i_creation := None |}.

(** The same identifier written once in upper and once in lower case. *)
Definition mixed_case_text : string :=
  "@AAAAAAAAAAAAAAAAAAAAAAAA and again @aaaaaaaaaaaaaaaaaaaaaaaa".

(** A conversation without members and without messages that still holds
    a read counter for [bob]. *)
Definition stale_conversation : Conversation :=
  {| c_id := general; c_type := "channel"; c_name := JsUndefined;
     c_moderate := false; c_members := [];
     c_topic := JsUndefined; c_avatar := JsUndefined;
     last_message := JsObject []; numOfMessage := 0;
     numOfReadedMessage := {[bob := 5]} |}.

Definition stale_world : World :=
  {| conversations := {[general := stale_conversation]};
     messages := []; published := []; logged := []; faults := [];
     accesses := 0; clock := 100 |}.

(** The message [createMessage] saves for [sample_input "hello"] in
    [sample_world]. *)
Definition hello_saved : ChatMessage :=
  {| channel := general; creator := alice; text := "hello"; user_mentions := [];
     m_moderate := false; timestamps_creation := 100 |}.

(** [sample_world] with a store whose second access fails. *)
Definition failing_world : World :=
  {| conversations := conversations sample_world; messages := messages sample_world;
     published := []; logged := []; faults := [false; true]; accesses := 0;
     clock := 100 |}.

Definition new_topic : TopicInput :=
  {| t_value := JsStr "new topic"; t_creator := JsStr bob; t_last_set := JsNum 100 |}.

(** Add [bob], remove [alice]. *)
Definition swap_members : Modifications :=
  {| newMembers := Some [IdObj bob]; deleteMembers := Some [IdObj alice];
     mod_name := None; mod_avatar := None |}.

Definition exact_without_members : FindOptions :=
  {| o_type := None; o_ignoreMemberFilterForChannel := false;
     o_exactMembersMatch := true; o_members := None; o_name := JsUndefined;
     o_moderate := false |}.

Definition ignore_without_members : FindOptions :=
  {| o_type := None; o_ignoreMemberFilterForChannel := true;
     o_exactMembersMatch := false; o_members := None; o_name := JsUndefined;
     o_moderate := false |}.

Definition exact_with_members : FindOptions :=
  {| o_type := None; o_ignoreMemberFilterForChannel := false;
     o_exactMembersMatch := true; o_members := Some [alice]; o_name := JsUndefined;
     o_moderate := false |}.

(** Both flags and members: the query is wrapped in [$or] before
    [$size] is written into [request.members]. *)
Definition exact_and_ignore : FindOptions :=
  {| o_type := None; o_ignoreMemberFilterForChannel := true;
     o_exactMembersMatch := true; o_members := Some [alice]; o_name := JsUndefined;
     o_moderate := false |}.

(** A page request that also asks for moderated messages. *)
Definition second_page : MessagesQuery :=
  {| q_moderate := JsBool true; q_limit := Some 2; q_offset := Some 1 |}.

(* ===================================================================== *)
(** * Part 1, continued. The other operations of the service             *)
(* ===================================================================== *)

(** [getCommunityConversationByCommunityId], [updateCommunityConversation],
    [listConversation], [getMessage] and [moderateMessage] read fields the
    records above do not carry (the community of a conversation, its
    creation time, the identifier of a message); they are not embedded. *)

(** ** Reading and counting *)

(** [Conversation.findById(id).populate('members', ...).exec(cb)]. *)
Definition Conversation_findById (id : ObjectId) : St (JsError + option Conversation) :=
  store_access (λ w, (conversations w !! id, w)).

(** [getConversation(channel, callback)]. *)
Definition getConversation (channel_ : ObjectId) : St (Outcome (option Conversation)) :=
  r ← Conversation_findById channel_;
  callback r.

(** [ChatMessage.count({channel: id}, cb)]: moderated or not. *)
Definition ChatMessage_count (id : ObjectId) : St (JsError + nat) :=
  store_access (λ w, (List.length (filter (λ m, channel m = id) (messages w)), w)).

(** [countMessages(conversation, callback)]. *)
Definition countMessages (conversation : ObjectId) : St (Outcome nat) :=
  r ← ChatMessage_count conversation;
  callback r.

(** ** Removing a member *)

(** [new ObjectId(id)] where [id] is an identifier or a string: an
    identifier is taken as it is. *)
Definition ObjectId_of (id : IdArg) : JsError + ObjectId :=
  match id with
  | IdObj o => inr o
  | IdStr s => ObjectId_new s
  end.

(** [removeMemberFromConversation(conversationId, userId, callback)]. *)
Definition removeMemberFromConversation (conversationId : ObjectId) (userId : IdArg)
  : St (Outcome (option Conversation)) :=
  let unsetOperation :=
    js_set (JsObject []) (counter_path (js_String (IdArg_js userId))) (JsStr "") in
  match ObjectId_of userId with
  | inl e => throw e
  | inr member =>
      r ← Conversation_findByIdAndUpdate conversationId
            (JsObject [("$pull", JsObject [("members", JsStr member)]);
                       ("$unset", unsetOperation)]) false;
      match r with
      | inl err => callback (inl err)
      | inr conversation =>
          publish channelUpdateTopic
            match conversation with
            | Some c => PUpdate c (JsArray [JsObject [("_id", IdArg_js userId)]])
            | None =>
                PObject (JsObject [("conversation", JsNull);
                                   ("deleteMembers",
                                    JsArray [JsObject [("_id", IdArg_js userId)]])])
            end;;
          callback (inr conversation)
      end
  end.

(** ** Creating a conversation *)

(** The [options] of [createConversation]: the fields of the new document
    the caller may give. *)
Record ConversationOptions : Type := {
  co_type : string;
  co_name : JsVal;
  co_moderate : bool;
  co_members : list ObjectId;
  co_topic : JsVal;
  co_avatar : JsVal;
  co_last_message : JsVal;
  co_numOfMessage : option nat;
  co_numOfReadedMessage : option (gmap string nat);
  co_creation : option nat                 (* [timestamps.creation], when given *)
}.

(** [doc.save(cb)] on a new conversation: the document is inserted; an
    [_id] already in the collection is refused by the store. *)
Definition Conversation_save (c : Conversation) : St (JsError + Conversation) :=
  λ w,
    match faults w with
    | true :: _ => (inl StoreError, tick w)
    | _ =>
        match conversations w !! c_id c with
        | Some _ => (inl StoreError, tick w)
        | None => (inr c, with_conversations (insert (c_id c) c) (tick w))
        end
    end.

(** The first step of [createConversation]: [new Conversation(options)]
    with the identifier [new_id] the driver generates, then the three
    assignments.  [0 || 0] is [0], so a missing or zero count gives [0]. *)
Definition new_Conversation (new_id : ObjectId) (options : ConversationOptions)
  : St Conversation :=
  now ← Date_now;
  mret {| c_id := new_id; c_type := co_type options; c_name := co_name options;
          c_moderate := co_moderate options; c_members := co_members options;
          c_topic := co_topic options; c_avatar := co_avatar options;
          last_message :=
            JsObject [("date", JsNum (default now (co_creation options)));
                      ("user_mentions", JsArray [])];
          numOfMessage := default 0 (co_numOfMessage options);
          numOfReadedMessage := default ∅ (co_numOfReadedMessage options) |}.

(** [createConversation(options, callback)]. *)
Definition createConversation (new_id : ObjectId) (options : ConversationOptions)
  : St (Outcome Conversation) :=
  conversation ← new_Conversation new_id options;
  saved ← Conversation_save conversation;
  match saved with
  | inl err => callback (inl err)
  | inr conversation =>
      populated ← Conversation_populate conversation;
      match populated with
      | inl err => callback (inl err)
      | inr conversation =>
          publish channelCreationTopic (PDoc (Some conversation));;
          callback (inr conversation)
      end
  end.

(** ** Listing *)

(** The [options] of [listMessage]; [l_limit] and [l_offset] are numbers,
    [None] when the property is missing. *)
Record ListOptions : Type := {
  l_limit : option nat;
  l_offset : option nat;
  l_creator : option ObjectId
}.

(** What [listMessage] answers: [{total_count, list}]. *)
Record MessageList : Type := {
  total_count : nat;
  list_ : list ChatMessage
}.

#[global] Instance older_first_dec a b : Decision (older_first a b).
Proof. unfold older_first. apply _. Defined.

(** The messages a [listMessage] query selects: all, or those of a creator. *)
Definition by_creator (who : option ObjectId) (m : ChatMessage) : Prop :=
  match who with
  | Some u => creator m = u
  | None => True
  end.

#[global] Instance by_creator_dec who m : Decision (by_creator who m).
Proof. destruct who; simpl; apply _. Defined.

(** [ChatMessage.find(query).count().exec(cb)]. *)
Definition ChatMessage_count_query (who : option ObjectId) : St (JsError + nat) :=
  store_access (λ w, (List.length (filter (by_creator who) (messages w)), w)).

(** [ChatMessage.find(query).skip(o).limit(l).sort('timestamps.creation')
      .populate(...).exec(cb)]; [l = None] when no limit is set. *)
Definition ChatMessage_find_sorted (who : option ObjectId) (o : nat) (l : option nat)
  : St (JsError + list ChatMessage) :=
  store_access (λ w,
    let sorted := drop o (merge_sort older_first (filter (by_creator who) (messages w))) in
    (match l with Some n => take n sorted | None => sorted end, w)).

Section constants.
  (** [CONSTANTS.DEFAULT_LIMIT], [CONSTANTS.DEFAULT_OFFSET] and
      [CONSTANTS.DEFAULT_CHANNEL]: the constants module is not among the
      sources. *)
  Variables DEFAULT_LIMIT DEFAULT_OFFSET : nat.
  Variable DEFAULT_CHANNEL : ConversationOptions.

(** [listMessage(options, callback)]. *)
Definition listMessage (options : option ListOptions) : St (Outcome MessageList) :=
  let options := default {| l_limit := None; l_offset := None; l_creator := None |}
                         options in
  let limit := number_or (l_limit options) DEFAULT_LIMIT in
  let offset := number_or (l_offset options) DEFAULT_OFFSET in
  counted ← ChatMessage_count_query (l_creator options);
  match counted with
  | inl err => callback (inl err)
  | inr count =>
      found ← ChatMessage_find_sorted (l_creator options) offset
                (if Nat.ltb 0 limit then Some limit else None);
      match found with
      | inl err => callback (inl err)
      | inr messages_ => callback (inr {| total_count := count; list_ := messages_ |})
      end
  end.

(** [Conversation.find({type: CHANNEL, moderate}).populate(...).exec(cb)]:
    no order is asked for. *)
Definition Conversation_find_channels (moderate : bool)
  : St (JsError + list Conversation) :=
  store_access (λ w,
    (filter (λ c, c_type c = CONVERSATION_TYPE_CHANNEL ∧ c_moderate c = moderate)
            (map_to_list (conversations w)).*2, w)).

(** [getChannels(options, callback)]; [moderate] is
    [Boolean(options.moderate)], [new_id] the identifier a new document
    would get.  The error of the search is not looked at before the
    default channel is created. *)
Definition getChannels (new_id : ObjectId) (moderate : bool)
  : St (Outcome (list Conversation)) :=
  found ← Conversation_find_channels moderate;
  let channels := match found with inl _ => [] | inr channels => channels end in
  match channels with
  | [] =>
      created ← createConversation new_id DEFAULT_CHANNEL;
      match created with
      | Returned channel_ => callback (inr [channel_])
      | _ => callback (inl (Error "Can not create the default channel"))
      end
  | _ => callback found
  end.

End constants.

(** ** Further sample data *)

(** [sample_world] with a store whose first access fails. *)
Definition down_world : World :=
  {| conversations := conversations sample_world; messages := messages sample_world;
     published := []; logged := []; faults := [true]; accesses := 0; clock := 100 |}.

(** A second conversation and a world holding both, with one message in
    the second. *)
Definition random : ObjectId := "89abcdef0123456789abcdef".

Definition random_conversation : Conversation :=
  {| c_id := random; c_type := "channel"; c_name := JsStr "random";
     c_moderate := false; c_members := [alice; bob];
     c_topic := JsObject [("value", JsStr "anything")];
     c_avatar := JsUndefined;
     last_message := JsObject [("date", JsNum 50); ("user_mentions", JsArray [])];
     numOfMessage := 1;
     numOfReadedMessage := {[bob := 1]} |}.

Definition random_message : ChatMessage :=
  {| channel := random; creator := bob; text := "hi"; user_mentions := [];
     m_moderate := false; timestamps_creation := 50 |}.

Definition two_worlds : World :=
  {| conversations := {[general := general_conversation; random := random_conversation]};
     messages := messages sample_world ++ [random_message];
     published := []; logged := []; faults := []; accesses := 0; clock := 100 |}.

(** A store without conversations or messages. *)
Definition empty_world : World :=
  {| conversations := ∅; messages := []; published := []; logged := []; faults := [];
     accesses := 0; clock := 100 |}.

(** The options of a default channel. *)
Definition default_channel : ConversationOptions :=
  {| co_type := CONVERSATION_TYPE_CHANNEL; co_name := JsStr "general";
     co_moderate := false; co_members := []; co_topic := JsUndefined;
     co_avatar := JsUndefined; co_last_message := JsUndefined;
     co_numOfMessage := None; co_numOfReadedMessage := None; co_creation := None |}.

(** ** Further vocabulary *)

(** A property of the conversation collection, as a property of the world. *)
Definition on_conversations (P : gmap string Conversation → Prop) (w : World) : Prop :=
  P (conversations w).

(** No conversation lists a member twice. *)
Definition members_NoDup (convs : gmap string Conversation) : Prop :=
  ∀ id c, convs !! id = Some c → NoDup (c_members c).

(** The conversation [id], when there is one, has type [t] and at least
    [n] messages counted. *)
Definition at_least (id : ObjectId) (t : string) (n : nat)
    (convs : gmap string Conversation) : Prop :=
  ∀ c, convs !! id = Some c → c_type c = t ∧ n ≤ numOfMessage c.

(** Every conversation of the collection was in [convs0] under the same key. *)
Definition none_created (convs0 convs : gmap string Conversation) : Prop :=
  ∀ id, is_Some (convs !! id) → is_Some (convs0 !! id).

(** A call of one of the operations that write to the store without
    creating a conversation, with its arguments. *)
Inductive Call : Type :=
| call_createMessage (message : MessageInput)
| call_makeAllMessageReadedForAnUser (userIds : JsVal) (conversationId : ObjectId)
| call_addMemberToConversation (conversationId : ObjectId) (userId : IdArg)
| call_removeMemberFromConversation (conversationId : ObjectId) (userId : IdArg)
| call_updateConversation (conversationId : ObjectId) (modifications : Modifications)
| call_moderateConversation (conversationId : ObjectId) (moderate : bool)
| call_updateTopic (conversationId : ObjectId) (topic : TopicInput)
| call_deleteConversation (userId conversationId : ObjectId).

(** The world after a call, whatever its outcome, and after a sequence of
    calls made one after the other. *)
Definition after (call : Call) (w : World) : World :=
  match call with
  | call_createMessage message => (createMessage message w).2
  | call_makeAllMessageReadedForAnUser userIds conversationId =>
      (makeAllMessageReadedForAnUser userIds conversationId w).2
  | call_addMemberToConversation conversationId userId =>
      (addMemberToConversation conversationId userId w).2
  | call_removeMemberFromConversation conversationId userId =>
      (removeMemberFromConversation conversationId userId w).2
  | call_updateConversation conversationId modifications =>
      (updateConversation conversationId modifications w).2
  | call_moderateConversation conversationId moderate =>
      (moderateConversation conversationId moderate w).2
  | call_updateTopic conversationId topic => (updateTopic conversationId topic w).2
  | call_deleteConversation userId conversationId =>
      (deleteConversation userId conversationId w).2
  end.

Definition after_all (calls : list Call) (w : World) : World :=
  foldl (λ w call, after call w) w calls.

(** A sequence of calls for the samples. *)
Definition sample_calls : list Call :=
  [call_createMessage (sample_input "hello");
   call_addMemberToConversation general (IdObj bob);
   call_updateConversation general swap_members;
   call_removeMemberFromConversation general (IdObj bob);
   call_deleteConversation carol general].

(* ===================================================================== *)
(** * Part 2. Properties                                                  *)
(* ===================================================================== *)

(** ** parseMention *)

Lemma take_hex_spec n s h :
  take_hex n s = Some h →
  ∃ post, s = String.append h post ∧ String.length h = n ∧ all_hex h = true.
Proof.
  revert s h. induction n as [|n IH]; intros s h; simpl.
  - intros [= <-]. by exists s.
  - destruct s as [|c s]; [done|].
    destruct (is_hex c) eqn:Hc; [|done].
    destruct (take_hex n s) as [h'|] eqn:Hh; [|done].
    intros [= <-]. destruct (IH _ _ Hh) as (post & -> & <- & Hall).
    exists post. split; [reflexivity|]. simpl. by rewrite Hc, Hall.
Qed.

Lemma has_mention_cons c s : has_mention s → has_mention (String c s).
Proof.
  intros (pre & h & post & -> & Hlen & Hall).
  exists (String c pre), h, post. by split; [reflexivity|].
Qed.

Lemma scan_mentions_unfold skip c s :
  scan_mentions skip (String c s) =
  match skip with
  | S k => scan_mentions k s
  | 0 =>
      if bool_decide (c = "@"%char) then
        match take_hex 24 s with
        | Some h => String "@" h :: scan_mentions 24 s
        | None => scan_mentions 0 s
        end
      else scan_mentions 0 s
  end.
Proof. by destruct skip. Qed.

Lemma scan_mentions_has_mention s : ∀ skip,
  scan_mentions skip s ≠ [] → has_mention s.
Proof.
  induction s as [|c s IH]; intros skip; [done|].
  rewrite scan_mentions_unfold. destruct skip as [|k].
  - case_bool_decide as Hc.
    + destruct (take_hex 24 s) as [h|] eqn:Hh.
      * intros _. destruct (take_hex_spec _ _ _ Hh) as (post & -> & Hlen & Hall).
        subst c. exists "", h, post. by split; [reflexivity|].
      * intros H. apply has_mention_cons. exact (IH _ H).
    + intros H. apply has_mention_cons. exact (IH _ H).
  - intros H. apply has_mention_cons. exact (IH _ H).
Qed.

Lemma match_mentions_none text : ¬ has_mention text → match_mentions text = None.
Proof.
  intros Hno. unfold match_mentions.
  destruct (scan_mentions 0 text) eqn:Hs; [done|].
  exfalso. apply Hno. apply (scan_mentions_has_mention text 0). by rewrite Hs.
Qed.

Lemma parseMention_no_mention message text :
  i_text message = Some text → ¬ has_mention text →
  parseMention message = inr (with_user_mentions [] message).
Proof.
  intros Ht Hno. unfold parseMention. rewrite Ht.
  by rewrite (match_mentions_none _ Hno).
Qed.

Lemma take_hex_complete n h post :
  String.length h = n → all_hex h = true → take_hex n (String.append h post) = Some h.
Proof.
  revert h. induction n as [|n IH]; intros [|c h]; try done.
  intros [= Hlen] [Hc Hall]%andb_prop.
  change (take_hex (S n) (String c (String.append h post)) = Some (String c h)).
  cbn [take_hex]. by rewrite Hc, (IH _ Hlen Hall).
Qed.

Lemma has_mention_scan text : has_mention text → scan_mentions 0 text ≠ [].
Proof.
  intros (pre & h & post & -> & Hlen & Hall).
  induction pre as [|c pre IH].
  - change (scan_mentions 0 (String "@" (String.append h post)) ≠ []).
    rewrite scan_mentions_unfold, bool_decide_eq_true_2 by done.
    by rewrite (take_hex_complete _ _ _ Hlen Hall).
  - change (scan_mentions 0
              (String c (String.append pre (String "@" (String.append h post)))) ≠ []).
    rewrite scan_mentions_unfold. case_bool_decide; [|done].
    by destruct (take_hex 24 _).
Qed.

Lemma match_mentions_is_Some text : is_Some (match_mentions text) ↔ has_mention text.
Proof.
  split.
  - intros [l Hl]. apply (scan_mentions_has_mention text 0).
    unfold match_mentions in Hl. by destruct (scan_mentions 0 text).
  - intros H%has_mention_scan. unfold match_mentions.
    by destruct (scan_mentions 0 text).
Qed.

Lemma scan_mentions_Forall s : ∀ skip, Forall is_mention (scan_mentions skip s).
Proof.
  induction s as [|c s IH]; intros skip; [constructor|].
  rewrite scan_mentions_unfold. destruct skip; [|done].
  case_bool_decide; [|done].
  destruct (take_hex 24 s) as [h|] eqn:Hh; [|done].
  constructor; [|done].
  destruct (take_hex_spec _ _ _ Hh) as (post & _ & Hlen & Hall). by exists h.
Qed.

Lemma uniq_from_elem_of seen l x : x ∈ uniq_from seen l ↔ x ∈ l ∧ x ∉ seen.
Proof.
  revert seen. induction l as [|y l IH]; intros seen; simpl.
  - set_solver.
  - case_bool_decide.
    + rewrite IH. set_solver.
    + rewrite elem_of_cons, IH. destruct (decide (x = y)); set_solver.
Qed.

Lemma uniq_from_NoDup seen l : NoDup (uniq_from seen l).
Proof.
  revert seen. induction l as [|y l IH]; intros seen; simpl.
  - constructor.
  - case_bool_decide; [done|]. constructor; [|done].
    rewrite uniq_from_elem_of. set_solver.
Qed.

Lemma uniq_NoDup a : NoDup (uniq a).
Proof. destruct a; [apply uniq_from_NoDup|constructor]. Qed.

Lemma uniq_elem_of l x : x ∈ uniq (Some l) ↔ x ∈ l.
Proof. unfold uniq. rewrite uniq_from_elem_of. set_solver. Qed.

Lemma map_ObjectId_mentions l :
  Forall is_mention l → map_ObjectId strip_at l = inr (mention_id <$> l).
Proof.
  induction 1 as [|m l (h & -> & Hlen & Hall) _ IH]; [done|].
  cbn [map_ObjectId fmap list_fmap]. rewrite IH.
  unfold mention_id. cbn [strip_at]. rewrite bool_decide_eq_true_2 by done.
  unfold ObjectId_new. by rewrite Hlen, Hall.
Qed.

Lemma uniq_Forall (P : string → Prop) a :
  (∀ l, a = Some l → Forall P l) → Forall P (uniq a).
Proof.
  intros H. apply Forall_forall. intros x Hx. destruct a as [l|]; [|by inv Hx].
  rewrite uniq_elem_of in Hx. specialize (H l eq_refl).
  rewrite Forall_forall in H. by apply H.
Qed.

Lemma match_mentions_Forall text : Forall is_mention (uniq (match_mentions text)).
Proof.
  apply uniq_Forall. intros l Hl. unfold match_mentions in Hl.
  pose proof (scan_mentions_Forall text 0) as H.
  destruct (scan_mentions 0 text); [done|]. by injection Hl as <-.
Qed.

(** [parseMention] in closed form: it never throws on a message that has a text. *)
Lemma parseMention_eq message text :
  i_text message = Some text →
  parseMention message =
    inr (with_user_mentions (mention_id <$> uniq (match_mentions text)) message).
Proof.
  intros Ht. unfold parseMention. rewrite Ht.
  by rewrite (map_ObjectId_mentions _ (match_mentions_Forall text)).
Qed.

Lemma parseMention_idempotent message message' :
  parseMention message = inr message' → parseMention message' = inr message'.
Proof.
  unfold parseMention. destruct (i_text message) as [text|] eqn:Ht; [|done].
  destruct (map_ObjectId _ _) as [|ids] eqn:Hm; [done|].
  intros [= <-]. simpl. by rewrite Ht, Hm.
Qed.
Lemma no_mention_by_scan text_ : match_mentions text_ = None → ¬ has_mention text_.
Proof. intros H [l Hl]%match_mentions_is_Some. congruence. Qed.
(** What does hold of the mentions: the list is the identifiers of the
    distinct matches, in the order of their first occurrence; texts whose
    matches are a permutation of each other give the same set; parsing
    again changes nothing.  Occurrences spelled alike are merged. *)
Lemma parseMention_user_mentions (message message' : MessageInput) (text_ : string) :
  i_text message = Some text_ →
  parseMention message = inr message' →
  i_user_mentions message' = mention_id <$> uniq (match_mentions text_)
  ∧ NoDup (uniq (match_mentions text_)).
Proof.
  intros Ht. rewrite (parseMention_eq _ _ Ht). intros [= <-].
  split; [done|apply uniq_NoDup].
Qed.

Lemma match_mentions_elem_of text_ x :
  x ∈ uniq (match_mentions text_) ↔ x ∈ scan_mentions 0 text_.
Proof.
  unfold match_mentions. destruct (scan_mentions 0 text_) as [|y l] eqn:E.
  - done.
  - by rewrite uniq_elem_of.
Qed.

Lemma parseMention_order_insensitive (message1 message2 message1' message2' : MessageInput)
    (text1 text2 : string) :
  i_text message1 = Some text1 → i_text message2 = Some text2 →
  scan_mentions 0 text1 ≡ₚ scan_mentions 0 text2 →
  parseMention message1 = inr message1' → parseMention message2 = inr message2' →
  ∀ u, u ∈ i_user_mentions message1' ↔ u ∈ i_user_mentions message2'.
Proof.
  intros Ht1 Ht2 Hperm H1 H2 u.
  destruct (parseMention_user_mentions _ _ _ Ht1 H1) as [-> _].
  destruct (parseMention_user_mentions _ _ _ Ht2 H2) as [-> _].
  rewrite !list_elem_of_fmap.
  by setoid_rewrite match_mentions_elem_of; setoid_rewrite Hperm.
Qed.

(** When every mention in the text is written in lower case, as
    [String(id)] prints identifiers, no identifier is listed twice. *)
Lemma parseMention_NoDup_lower_case (message message' : MessageInput) (text_ : string) :
  i_text message = Some text_ →
  (∀ m, m ∈ scan_mentions 0 text_ → lower_hex m = m) →
  parseMention message = inr message' →
  NoDup (i_user_mentions message').
Proof.
  intros Ht Hlower Hparse.
  destruct (parseMention_user_mentions _ _ _ Ht Hparse) as [-> Hnodup].
  apply NoDup_fmap_2_strong; [|done].
  intros x y Hx Hy Heq.
  pose proof (match_mentions_Forall text_) as Hall. rewrite Forall_forall in Hall.
  destruct (Hall x Hx) as (hx & -> & _), (Hall y Hy) as (hy & -> & _).
  apply match_mentions_elem_of, Hlower in Hx, Hy.
  unfold mention_id in Heq. cbn [strip_at] in Heq.
  rewrite !bool_decide_eq_true_2 in Heq by done.
  cbn [lower_hex] in Hx, Hy. injection Hx as Hx. injection Hy as Hy.
  congruence.
Qed.
(** C9 (evaluation at the failing input).  The text names the same
    identifier twice, once in upper and once in lower case.  The two
    matches differ as strings, so [_.uniq] keeps both, and both become the
    same [ObjectId]: [user_mentions] holds it twice. *)
Theorem parseMention_same_identifier_twice :
  match_mentions mixed_case_text
    = Some ["@AAAAAAAAAAAAAAAAAAAAAAAA"; "@aaaaaaaaaaaaaaaaaaaaaaaa"]
  ∧ ObjectId_new "AAAAAAAAAAAAAAAAAAAAAAAA" = inr alice
  ∧ ObjectId_new "aaaaaaaaaaaaaaaaaaaaaaaa" = inr alice
  ∧ parseMention (sample_input mixed_case_text)
    = inr (with_user_mentions [alice; alice] (sample_input mixed_case_text))
  ∧ ∃ m, (createMessage (sample_input mixed_case_text) sample_world).1 = Returned m
         ∧ user_mentions m = [alice; alice].
Proof.
  split_and!; try (vm_compute; reflexivity).
  eexists. split; vm_compute; reflexivity.
Qed.

(** ** Paths of read counters *)

Lemma strip_prefix_app p s : strip_prefix p (String.append p s) = Some s.
Proof.
  induction p as [|a p IH]; [done|].
  change (strip_prefix (String a p) (String a (String.append p s)) = Some s).
  cbn [strip_prefix]. by rewrite bool_decide_eq_true_2.
Qed.

Lemma counter_key_path k : counter_key (counter_path k) = Some k.
Proof. apply strip_prefix_app. Qed.

Lemma counter_path_inj k1 k2 : counter_path k1 = counter_path k2 → k1 = k2.
Proof.
  intros H. apply (f_equal counter_key) in H.
  rewrite !counter_key_path in H. by injection H.
Qed.

(** ** The [$max] operator on read counters *)

Lemma max_field_lookup m k n u :
  max_field m (counter_path k, JsNum n) !! u =
  if decide (u = k) then Some (max_read (m !! k) n) else m !! u.
Proof.
  unfold max_field. cbn [fst snd]. rewrite counter_key_path.
  destruct (m !! k) as [r|] eqn:Hk; cbn [max_read].
  - destruct (Nat.ltb_spec r n).
    + rewrite lookup_insert. repeat case_decide; subst; try done.
      f_equal. lia.
    + case_decide; subst; [|done]. rewrite Hk. f_equal. lia.
  - rewrite lookup_insert. by repeat case_decide; subst.
Qed.

Lemma max_read_idemp o n : max_read (Some (max_read o n)) n = max_read o n.
Proof. destruct o; cbn; lia. Qed.

Lemma foldl_max_field n fs : max_fields n fs → ∀ m u,
  foldl max_field m fs !! u =
  if bool_decide (counter_path u ∈ fs.*1) then Some (max_read (m !! u) n) else m !! u.
Proof.
  induction 1 as [|kv fs (k & ->) _ IH]; intros m u; [done|].
  cbn [foldl fmap list_fmap fst]. rewrite IH, !max_field_lookup.
  destruct (decide (u = k)) as [->|Hne].
  - rewrite (bool_decide_eq_true_2 (counter_path k ∈ counter_path k :: _))
      by constructor.
    case_bool_decide; [by rewrite max_read_idemp|done].
  - assert (counter_path u ≠ counter_path k) by (by intros ?%counter_path_inj).
    rewrite (bool_decide_ext (counter_path u ∈ counter_path k :: fs.*1)
               (counter_path u ∈ fs.*1)); [done|set_solver].
Qed.

(** The document the helper builds with [forEach]. *)
Lemma fields_set_max_fields n fs k :
  max_fields n fs → max_fields n (fields_set fs (counter_path k) (JsNum n)).
Proof.
  induction 1 as [|[k' v] fs Hkv Hfs IH]; cbn [fields_set].
  - repeat constructor. by exists k.
  - case_decide; constructor; try done. by exists k.
Qed.

Lemma fields_set_keys fs k v x :
  x ∈ (fields_set fs k v).*1 ↔ x = k ∨ x ∈ fs.*1.
Proof.
  induction fs as [|[k' v'] fs IH]; cbn [fields_set fmap list_fmap].
  - set_solver.
  - case_decide; subst; cbn [fmap list_fmap fst]; rewrite ?elem_of_cons; [tauto|].
    rewrite IH. tauto.
Qed.

Lemma helper_document n (userIds : list JsVal) : ∀ fs, max_fields n fs →
  ∃ fs', foldl (λ o userId, js_set o (counter_path (js_String userId)) (JsNum n))
               (JsObject fs) userIds = JsObject fs'
         ∧ max_fields n fs'
         ∧ ∀ u, counter_path u ∈ fs'.*1 ↔
                 u ∈ js_String <$> userIds ∨ counter_path u ∈ fs.*1.
Proof.
  induction userIds as [|x l IH]; intros fs Hfs; cbn [foldl js_set].
  - exists fs. set_solver.
  - destruct (IH _ (fields_set_max_fields n fs (js_String x) Hfs))
      as (fs' & -> & Hfs' & Hkeys).
    exists fs'. split_and!; [done..|]. intros u. rewrite Hkeys, fields_set_keys.
    cbn [fmap list_fmap]. rewrite elem_of_cons.
    split; [intros [?|[?%counter_path_inj|?]]|intros [[->|?]|?]]; tauto.
Qed.
(** ** Running the store primitives *)

Lemma healthy_S n w :
  healthy (S n) w → hd false (faults w) = false ∧ healthy n (tick w).
Proof.
  unfold healthy. cbn [tick faults]. destruct (faults w) as [|[] rest]; cbn.
  - intros _. split; [done|]. rewrite take_nil. by intros ?%elem_of_nil.
  - intros H. destruct H. by left.
  - intros H. split; [done|]. intros H'. apply H. by right.
Qed.

Lemma store_access_ok {A} (body : St A) w :
  hd false (faults w) = false →
  store_access body w = (inr (body (tick w)).1, (body (tick w)).2).
Proof.
  unfold store_access. destruct (faults w) as [|[] rest]; cbn; try done;
    by destruct (body _).
Qed.

Lemma store_access_fault {A} (body : St A) w :
  hd false (faults w) = true → store_access body w = (inl StoreError, tick w).
Proof. unfold store_access. by destruct (faults w) as [|[] rest]. Qed.

Lemma findByIdAndUpdate_ok id update new_ w :
  hd false (faults w) = false →
  Conversation_findByIdAndUpdate id update new_ w =
  match conversations w !! id with
  | None => (inr None, tick w)
  | Some c =>
      (inr (Some (if new_ then apply_update update c else c)),
       with_conversations (insert id (apply_update update c)) (tick w))
  end.
Proof.
  intros Hf. unfold Conversation_findByIdAndUpdate.
  rewrite store_access_ok by done. cbn [tick conversations].
  by destruct (conversations w !! id).
Qed.

Lemma apply_update_max op c :
  apply_update (JsObject [("$max", op)]) c = apply_max op c.
Proof. reflexivity. Qed.

(** The helper is one [$max] update of the conversation it was handed. *)
Lemma helper_eq userIds c0 :
  ∃ fs, max_fields (numOfMessage c0) fs
        ∧ (∀ u, counter_path u ∈ fs.*1 ↔ u ∈ user_keys userIds)
        ∧ makeAllMessageReadedForAnUserHelper userIds (Some c0) =
          (r ← Conversation_findByIdAndUpdate (c_id c0)
                 (JsObject [("$max", JsObject fs)]) false;
           callback r).
Proof.
  unfold makeAllMessageReadedForAnUserHelper.
  destruct (helper_document (numOfMessage c0)
              (match userIds with JsArray l => l | _ => [userIds] end) [])
    as (fs & Hfs & Hmax & Hkeys); [constructor|].
  exists fs. split; [done|]. split.
  - intros u. rewrite Hkeys. unfold user_keys. destruct userIds; set_solver.
  - by rewrite Hfs.
Qed.

Lemma apply_max_lookup n fs c u :
  max_fields n fs →
  numOfReadedMessage (apply_max (JsObject fs) c) !! u =
  if bool_decide (counter_path u ∈ fs.*1)
  then Some (max_read (numOfReadedMessage c !! u) n)
  else numOfReadedMessage c !! u.
Proof. intros H. cbn. by apply foldl_max_field. Qed.
(** ** The sample world *)

Lemma sample_world_wf : store_wf sample_world.
Proof.
  intros id c Hc.
  change (({[general := general_conversation]} : gmap string Conversation) !! id
          = Some c) in Hc.
  by apply lookup_singleton_Some in Hc as [<- <-].
Qed.

Lemma sample_world_read_invariant : read_invariant sample_world.
Proof.
  intros id c Hc u r Hr.
  change (({[general := general_conversation]} : gmap string Conversation) !! id
          = Some c) in Hc.
  apply lookup_singleton_Some in Hc as [<- <-].
  change (({[alice := 3]} : gmap string nat) !! u = Some r) in Hr.
  apply lookup_singleton_Some in Hr as [_ <-]. cbn. lia.
Qed.

Lemma sample_world_healthy n : healthy n sample_world.
Proof. unfold healthy. cbn. rewrite take_nil. apply not_elem_of_nil. Qed.
(** ** markAllMessagesAsRead *)

Lemma markAllMessagesAsRead_healthy
    (w : World) (userIds : JsVal) (conversationId : ObjectId) (c : Conversation) :
  store_wf w →
  healthy 2 w →
  conversations w !! conversationId = Some c →
  let run := makeAllMessageReadedForAnUser userIds conversationId w in
  run.1 = Returned (Some c) ∧
  ∃ c', conversations run.2 !! conversationId = Some c'
        ∧ numOfMessage c' = numOfMessage c
        ∧ (∀ u, u ∈ user_keys userIds →
             numOfReadedMessage c' !! u =
               Some (max_read (numOfReadedMessage c !! u) (numOfMessage c)))
        ∧ (∀ u, u ∉ user_keys userIds →
             numOfReadedMessage c' !! u = numOfReadedMessage c !! u).
Proof.
  intros Hwf [Hf1 [Hf2 _]%healthy_S]%healthy_S Hc run. subst run.
  unfold makeAllMessageReadedForAnUser, Conversation_findOne.
  unfold mbind, St_bind, st_bind. rewrite store_access_ok by done.
  cbn [fst snd tick conversations]. rewrite Hc.
  destruct (helper_eq userIds c) as (fs & Hmax & Hkeys & ->).
  unfold mbind, St_bind, st_bind. rewrite findByIdAndUpdate_ok by done.
  rewrite (Hwf _ _ Hc). cbn [tick conversations]. rewrite Hc.
  cbn [callback mret St_ret st_ret fst snd with_conversations conversations].
  split; [done|]. rewrite lookup_insert_eq. eexists; split; [done|].
  rewrite apply_update_max.
  assert (Hlk := λ u, apply_max_lookup _ _ c u Hmax).
  split; [done|]. split.
  - intros u Hu. rewrite Hlk, bool_decide_eq_true_2; [done|by apply Hkeys].
  - intros u Hu. rewrite Hlk, bool_decide_eq_false_2; [done|by rewrite Hkeys].
Qed.

(** When one of the two store accesses fails nothing is written. *)
Lemma markAllMessagesAsRead_faulty
    (w : World) (userIds : JsVal) (conversationId : ObjectId) (c : Conversation) :
  conversations w !! conversationId = Some c →
  ¬ healthy 2 w →
  let run := makeAllMessageReadedForAnUser userIds conversationId w in
  run.1 = Failed StoreError ∧ conversations run.2 = conversations w.
Proof.
  intros Hc Hh run. subst run. unfold healthy in Hh.
  destruct w as [convs msgs pub lg fl acc clk]. cbn [faults conversations] in Hh, Hc.
  unfold makeAllMessageReadedForAnUser, Conversation_findOne,
    makeAllMessageReadedForAnUserHelper, Conversation_findByIdAndUpdate,
    store_access, callback, throw.
  unfold mbind, mret, St_bind, St_ret, st_bind, st_ret.
  destruct fl as [|[] [|[] fl]]; cbn -[lookup insert apply_update] in *.
  - destruct Hh. apply not_elem_of_nil.
  - done.
  - done.
  - done.
  - destruct Hh. by intros [?|?%elem_of_nil]%elem_of_cons.
  - by rewrite Hc.
  - destruct Hh. by intros [?|[?|?%elem_of_nil]%elem_of_cons]%elem_of_cons.
Qed.
(** C5. After [markAllMessagesAsRead(userIds, conversation)] (the source's
    [makeAllMessageReadedForAnUser]) no read counter of the conversation
    is lower than before, whether the store answers or fails; when it
    answers, the counter of every user addressed, one user or an array of
    users, is [max(previous value, numOfMessage)] (a missing counter
    becomes [numOfMessage]) and the other counters are as before. *)
Theorem markAllMessagesAsRead_monotonic_max
    (w : World) (userIds : JsVal) (conversationId : ObjectId) (c : Conversation) :
  store_wf w →
  conversations w !! conversationId = Some c →
  let run := makeAllMessageReadedForAnUser userIds conversationId w in
  (∃ c', conversations run.2 !! conversationId = Some c'
         ∧ numOfMessage c' = numOfMessage c
         ∧ ∀ u r, numOfReadedMessage c !! u = Some r →
                  ∃ r', numOfReadedMessage c' !! u = Some r' ∧ r ≤ r')
  ∧ (healthy 2 w →
     run.1 = Returned (Some c)
     ∧ ∃ c', conversations run.2 !! conversationId = Some c'
             ∧ (∀ u, u ∈ user_keys userIds →
                  numOfReadedMessage c' !! u =
                    Some (max_read (numOfReadedMessage c !! u) (numOfMessage c)))
             ∧ (∀ u, u ∉ user_keys userIds →
                  numOfReadedMessage c' !! u = numOfReadedMessage c !! u)).
Proof.
  intros Hwf Hc run. split.
  - destruct (decide (healthy 2 w)) as [Hh|Hh].
    + destruct (markAllMessagesAsRead_healthy w userIds conversationId c Hwf Hh Hc)
        as (_ & c' & Hc' & Hn & Hin & Hout).
      exists c'. split_and!; [done..|]. intros u r Hr.
      destruct (decide (u ∈ user_keys userIds)) as [Hu|Hu].
      * rewrite (Hin u Hu), Hr. eexists; split; [done|]. cbn. lia.
      * rewrite (Hout u Hu). by exists r.
    + destruct (markAllMessagesAsRead_faulty w userIds conversationId c Hc Hh)
        as [_ E].
      exists c. subst run. rewrite E. split_and!; [done..|]. by eauto.
  - intros Hh.
    destruct (markAllMessagesAsRead_healthy w userIds conversationId c Hwf Hh Hc)
      as (Hret & c' & Hc' & Hn & Hin & Hout).
    split; [done|]. by exists c'.
Qed.

Lemma markAllMessagesAsRead_monotonic_max_witness :
  let run := makeAllMessageReadedForAnUser (JsArray [JsStr alice; JsStr bob])
               general sample_world in
  (∃ c', conversations run.2 !! general = Some c'
         ∧ numOfMessage c' = numOfMessage general_conversation
         ∧ ∀ u r, numOfReadedMessage general_conversation !! u = Some r →
                  ∃ r', numOfReadedMessage c' !! u = Some r' ∧ r ≤ r')
  ∧ run.1 = Returned (Some general_conversation)
  ∧ ∃ c', conversations run.2 !! general = Some c'
          ∧ (∀ u, u ∈ user_keys (JsArray [JsStr alice; JsStr bob]) →
               numOfReadedMessage c' !! u =
                 Some (max_read (numOfReadedMessage general_conversation !! u)
                                (numOfMessage general_conversation)))
          ∧ (∀ u, u ∉ user_keys (JsArray [JsStr alice; JsStr bob]) →
               numOfReadedMessage c' !! u
               = numOfReadedMessage general_conversation !! u).
Proof.
  destruct (markAllMessagesAsRead_monotonic_max sample_world
              (JsArray [JsStr alice; JsStr bob]) general general_conversation
              sample_world_wf eq_refl) as [Hall Hok].
  split; [exact Hall|exact (Hok (sample_world_healthy 2))].
Defined.

(** On the sample: [alice] goes from 3 to 5, [bob], who had no counter,
    gets 5. *)
Example markAllMessagesAsRead_sample :
  let run := makeAllMessageReadedForAnUser (JsArray [JsStr alice; JsStr bob])
               general sample_world in
  ∃ c', conversations run.2 !! general = Some c'
        ∧ numOfReadedMessage general_conversation !! alice = Some 3
        ∧ numOfReadedMessage general_conversation !! bob = None
        ∧ numOfReadedMessage c' !! alice = Some 5
        ∧ numOfReadedMessage c' !! bob = Some 5.
Proof. vm_compute. eexists. repeat split. Qed.

(** ** Update operators and the read-counter invariant *)

Lemma apply_set_field_proj c kv :
  c_id (apply_set_field c kv) = c_id c
  ∧ numOfMessage (apply_set_field c kv) = numOfMessage c
  ∧ numOfReadedMessage (apply_set_field c kv) = numOfReadedMessage c.
Proof.
  destruct kv as [k v]. unfold apply_set_field.
  repeat case_bool_decide; try done. by destruct v.
Qed.

Lemma apply_set_proj op c :
  c_id (apply_set op c) = c_id c
  ∧ numOfMessage (apply_set op c) = numOfMessage c
  ∧ numOfReadedMessage (apply_set op c) = numOfReadedMessage c.
Proof.
  destruct op as [| | | | | |fs]; try done. cbn [apply_set].
  revert c. induction fs as [|kv fs IH]; intros c; [done|].
  cbn [foldl]. destruct (IH (apply_set_field c kv)) as (-> & -> & ->).
  apply apply_set_field_proj.
Qed.

Lemma apply_inc_proj op c :
  c_id (apply_inc op c) = c_id c
  ∧ numOfMessage c ≤ numOfMessage (apply_inc op c)
  ∧ numOfReadedMessage (apply_inc op c) = numOfReadedMessage c.
Proof.
  unfold apply_inc. destruct (js_get op "numOfMessage"); cbn; split_and!; done || lia.
Qed.

Lemma foldl_max_field_bounded n fs : ∀ m : gmap string nat,
  Forall (λ kv : string * JsVal, ∀ r, kv.2 = JsNum r → r ≤ n) fs →
  (∀ u r, m !! u = Some r → r ≤ n) →
  ∀ u r, foldl max_field m fs !! u = Some r → r ≤ n.
Proof.
  induction fs as [|[k v] fs IH]; intros m Hfs Hm; [done|].
  inv Hfs. cbn [foldl]. apply IH; [done|].
  intros u r. unfold max_field. cbn [fst snd].
  destruct (counter_key k) as [key|]; [|by apply Hm].
  destruct v as [| | |x| | |]; try by apply Hm.
  assert (x ≤ n) by auto.
  destruct (m !! key) as [r0|] eqn:Hkey; [destruct (Nat.ltb r0 x)|];
    rewrite ?lookup_insert; try case_decide; try (by apply Hm);
    intros [= <-]; done.
Qed.

Lemma apply_max_proj op c :
  c_id (apply_max op c) = c_id c ∧ numOfMessage (apply_max op c) = numOfMessage c.
Proof. by destruct op. Qed.

Lemma apply_max_bounded op c :
  max_le (numOfMessage c) op → counters_bounded c → counters_bounded (apply_max op c).
Proof.
  destruct op as [| | | | | |fs]; try done. intros Hle Hc u r. cbn.
  by apply foldl_max_field_bounded.
Qed.

Lemma foldl_unset_field_lookup fs : ∀ (m : gmap string nat) u r,
  foldl unset_field m fs !! u = Some r → m !! u = Some r.
Proof.
  induction fs as [|kv fs IH]; intros m u r; [done|].
  cbn [foldl]. intros H%IH. unfold unset_field in H.
  destruct (counter_key kv.1); [|done].
  by apply lookup_delete_Some in H as [_ ?].
Qed.

Lemma apply_unset_proj op c :
  c_id (apply_unset op c) = c_id c ∧ numOfMessage (apply_unset op c) = numOfMessage c.
Proof. by destruct op. Qed.

Lemma apply_unset_bounded op c : counters_bounded c → counters_bounded (apply_unset op c).
Proof.
  destruct op as [| | | | | |fs]; try done. intros Hc u r. cbn.
  intros H%foldl_unset_field_lookup. by eapply Hc.
Qed.

Lemma apply_addToSet_proj op c :
  c_id (apply_addToSet op c) = c_id c
  ∧ numOfMessage (apply_addToSet op c) = numOfMessage c
  ∧ numOfReadedMessage (apply_addToSet op c) = numOfReadedMessage c.
Proof. unfold apply_addToSet. by destruct (js_get op "members"). Qed.

Lemma apply_pullAll_proj op c :
  c_id (apply_pullAll op c) = c_id c
  ∧ numOfMessage (apply_pullAll op c) = numOfMessage c
  ∧ numOfReadedMessage (apply_pullAll op c) = numOfReadedMessage c.
Proof. unfold apply_pullAll. by destruct (js_get op "members"). Qed.

Lemma apply_pull_proj op c :
  c_id (apply_pull op c) = c_id c
  ∧ numOfMessage (apply_pull op c) = numOfMessage c
  ∧ numOfReadedMessage (apply_pull op c) = numOfReadedMessage c.
Proof. unfold apply_pull. by destruct (js_get op "members"). Qed.

(** One update keeps the identifier, never lowers the message count, and
    keeps the counters bounded when its [$max] part is. *)
Lemma apply_update_sound update c :
  max_le (numOfMessage c) (js_get update "$max") →
  counters_bounded c →
  c_id (apply_update update c) = c_id c
  ∧ numOfMessage c ≤ numOfMessage (apply_update update c)
  ∧ counters_bounded (apply_update update c).
Proof.
  intros Hle Hc. unfold apply_update.
  set (c1 := apply_set _ c). set (c2 := apply_inc _ c1). set (c3 := apply_max _ c2).
  set (c4 := apply_addToSet _ c3). set (c5 := apply_pullAll _ c4).
  set (c6 := apply_pull _ c5).
  destruct (apply_set_proj (js_get update "$set") c) as (Hi1 & Hn1 & Hr1).
  destruct (apply_inc_proj (js_get update "$inc") c1) as (Hi2 & Hn2 & Hr2).
  destruct (apply_max_proj (js_get update "$max") c2) as (Hi3 & Hn3).
  destruct (apply_addToSet_proj (js_get update "$addToSet") c3) as (Hi4 & Hn4 & Hr4).
  destruct (apply_pullAll_proj (js_get update "$pullAll") c4) as (Hi5 & Hn5 & Hr5).
  destruct (apply_pull_proj (js_get update "$pull") c5) as (Hi6 & Hn6 & Hr6).
  destruct (apply_unset_proj (js_get update "$unset") c6) as (Hi7 & Hn7).
  fold c1 in Hi1, Hn1, Hr1. fold c2 in Hi2, Hn2, Hr2. fold c3 in Hi3, Hn3.
  fold c4 in Hi4, Hn4, Hr4. fold c5 in Hi5, Hn5, Hr5. fold c6 in Hi6, Hn6, Hr6.
  split; [congruence|]. split; [lia|].
  assert (counters_bounded c2) as Hc2.
  { intros u r. rewrite Hr2, Hr1. intros ?%Hc. lia. }
  assert (counters_bounded c3) as Hc3.
  { apply apply_max_bounded; [|done].
    destruct (js_get update "$max"); try done. cbn in *.
    eapply Forall_impl; [done|]. cbn. intros kv H r Hr. specialize (H r Hr). lia. }
  apply apply_unset_bounded. intros u r. rewrite Hr6, Hr5, Hr4. intros ?%Hc3. lia.
Qed.
(** ** Hoare rules for the state monad *)

Lemma triple_bind {A B} (P : World → Prop) (m : St A) (Q : A → World → Prop)
    (k : A → St B) (R : B → World → Prop) :
  triple P m Q → (∀ a, triple (Q a) (k a) R) → triple P (m ≫= k) R.
Proof.
  intros Hm Hk w Hw. unfold mbind, St_bind, st_bind.
  specialize (Hm w Hw). destruct (m w) as [a w']. by apply Hk.
Qed.

Lemma triple_ret {A} (a : A) (P : World → Prop) (Q : A → World → Prop) :
  (∀ w, P w → Q a w) → triple P (mret a) Q.
Proof. intros H w Hw. by apply H. Qed.

Lemma triple_conseq {A} (P P' : World → Prop) (m : St A) (Q Q' : A → World → Prop) :
  triple P' m Q' → (∀ w, P w → P' w) → (∀ a w, Q' a w → Q a w) → triple P m Q.
Proof. intros Hm HP HQ w Hw. apply HQ, Hm, HP, Hw. Qed.


Lemma inv_convs_only : convs_only inv.
Proof.
  intros w w' E [Hwf Hr]. unfold inv, store_wf, read_invariant. by rewrite E.
Qed.

Lemma snapshot_convs_only c0 : convs_only (snapshot c0).
Proof. intros w w' E. unfold snapshot. by rewrite E. Qed.

Lemma and_convs_only P Q : convs_only P → convs_only Q → convs_only (λ w, P w ∧ Q w).
Proof. intros HP HQ w w' E [HPw HQw]. split; [exact (HP _ _ E HPw)|exact (HQ _ _ E HQw)]. Qed.

Lemma True_convs_only : convs_only (λ _, True).
Proof. done. Qed.

(** Steps that leave the conversations alone. *)
Lemma triple_frame {A} (P : World → Prop) (m : St A) :
  convs_only P → (∀ w, conversations (m w).2 = conversations w) →
  triple P m (λ _ w, P w).
Proof. intros HP Hm w Hw. exact (HP w _ (Hm w) Hw). Qed.

Lemma store_access_convs {A} (body : St A) w :
  conversations (body (tick w)).2 = conversations w →
  conversations (store_access body w).2 = conversations w.
Proof.
  unfold store_access. destruct (faults w) as [|[] rest]; try done;
    by destruct (body _).
Qed.

Lemma publish_convs t p w : conversations (publish t p w).2 = conversations w.
Proof. done. Qed.
Lemma logger_error_convs l w : conversations (logger_error l w).2 = conversations w.
Proof. done. Qed.
Lemma ChatMessage_save_convs m w :
  conversations (ChatMessage_save m w).2 = conversations w.
Proof. by apply store_access_convs. Qed.
Lemma ChatMessage_populate_convs m w :
  conversations (ChatMessage_populate m w).2 = conversations w.
Proof. by apply store_access_convs. Qed.
Lemma Conversation_populate_convs c w :
  conversations (Conversation_populate c w).2 = conversations w.
Proof. by apply store_access_convs. Qed.
Lemma Conversation_findOne_convs id w :
  conversations (Conversation_findOne id w).2 = conversations w.
Proof. by apply store_access_convs. Qed.

Lemma Conversation_populate_result c w :
  (Conversation_populate c w).1 = inl StoreError ∨ (Conversation_populate c w).1 = inr c.
Proof.
  unfold Conversation_populate, store_access.
  destruct (faults w) as [|[] rest]; auto.
Qed.


Lemma update_at_inv id update c w :
  inv w → conversations w !! id = Some c →
  max_le (numOfMessage c) (js_get update "$max") →
  let w' := with_conversations (insert id (apply_update update c)) (tick w) in
  inv w' ∧ snapshot c w' ∧ snapshot (apply_update update c) w'.
Proof.
  intros [Hwf Hr] Hc Hle w'.
  destruct (apply_update_sound update c Hle (Hr _ _ Hc)) as (Hid & Hn & Hb).
  pose proof (Hwf _ _ Hc) as Hcid.
  assert (conversations w' !! id = Some (apply_update update c)) as Hnew
    by apply lookup_insert_eq.
  split; [split|split].
  - intros id' c'. subst w'. cbn [with_conversations conversations tick].
    rewrite lookup_insert. case_decide; [|by apply Hwf].
    intros [= <-]. congruence.
  - intros id' c'. subst w'. cbn [with_conversations conversations tick].
    rewrite lookup_insert. case_decide; [|by apply Hr].
    by intros [= <-].
  - exists (apply_update update c). by rewrite Hcid.
  - exists (apply_update update c). by rewrite Hid, Hcid.
Qed.

Lemma findByIdAndUpdate_triple id update new_ :
  triple (λ w, inv w ∧ ∀ c, conversations w !! id = Some c →
                            max_le (numOfMessage c) (js_get update "$max"))
         (Conversation_findByIdAndUpdate id update new_)
         (λ r w, inv w ∧ snapshot_result r w).
Proof.
  intros w [Hinv Hle].
  assert (inv (tick w)) as Htick by (by eapply inv_convs_only).
  destruct (decide (hd false (faults w) = true)) as [Hf|Hf%not_true_is_false].
  - unfold Conversation_findByIdAndUpdate. by rewrite store_access_fault.
  - rewrite findByIdAndUpdate_ok by done.
    destruct (conversations w !! id) as [c|] eqn:Hc; [|done].
    destruct (update_at_inv id update c w Hinv Hc (Hle _ eq_refl)) as (? & ? & ?).
    cbn [fst snd snapshot_result]. by destruct new_.
Qed.

Lemma findOne_triple id :
  triple inv (Conversation_findOne id) (λ r w, inv w ∧ snapshot_result r w).
Proof.
  intros w [Hwf Hr]. unfold Conversation_findOne, store_access.
  destruct (faults w) as [|[] rest]; cbn [tick conversations fst snd];
    try (by split; [split|]);
    (split; [by split|]); cbn [snapshot_result];
    (destruct (conversations w !! id) as [c|] eqn:Hc; [|done]);
    exists c; by rewrite (Hwf _ _ Hc).
Qed.

Lemma helper_triple userIds c0 :
  triple (λ w, inv w ∧ match c0 with Some c => snapshot c w | None => True end)
         (makeAllMessageReadedForAnUserHelper userIds c0)
         (λ _ w, inv w).
Proof.
  destruct c0 as [c|]; [|by intros w [??]].
  destruct (helper_eq userIds c) as (fs & Hmax & _ & ->).
  eapply triple_bind.
  - eapply triple_conseq; [apply findByIdAndUpdate_triple| |intros a w H; exact H].
    intros w [Hinv (c1 & Hc1 & Hle)]. split; [done|].
    intros c' Hc'. rewrite Hc1 in Hc'. injection Hc' as <-.
    cbn. eapply Forall_impl; [exact Hmax|].
    intros kv [k ->] r [= <-]. done.
  - intros r. apply triple_ret. by intros w [??].
Qed.
(** ** Property access on update documents *)

Lemma fields_get_set_ne fs k v k' :
  k ≠ k' → fields_get (fields_set fs k v) k' = fields_get fs k'.
Proof.
  intros Hne. induction fs as [|[k0 v0] fs IH]; cbn [fields_set fields_get].
  - by rewrite decide_False.
  - destruct (decide (k0 = k)) as [->|]; cbn [fields_get].
    + by rewrite !decide_False.
    + by rewrite IH.
Qed.

Lemma js_get_set_ne o k v k' : k ≠ k' → js_get (js_set o k v) k' = js_get o k'.
Proof. intros Hne. destruct o; try done. by apply fields_get_set_ne. Qed.

Lemma js_get_delete_ne o k k' : k ≠ k' → js_get (js_delete o k) k' = js_get o k'.
Proof.
  intros Hne. destruct o as [| | | | | |fs]; try done. cbn [js_delete js_get].
  induction fs as [|[k0 v0] fs IH]; [done|].
  rewrite filter_cons. cbn [fst fields_get].
  destruct (decide (k0 ≠ k)) as [?|Heq%dec_stable]; cbn [fields_get].
  - by rewrite IH.
  - subst k0. by rewrite decide_False.
Qed.

Lemma updateConversation_modifications_no_max modifications update :
  updateConversation_modifications modifications = inr update →
  js_get update "$max" = JsUndefined.
Proof.
  unfold updateConversation_modifications. intros H.
  repeat case_match; simplify_eq; by rewrite ?js_get_set_ne.
Qed.

(** ** The four operations keep [inv] *)

Lemma triple_frame_result {A} (P : World → Prop) (m : St A) (R : A → Prop) :
  convs_only P → (∀ w, conversations (m w).2 = conversations w) →
  (∀ w, R (m w).1) → triple P m (λ r w, P w ∧ R r).
Proof. intros HP Hm HR w Hw. split; [exact (HP w _ (Hm w) Hw)|apply HR]. Qed.

Lemma triple_throw {A} (e : JsError) (P : World → Prop) (Q : Outcome A → World → Prop) :
  (∀ w, P w → Q (Thrown e) w) → triple P (throw e) Q.
Proof. intros H w Hw. by apply H. Qed.

Lemma triple_callback {A} (r : JsError + A) (P : World → Prop)
    (Q : Outcome A → World → Prop) :
  (∀ o w, P w → Q o w) → triple P (callback r) Q.
Proof. intros H w Hw. by apply H. Qed.

Lemma makeAllMessageReadedForAnUser_inv userId conversationId :
  triple inv (makeAllMessageReadedForAnUser userId conversationId) (λ _ w, inv w).
Proof.
  unfold makeAllMessageReadedForAnUser. eapply triple_bind; [apply findOne_triple|].
  intros [err|conversation].
  - apply triple_callback. by intros ?? [??].
  - eapply triple_conseq; [apply helper_triple| |done].
    intros w [? Hs]. split; [done|]. by destruct conversation.
Qed.

Lemma createMessage_inv message :
  triple inv (createMessage message) (λ _ w, inv w).
Proof.
  unfold createMessage. destruct (parseMention message) as [e|message'].
  { by apply triple_throw. }
  eapply triple_bind; [apply (triple_frame inv); [apply inv_convs_only|done]|].
  intros chatMessage.
  eapply triple_bind;
    [apply (triple_frame inv); [apply inv_convs_only|apply ChatMessage_save_convs]|].
  intros [err|saved]. { by apply triple_callback. }
  assert (∀ conversation k,
            (∀ marked, triple inv (k marked) (λ _ w, inv w)) →
            triple (λ w, inv w ∧ match conversation with
                                 | Some c => snapshot c w
                                 | None => True
                                 end)
                   (makeAllMessageReadedForAnUserHelper (JsStr (creator saved))
                      conversation ≫= k)
                   (λ (_ : Outcome ChatMessage) w, inv w)) as Hrest.
  { intros conversation k Hk. eapply triple_bind; [apply helper_triple|done]. }
  assert (∀ marked : Outcome (option Conversation),
            triple inv
              match marked with
              | Returned _ => populated ← ChatMessage_populate saved; callback populated
              | Failed err => callback (inl err)
              | Thrown e => throw e
              end (λ (_ : Outcome ChatMessage) w, inv w)) as Hk.
  { intros [result|err|e].
    - eapply triple_bind;
        [apply (triple_frame inv);
         [apply inv_convs_only|apply ChatMessage_populate_convs]|].
      intros populated. by apply triple_callback.
    - by apply triple_callback.
    - by apply triple_throw. }
  eapply triple_bind.
  { eapply triple_conseq; [apply findByIdAndUpdate_triple| |intros a w H; exact H].
    intros w Hinv. split; [done|]. by intros. }
  intros [err|conversation].
  - eapply triple_bind; [|intros conversation; by apply Hrest].
    eapply triple_bind.
    + apply (triple_frame (λ w, inv w ∧ snapshot_result (inl err) w));
        [apply and_convs_only; [apply inv_convs_only|apply True_convs_only]|done].
    + intros ?. apply triple_ret. by intros w [??].
  - eapply triple_bind; [|intros conversation'; by apply Hrest].
    apply triple_ret. intros w [? Hs]. split; [done|]. by destruct conversation.
Qed.

Lemma addMemberToConversation_inv conversationId userId :
  triple inv (addMemberToConversation conversationId userId) (λ _ w, inv w).
Proof.
  unfold addMemberToConversation. destruct (ensureObjectId userId) as [e|userObjectId].
  { by apply triple_throw. }
  eapply triple_bind.
  { eapply triple_conseq; [apply findByIdAndUpdate_triple| |intros a w H; exact H].
    intros w Hinv. split; [done|]. by intros. }
  intros [err|conversation]. { apply triple_callback. by intros ?? [??]. }
  eapply triple_bind.
  { eapply triple_conseq; [apply helper_triple| |intros a w H; exact H].
    intros w [? Hs]. split; [done|]. by destruct conversation. }
  intros marked.
  assert (triple inv (publish channelAddMember (PDoc conversation);; mret marked)
            (λ _ w, inv w)) as Hpub.
  { eapply triple_bind; [apply (triple_frame inv); [apply inv_convs_only|done]|].
    intros ?. by apply triple_ret. }
  destruct marked; [done|done|by apply triple_throw].
Qed.

Lemma updateConversation_done_inv modifications mongoModifications next r :
  triple (λ w, inv w ∧ snapshot_result r w)
         (updateConversation_done modifications mongoModifications next r)
         (λ _ w, inv w).
Proof.
  unfold updateConversation_done. destruct r as [err|[conversation|]].
  - apply triple_callback. by intros ?? [??].
  - eapply triple_bind.
    + apply (triple_frame_result (λ w, inv w ∧ snapshot conversation w)
               (Conversation_populate conversation)
               (λ p, p = inl StoreError ∨ p = inr conversation)).
      * apply and_convs_only; [apply inv_convs_only|apply snapshot_convs_only].
      * apply Conversation_populate_convs.
      * apply Conversation_populate_result.
    + intros p. destruct p as [err|conversation'].
      * apply triple_callback. by intros ?? [[??]?].
      * eapply triple_bind.
        -- apply (triple_frame (λ w, (inv w ∧ snapshot conversation w)
                                     ∧ (inr conversation' = inl StoreError
                                        ∨ @inr JsError _ conversation' = inr conversation)));
             [|done].
           apply and_convs_only;
             [apply and_convs_only; [apply inv_convs_only|apply snapshot_convs_only]|].
           by intros ???.
        -- intros ?. destruct (nonempty (newMembers modifications)).
           ++ eapply triple_conseq; [apply helper_triple| |done].
              intros w [[? ?] [?|?]]; by simplify_eq.
           ++ apply triple_callback. by intros ?? [[??]?].
  - apply triple_throw. by intros ? [??].
Qed.

Lemma findOneAndUpdate_no_max_triple id update :
  js_get update "$max" = JsUndefined →
  triple inv (Conversation_findOneAndUpdate id update)
         (λ r w, inv w ∧ snapshot_result r w).
Proof.
  intros Hmax. unfold Conversation_findOneAndUpdate.
  eapply triple_conseq; [apply findByIdAndUpdate_triple| |intros a w H; exact H].
  intros w Hinv. split; [done|]. intros c _. by rewrite Hmax.
Qed.

Lemma updateConversation_inv conversationId modifications :
  triple inv (updateConversation conversationId modifications) (λ _ w, inv w).
Proof.
  unfold updateConversation.
  destruct (updateConversation_modifications modifications) as [e|update] eqn:Hupd.
  { by apply triple_throw. }
  apply updateConversation_modifications_no_max in Hupd.
  destruct (truthy (js_get update "$addToSet") && truthy (js_get update "$pullAll")).
  - cbn [truthy].
    eapply triple_bind.
    { apply findOneAndUpdate_no_max_triple.
      case_match; by rewrite ?js_get_delete_ne. }
    intros r. eapply triple_bind.
    { eapply triple_conseq;
        [by apply (findOneAndUpdate_no_max_triple conversationId
                     (JsObject [("$addToSet", js_get update "$addToSet")]))
        |by intros ? [??]|intros a w H; exact H]. }
    intros r2. apply updateConversation_done_inv.
  - cbn [truthy].
    eapply triple_bind.
    { apply findOneAndUpdate_no_max_triple.
      case_match; by rewrite ?js_get_delete_ne. }
    intros r. apply updateConversation_done_inv.
Qed.
(** ** The read-counter invariant *)

Lemma read_invariant_members (w : World) : read_invariant w → member_invariant w.
Proof. intros H id c Hc u r _. by apply (H id c Hc). Qed.

(** C7 (counterexample).  Restricted to the members, the invariant is not
    kept.  In [stale_world] the conversation has no member, so the
    invariant holds for every member; it keeps a counter of 5 for [bob]
    and has no message.  [addMemberToConversation] makes [bob] a member,
    and [$max] leaves his counter at 5, above the message count 0. *)
Lemma member_invariant_not_preserved :
  store_wf stale_world
  ∧ member_invariant stale_world
  ∧ ¬ member_invariant (addMemberToConversation general (IdObj bob) stale_world).2.
Proof.
  split_and!.
  - intros id c Hc.
    change (({[general := stale_conversation]} : gmap string Conversation) !! id
            = Some c) in Hc.
    by apply lookup_singleton_Some in Hc as [<- <-].
  - intros id c Hc u r Hu.
    change (({[general := stale_conversation]} : gmap string Conversation) !! id
            = Some c) in Hc.
    apply lookup_singleton_Some in Hc as [_ <-]. by apply elem_of_nil in Hu.
  - intros H.
    assert (conversations (addMemberToConversation general (IdObj bob) stale_world).2
              !! general = Some (set_members [bob] stale_conversation)) as Hc
      by (vm_compute; reflexivity).
    assert (5 ≤ 0) as Hle; [|lia].
    apply (H _ _ Hc bob 5); [by left|by vm_compute].
Qed.

(** C7 (amended).  When every read counter a conversation records, of a
    member or not, is at most its message count, this is still so after
    [createMessage], [markAllMessagesAsRead], [addMemberToConversation]
    and [updateConversation], with any arguments, any store failures and
    any outcome; in particular the invariant holds for every member. *)
Theorem read_invariant_preserved (w : World) :
  store_wf w →
  read_invariant w →
  let good w' := store_wf w' ∧ read_invariant w' ∧ member_invariant w' in
  good w
  ∧ (∀ message, good (createMessage message w).2)
  ∧ (∀ userIds conversationId,
       good (makeAllMessageReadedForAnUser userIds conversationId w).2)
  ∧ (∀ conversationId userId,
       good (addMemberToConversation conversationId userId w).2)
  ∧ (∀ conversationId modifications,
       good (updateConversation conversationId modifications w).2).
Proof.
  intros Hwf Hr good.
  assert (∀ w', inv w' → good w') as Hgood.
  { intros w' [??]. split_and!; [done..|by apply read_invariant_members]. }
  assert (inv w) as Hinv by done.
  split_and!.
  - by apply Hgood.
  - intros message. apply Hgood. by apply (createMessage_inv message w).
  - intros userIds conversationId. apply Hgood.
    by apply (makeAllMessageReadedForAnUser_inv userIds conversationId w).
  - intros conversationId userId. apply Hgood.
    by apply (addMemberToConversation_inv conversationId userId w).
  - intros conversationId modifications. apply Hgood.
    by apply (updateConversation_inv conversationId modifications w).
Qed.

Lemma read_invariant_preserved_witness :
  let good w' := store_wf w' ∧ read_invariant w' ∧ member_invariant w' in
  good sample_world
  ∧ (∀ message, good (createMessage message sample_world).2)
  ∧ (∀ userIds conversationId,
       good (makeAllMessageReadedForAnUser userIds conversationId sample_world).2)
  ∧ (∀ conversationId userId,
       good (addMemberToConversation conversationId userId sample_world).2)
  ∧ (∀ conversationId modifications,
       good (updateConversation conversationId modifications sample_world).2).
Proof.
  apply read_invariant_preserved.
  - apply sample_world_wf.
  - apply sample_world_read_invariant.
Defined.

(** ** createMessage *)

Ltac st_unfold :=
  unfold createMessage, makeAllMessageReadedForAnUserHelper, new_ChatMessage, Date_now,
    ChatMessage_save, ChatMessage_populate, Conversation_findByIdAndUpdate,
    store_access, callback, throw, logger_error;
  unfold mbind, mret, St_bind, St_ret, st_bind, st_ret.

Ltac st_step :=
  cbn -[lookup insert apply_update] in *; try done;
  match goal with
  | |- context [match ?fl with [] => _ | _ :: _ => _ end] =>
      is_var fl; destruct fl as [|[] fl]
  | |- context [match ?m !! ?k with Some _ => _ | None => _ end] =>
      destruct (m !! k) eqn:?
  end.

Lemma apply_update_summary v c :
  let c' := apply_update
              (JsObject [("$set", JsObject [("last_message", v)]);
                         ("$inc", JsObject [("numOfMessage", JsNum 1)])]) c in
  numOfMessage c' = numOfMessage c + 1 ∧ last_message c' = v.
Proof. done. Qed.

Lemma apply_update_max_keeps op c :
  let c' := apply_update (JsObject [("$max", op)]) c in
  numOfMessage c' = numOfMessage c ∧ last_message c' = last_message c
  ∧ c_members c' = c_members c.
Proof. by destruct op. Qed.

Lemma summary_after_marking (convs : gmap string Conversation) id c v op :
  convs !! id = Some c →
  let convs1 := <[id := apply_update
                          (JsObject [("$set", JsObject [("last_message", v)]);
                                     ("$inc", JsObject [("numOfMessage", JsNum 1)])]) c]>
                  convs in
  let convs2 := match convs1 !! c_id c with
                | Some c0 => <[c_id c := apply_update (JsObject [("$max", op)]) c0]> convs1
                | None => convs1
                end in
  ∃ c', convs2 !! id = Some c'
        ∧ numOfMessage c' = numOfMessage c + 1 ∧ last_message c' = v.
Proof.
  intros Hc convs1 convs2. subst convs2.
  destruct (decide (c_id c = id)) as [->|Hne].
  - subst convs1. rewrite lookup_insert_eq. rewrite lookup_insert_eq.
    eexists; split; [done|].
    destruct (apply_update_max_keeps op
      (apply_update (JsObject [("$set", JsObject [("last_message", v)]);
                               ("$inc", JsObject [("numOfMessage", JsNum 1)])]) c))
      as (-> & -> & _).
    apply apply_update_summary.
  - destruct (convs1 !! c_id c).
    + rewrite lookup_insert_ne by done. subst convs1. rewrite lookup_insert_eq.
      eexists; split; [done|]. apply apply_update_summary.
    + subst convs1. rewrite lookup_insert_eq.
      eexists; split; [done|]. apply apply_update_summary.
Qed.

Lemma createMessage_returned (message : MessageInput) (w : World)
    (m : ChatMessage) (w' : World) :
  createMessage message w = (Returned m, w') →
  ∃ c c',
    conversations w !! channel m = Some c
    ∧ conversations w' !! channel m = Some c'
    ∧ numOfMessage c' = numOfMessage c + 1
    ∧ last_message c' =
        JsObject [("text", JsStr (text m));
                  ("date", JsNum (timestamps_creation m));
                  ("creator", JsStr (creator m));
                  ("user_mentions", JsArray (JsStr <$> user_mentions m))]
    ∧ messages w' = messages w ++ [m].
Proof.
  unfold createMessage. destruct (parseMention message) as [e|message']; [done|].
  destruct w as [convs msgs pub lg fl acc clk].
  st_unfold. repeat st_step.
  all: cbn -[lookup insert apply_update].
  all: intros [= <- <-]; cbn -[lookup insert apply_update].
  all: match goal with
       | H : ?cv !! _ = Some ?c |- _ =>
           is_var cv; exists c;
           epose proof (summary_after_marking cv _ c _ _ H) as Hs; cbn zeta in Hs
       end.
  all: repeat match goal with
       | H : _ !! c_id _ = _ |- _ => erewrite H in Hs; clear H
       end.
  all: destruct Hs as (c' & Hc' & Hn & Hl).
  all: exists c'; split_and!; [done|exact Hc'|exact Hn|exact Hl|done].
  Unshelve. all: exact JsUndefined.
Qed.

(** With a text, an existing conversation and four successful store
    accesses, [createMessage] returns the message it has saved. *)
Lemma createMessage_succeeds (message : MessageInput) (text_ : string)
    (c : Conversation) (w : World) :
  i_text message = Some text_ →
  conversations w !! i_channel message = Some c →
  healthy 4 w →
  ∃ m, (createMessage message w).1 = Returned m
       ∧ channel m = i_channel message ∧ creator m = i_creator message
       ∧ text m = text_
       ∧ user_mentions m = mention_id <$> uniq (match_mentions text_)
       ∧ timestamps_creation m = default (clock w) (i_creation message).
Proof.
  intros Ht Hc Hh. unfold createMessage. rewrite (parseMention_eq _ _ Ht).
  destruct w as [convs msgs pub lg fl acc clk]. unfold healthy in Hh.
  cbn [conversations faults] in Hc, Hh.
  st_unfold. cbn -[lookup insert apply_update]. rewrite Ht.
  repeat (st_step; rewrite ?Hc, ?lookup_insert_eq).
  all: cbn -[lookup insert apply_update]; rewrite ?Hc, ?lookup_insert_eq.
  all: try (exfalso; apply Hh; by repeat constructor).
  all: try (eexists; split; [reflexivity|done]).
Qed.

(** When the message is saved and the update of the conversation then
    fails, the failure is logged and the message stays saved; nothing is
    written to the conversations, and reading the count of the missing
    document raises the [TypeError]. *)
Lemma createMessage_update_failure (message : MessageInput) (text_ : string)
    (w : World) (rest : list bool) :
  i_text message = Some text_ →
  faults w = false :: true :: rest →
  ∃ m, createMessage message w =
         (Thrown (TypeError "Cannot read property 'numOfMessage' of null"),
          {| conversations := conversations w;
             messages := messages w ++ [m];
             published := published w;
             logged := logged w ++ ["Can not update channel with last_update"];
             faults := rest;
             accesses := S (S (accesses w));
             clock := clock w |})
       ∧ channel m = i_channel message ∧ creator m = i_creator message
       ∧ text m = text_.
Proof.
  intros Ht Hf. unfold createMessage. rewrite (parseMention_eq _ _ Ht).
  destruct w as [convs msgs pub lg fl acc clk]. cbn [faults] in Hf. subst fl.
  st_unfold. cbn -[lookup insert apply_update]. rewrite Ht.
  eexists. split; [reflexivity|done].
Qed.
(** C3. A message that [createMessage] returns was created on an existing
    conversation, whose [numOfMessage] is one more afterwards and whose
    [last_message] is the summary of that message; such a return happens
    whenever the message has a text, the conversation exists and the store
    answers.  When the update of the conversation fails, the failure is
    logged and the message stays in the collection ([createMessage] then
    stops on the [TypeError] of the read-marking step). *)
Theorem createMessage_updates_summary (message : MessageInput) (w : World) :
  (∀ m w', createMessage message w = (Returned m, w') →
     ∃ c c',
       conversations w !! channel m = Some c
       ∧ conversations w' !! channel m = Some c'
       ∧ numOfMessage c' = numOfMessage c + 1
       ∧ last_message c' =
           JsObject [("text", JsStr (text m));
                     ("date", JsNum (timestamps_creation m));
                     ("creator", JsStr (creator m));
                     ("user_mentions", JsArray (JsStr <$> user_mentions m))]
       ∧ messages w' = messages w ++ [m])
  ∧ (∀ text_ c,
       i_text message = Some text_ →
       conversations w !! i_channel message = Some c →
       healthy 4 w →
       ∃ m, (createMessage message w).1 = Returned m
            ∧ channel m = i_channel message ∧ creator m = i_creator message
            ∧ text m = text_
            ∧ user_mentions m = mention_id <$> uniq (match_mentions text_)
            ∧ timestamps_creation m = default (clock w) (i_creation message))
  ∧ (∀ text_ rest,
       i_text message = Some text_ →
       faults w = false :: true :: rest →
       ∃ m, createMessage message w =
              (Thrown (TypeError "Cannot read property 'numOfMessage' of null"),
               {| conversations := conversations w;
                  messages := messages w ++ [m];
                  published := published w;
                  logged := logged w ++ ["Can not update channel with last_update"];
                  faults := rest;
                  accesses := S (S (accesses w));
                  clock := clock w |})
            ∧ channel m = i_channel message ∧ creator m = i_creator message
            ∧ text m = text_).
Proof.
  split_and!.
  - apply createMessage_returned.
  - intros text_ c. apply createMessage_succeeds.
  - intros text_ rest. apply createMessage_update_failure.
Qed.

Lemma createMessage_updates_summary_witness :
  (∃ c c',
     conversations sample_world !! channel hello_saved = Some c
     ∧ conversations (createMessage (sample_input "hello") sample_world).2
         !! channel hello_saved = Some c'
     ∧ numOfMessage c' = numOfMessage c + 1
     ∧ last_message c' =
         JsObject [("text", JsStr (text hello_saved));
                   ("date", JsNum (timestamps_creation hello_saved));
                   ("creator", JsStr (creator hello_saved));
                   ("user_mentions", JsArray (JsStr <$> user_mentions hello_saved))]
     ∧ messages (createMessage (sample_input "hello") sample_world).2
       = messages sample_world ++ [hello_saved])
  ∧ (∃ m, (createMessage (sample_input "hello") sample_world).1 = Returned m
          ∧ channel m = general ∧ creator m = alice ∧ text m = "hello"
          ∧ user_mentions m = mention_id <$> uniq (match_mentions "hello")
          ∧ timestamps_creation m = 100)
  ∧ (∃ m, createMessage (sample_input "hello") failing_world =
            (Thrown (TypeError "Cannot read property 'numOfMessage' of null"),
             {| conversations := conversations failing_world;
                messages := messages failing_world ++ [m];
                published := published failing_world;
                logged := logged failing_world
                          ++ ["Can not update channel with last_update"];
                faults := [];
                accesses := S (S (accesses failing_world));
                clock := clock failing_world |})
          ∧ channel m = general ∧ creator m = alice ∧ text m = "hello").
Proof.
  split_and!.
  - apply (proj1 (createMessage_updates_summary (sample_input "hello") sample_world)
             hello_saved).
    vm_compute. reflexivity.
  - apply (proj1 (proj2 (createMessage_updates_summary (sample_input "hello")
                           sample_world)) "hello" general_conversation).
    + reflexivity.
    + vm_compute. reflexivity.
    + apply sample_world_healthy.
  - apply (proj2 (proj2 (createMessage_updates_summary (sample_input "hello")
                           failing_world)) "hello" []); reflexivity.
Defined.
(** C10. On a text without any mention the match is [null]; [_.uniq]
    turns it into an empty array: [parseMention] returns normally with
    [user_mentions] empty, and [createMessage] goes on to save and return
    the message with no mentions. *)
Theorem parseMention_without_mention (message : MessageInput) (text_ : string) :
  i_text message = Some text_ →
  ¬ has_mention text_ →
  parseMention message = inr (with_user_mentions [] message)
  ∧ ∀ w c, conversations w !! i_channel message = Some c → healthy 4 w →
      ∃ m, (createMessage message w).1 = Returned m
           ∧ user_mentions m = [] ∧ text m = text_.
Proof.
  intros Ht Hno. split; [by apply (parseMention_no_mention _ text_)|].
  intros w c Hc Hh.
  destruct (createMessage_succeeds message text_ c w Ht Hc Hh)
    as (m & Hm & _ & _ & Htext & Hmentions & _).
  exists m. split_and!; [done| |done].
  by rewrite Hmentions, (match_mentions_none _ Hno).
Qed.

Lemma parseMention_without_mention_witness :
  parseMention (sample_input "hello @abc, see you")
    = inr (with_user_mentions [] (sample_input "hello @abc, see you"))
  ∧ ∃ m, (createMessage (sample_input "hello @abc, see you") sample_world).1
           = Returned m
         ∧ user_mentions m = [] ∧ text m = "hello @abc, see you".
Proof.
  destruct (parseMention_without_mention (sample_input "hello @abc, see you")
              "hello @abc, see you" eq_refl
              (no_mention_by_scan "hello @abc, see you" eq_refl)) as [Hparse Hcreate].
  split; [exact Hparse|].
  exact (Hcreate sample_world general_conversation eq_refl (sample_world_healthy 4)).
Defined.

(** ** updateConversation *)

Lemma apply_update_counters update c :
  js_get update "$max" = JsUndefined → js_get update "$unset" = JsUndefined →
  numOfReadedMessage (apply_update update c) = numOfReadedMessage c.
Proof.
  intros Hmax Hunset. unfold apply_update. rewrite Hmax, Hunset.
  cbn [apply_unset apply_max].
  destruct (apply_pull_proj (js_get update "$pull")
    (apply_pullAll (js_get update "$pullAll")
       (apply_addToSet (js_get update "$addToSet")
          (apply_inc (js_get update "$inc") (apply_set (js_get update "$set") c)))))
    as (_ & _ & ->).
  destruct (apply_pullAll_proj (js_get update "$pullAll")
       (apply_addToSet (js_get update "$addToSet")
          (apply_inc (js_get update "$inc") (apply_set (js_get update "$set") c))))
    as (_ & _ & ->).
  destruct (apply_addToSet_proj (js_get update "$addToSet")
          (apply_inc (js_get update "$inc") (apply_set (js_get update "$set") c)))
    as (_ & _ & ->).
  destruct (apply_inc_proj (js_get update "$inc") (apply_set (js_get update "$set") c))
    as (_ & _ & ->).
  by destruct (apply_set_proj (js_get update "$set") c) as (_ & _ & ->).
Qed.

Lemma findByIdAndUpdate_effect id update new_ w :
  let run := Conversation_findByIdAndUpdate id update new_ w in
  conversations run.2 = conversations w
  ∨ ∃ c, conversations w !! id = Some c
         ∧ conversations run.2 = <[id := apply_update update c]> (conversations w).
Proof.
  unfold Conversation_findByIdAndUpdate, store_access.
  destruct (faults w) as [|[] rest]; cbn [tick conversations fst snd]; auto;
    destruct (conversations w !! id) as [c|] eqn:Hc; cbn; eauto.
Qed.

Section counters_kept.
  Variable w0 : World.

Lemma counters_kept_convs_only : convs_only (counters_kept w0).
Proof. intros w w' E. unfold counters_kept. by rewrite E. Qed.

Lemma findByIdAndUpdate_counters_kept id update new_ :
  (∀ c u, u ≠ "undefined" →
     numOfReadedMessage (apply_update update c) !! u = numOfReadedMessage c !! u) →
  triple (counters_kept w0) (Conversation_findByIdAndUpdate id update new_)
         (λ _ w, counters_kept w0 w).
Proof.
  intros Hupd w Hw.
  destruct (findByIdAndUpdate_effect id update new_ w) as [E|(c & Hc & E)].
  - by eapply counters_kept_convs_only.
  - intros id' c'. rewrite E, lookup_insert. case_decide; [|by apply Hw].
    intros [= <-]. subst id'. destruct (Hw _ _ Hc) as (c0 & Hc0 & Hk).
    exists c0. split; [done|]. intros u Hu. by rewrite Hupd, Hk.
Qed.

Lemma helper_undefined_counters_kept conversation :
  triple (counters_kept w0)
         (makeAllMessageReadedForAnUserHelper JsUndefined conversation)
         (λ _ w, counters_kept w0 w).
Proof.
  destruct conversation as [c|]; [|by intros w ?].
  unfold makeAllMessageReadedForAnUserHelper.
  cbn [foldl js_set fields_set js_String].
  eapply triple_bind.
  - apply findByIdAndUpdate_counters_kept. intros c' u Hu.
    rewrite apply_update_max.
    rewrite (apply_max_lookup (numOfMessage c)); [|repeat constructor; by eexists].
    rewrite bool_decide_eq_false_2; [done|].
    cbn [fmap list_fmap fst]. by intros [?%counter_path_inj|?%elem_of_nil]%elem_of_cons.
  - intros r. apply triple_callback. by intros.
Qed.

Lemma updateConversation_modifications_each modifications update :
  updateConversation_modifications modifications = inr update →
  js_get (js_get update "$addToSet") "$each" = JsUndefined
  ∧ js_get update "$unset" = JsUndefined.
Proof.
  unfold updateConversation_modifications. intros H.
  repeat case_match; simplify_eq;
    rewrite ?js_get_set_ne by done; by cbn.
Qed.

Lemma updateConversation_counters_kept_triple conversationId modifications :
  triple (counters_kept w0) (updateConversation conversationId modifications)
         (λ _ w, counters_kept w0 w).
Proof.
  unfold updateConversation.
  destruct (updateConversation_modifications modifications) as [e|update] eqn:Hupd.
  { by apply triple_throw. }
  pose proof (updateConversation_modifications_no_max _ _ Hupd) as Hmax.
  destruct (updateConversation_modifications_each _ _ Hupd) as [Heach Hunset].
  assert (∀ mm next r,
            js_get (js_get (if truthy next then next else mm) "$addToSet") "$each"
              = JsUndefined →
            triple (counters_kept w0)
                   (updateConversation_done modifications mm next r)
                   (λ _ w, counters_kept w0 w)) as Hdone.
  { intros mm next r Hundef. unfold updateConversation_done.
    destruct r as [err|[conversation|]];
      [by apply triple_callback| |by apply triple_throw].
    eapply triple_bind.
    { apply (triple_frame (counters_kept w0));
        [apply counters_kept_convs_only|apply Conversation_populate_convs]. }
    intros [err|conversation']; [by apply triple_callback|].
    eapply triple_bind.
    { apply (triple_frame (counters_kept w0));
        [apply counters_kept_convs_only|done]. }
    intros ?. destruct (nonempty (newMembers modifications));
      [|by apply triple_callback].
    rewrite Hundef. apply helper_undefined_counters_kept. }
  assert (∀ upd, js_get upd "$max" = JsUndefined → js_get upd "$unset" = JsUndefined →
            triple (counters_kept w0)
                   (Conversation_findOneAndUpdate conversationId upd)
                   (λ _ w, counters_kept w0 w)) as Hstep.
  { intros upd H1 H2. apply findByIdAndUpdate_counters_kept.
    intros c u _. by rewrite apply_update_counters. }
  destruct (truthy (js_get update "$addToSet") && truthy (js_get update "$pullAll")).
  - cbn [truthy]. eapply triple_bind.
    { apply Hstep; case_match; by rewrite ?js_get_delete_ne. }
    intros r. eapply triple_bind; [by apply Hstep|].
    intros r2. by apply Hdone.
  - cbn [truthy]. eapply triple_bind.
    { apply Hstep; case_match; by rewrite ?js_get_delete_ne. }
    intros r. apply Hdone. cbn [truthy].
    case_match; by rewrite ?js_get_delete_ne.
Qed.

End counters_kept.

(** Whatever the modifications, [updateConversation] writes no read
    counter but the one filed under [undefined]: the counters of the users
    it adds stay as they were. *)
Lemma updateConversation_counters_kept conversationId modifications w :
  counters_kept w (updateConversation conversationId modifications w).2.
Proof.
  apply (updateConversation_counters_kept_triple w conversationId modifications w).
  intros id c ?. by exists c.
Qed.
Lemma add_to_set_elem l x y : y ∈ add_to_set l x ↔ y ∈ l ∨ y = x.
Proof. unfold add_to_set. case_bool_decide; set_solver. Qed.

(** With both lists given, the removal is written first and the addition
    second; the helper is then handed [$addToSet.$each], which the update
    document does not have. *)
Lemma updateConversation_both_eq (conversationId : ObjectId) (x y : ObjectId) :
  let modifications :=
    {| newMembers := Some [IdObj x]; deleteMembers := Some [IdObj y];
       mod_name := None; mod_avatar := None |} in
  updateConversation conversationId modifications =
  (r ← Conversation_findOneAndUpdate conversationId
         (JsObject [("$pullAll", JsObject [("members", JsArray [JsStr y])])]);
   r2 ← Conversation_findOneAndUpdate conversationId
          (JsObject [("$addToSet",
                      JsObject [("members", JsObject [("$each", JsArray [JsStr x])])])]);
   match r2 with
   | inl err => callback (inl err)
   | inr None => throw (TypeError "Cannot read property 'toObject' of null")
   | inr (Some conversation) =>
       p ← Conversation_populate conversation;
       match p with
       | inl err => callback (inl err)
       | inr conversation =>
           (publish channelUpdateTopic (PUpdate conversation (JsArray [JsStr y]));;
            makeAllMessageReadedForAnUserHelper JsUndefined (Some conversation))
       end
   end).
Proof. reflexivity. Qed.

Lemma apply_update_pullAll y c :
  apply_update (JsObject [("$pullAll", JsObject [("members", JsArray [JsStr y])])]) c
  = set_members (filter (λ m, m ∉ [y]) (c_members c)) c.
Proof. reflexivity. Qed.

Lemma apply_update_addToSet_each x c :
  apply_update
    (JsObject [("$addToSet",
                JsObject [("members", JsObject [("$each", JsArray [JsStr x])])])]) c
  = set_members (add_to_set (c_members c) x) c.
Proof. reflexivity. Qed.

Lemma bind_run {A B} (m : St A) (k : A → St B) (w : World) :
  (m ≫= k) w = k (m w).1 (m w).2.
Proof. unfold mbind, St_bind, st_bind. by destruct (m w). Qed.

Lemma updateConversation_membership (conversationId : ObjectId) (x y : ObjectId)
    (c : Conversation) (w : World) :
  conversations w !! conversationId = Some c →
  x ≠ y →
  healthy 4 w →
  let run := updateConversation conversationId
               {| newMembers := Some [IdObj x]; deleteMembers := Some [IdObj y];
                  mod_name := None; mod_avatar := None |} w in
  ∃ c', conversations run.2 !! conversationId = Some c'
        ∧ x ∈ c_members c' ∧ (y ∉ c_members c')
        ∧ numOfMessage c' = numOfMessage c.
Proof.
  intros Hc Hxy (Hf1 & (Hf2 & (Hf3 & (Hf4 & _)%healthy_S)%healthy_S)%healthy_S)%healthy_S
    run.
  subst run. rewrite updateConversation_both_eq. unfold Conversation_findOneAndUpdate.
  rewrite bind_run, findByIdAndUpdate_ok, Hc by done. cbn [fst snd].
  rewrite apply_update_pullAll. set (c1 := set_members _ c).
  rewrite bind_run, findByIdAndUpdate_ok by exact Hf2.
  cbn [with_conversations conversations tick]. rewrite lookup_insert_eq.
  cbn [fst snd]. rewrite apply_update_addToSet_each.
  set (c2 := set_members _ c1).
  assert (x ∈ c_members c2 ∧ (y ∉ c_members c2) ∧ numOfMessage c2 = numOfMessage c)
    as (Hx & Hy & Hn).
  { subst c2 c1. cbn [c_members set_members numOfMessage].
    rewrite !add_to_set_elem, !list_elem_of_filter. set_solver. }
  rewrite bind_run. unfold Conversation_populate at 1 2.
  rewrite store_access_ok by exact Hf3. cbn [fst snd].
  rewrite bind_run. cbn [publish fst snd].
  unfold makeAllMessageReadedForAnUserHelper. cbn [foldl js_set fields_set js_String].
  rewrite bind_run, findByIdAndUpdate_ok by exact Hf4.
  cbn [with_conversations conversations tick c_id set_members c1].
  destruct (decide (c_id c = conversationId)) as [->|Hne].
  - rewrite lookup_insert_eq. cbn [fst snd callback mret St_ret st_ret
      with_conversations conversations]. rewrite lookup_insert_eq.
    eexists; split; [done|].
    match goal with
    | |- context [apply_update (JsObject [("$max", ?op)]) c2] =>
        destruct (apply_update_max_keeps op c2) as (Hn' & _ & Hm')
    end.
    by rewrite Hn', Hm'.
  - rewrite !lookup_insert_ne by done.
    destruct (conversations w !! c_id c);
      cbn [fst snd callback mret St_ret st_ret with_conversations conversations tick];
      rewrite ?(lookup_insert_ne _ (c_id c)) by done;
      rewrite lookup_insert_eq; by exists c2.
Qed.
(** C6 (evaluation at the failing input).  [bob] is added and [alice]
    removed: afterwards [bob] is a member and [alice] is not, but [bob]
    has no read counter; the message count, 5, was written to the counter
    named [undefined]. *)
Theorem updateConversation_new_member_counter :
  let run := updateConversation general swap_members sample_world in
  ∃ c, conversations run.2 !! general = Some c
       ∧ c_members c = [bob]
       ∧ numOfMessage c = 5
       ∧ numOfReadedMessage c !! bob = None
       ∧ numOfReadedMessage c !! "undefined" = Some 5.
Proof. vm_compute. eexists. split; [done|]. done. Qed.

(** ** deleteConversation *)

(** A user who is not a member does not remove the conversation, and
    nothing is reported as an error; the messages of the conversation are
    removed all the same, and a deletion event carrying [null] is
    published. *)
Lemma deleteConversation_non_member (userId conversationId : ObjectId)
    (c : Conversation) (w : World) :
  conversations w !! conversationId = Some c →
  userId ∉ c_members c →
  healthy 2 w →
  let run := deleteConversation userId conversationId w in
  run.1 = Returned None
  ∧ conversations run.2 = conversations w
  ∧ messages run.2 = filter (λ m, channel m ≠ conversationId) (messages w)
  ∧ published run.2 = published w ++ [(channelDeletionTopic, PDoc None)].
Proof.
  intros Hc Hu [Hf1 [Hf2 _]%healthy_S]%healthy_S run. subst run.
  unfold deleteConversation, Conversation_findOneAndRemove, ChatMessage_remove.
  unfold mbind, St_bind, st_bind. rewrite store_access_ok by done.
  cbn [tick conversations fst snd]. rewrite Hc, bool_decide_eq_false_2 by done.
  cbn [fst snd publish]. rewrite store_access_ok by done. done.
Qed.
(** C1 (evaluation at the failing input).  [bob] is not a member of the
    conversation.  His [deleteConversation] reports no error and leaves the
    conversation in place, but the four messages of the conversation are
    removed, and a deletion event carrying [null] is published. *)
Theorem deleteConversation_by_non_member :
  (bob ∉ c_members general_conversation)
  ∧ let run := deleteConversation bob general sample_world in
    run.1 = Returned None
    ∧ conversations run.2 = conversations sample_world
    ∧ List.length (filter (λ m, channel m = general) (messages sample_world)) = 4
    ∧ messages run.2 = []
    ∧ published run.2 = [(channelDeletionTopic, PDoc None)].
Proof.
  assert (bob ∉ c_members general_conversation) as Hbob
    by (intros [?|?%elem_of_nil]%elem_of_cons; done).
  split; [done|].
  destruct (deleteConversation_non_member bob general general_conversation
              sample_world) as (H1 & H2 & H3 & H4);
    [by vm_compute|done|apply sample_world_healthy|].
  split_and!; [done|done|by vm_compute|by rewrite H3|by rewrite H4].
Qed.

(** ** updateTopic *)

(** The event carries the topic of the document as it was before the
    update; the text line carries the value the caller gave. *)
Lemma updateTopic_publishes_previous (conversationId : ObjectId) (topic : TopicInput)
    (c : Conversation) (fs : list (string * JsVal)) (w : World) :
  conversations w !! conversationId = Some c →
  c_topic c = JsObject fs →
  hd false (faults w) = false →
  let run := updateTopic conversationId topic w in
  run.1 = Returned (Some c)
  ∧ (c_topic <$> conversations run.2 !! conversationId) =
      Some (JsObject [("value", t_value topic); ("creator", t_creator topic);
                      ("last_set", t_last_set topic)])
  ∧ ∃ message,
      published run.2 = published w ++ [(channelTopicUpdateTopic, PObject message)]
      ∧ js_get (js_get message "topic") "value" = fields_get fs "value"
      ∧ js_get message "text" =
          JsStr (String.append "set the channel topic: " (js_String (t_value topic))).
Proof.
  intros Hc Ht Hf run. subst run. unfold updateTopic.
  unfold mbind, St_bind, st_bind. rewrite findByIdAndUpdate_ok by done.
  rewrite Hc, Ht. cbn -[apply_update lookup insert String.append].
  rewrite lookup_insert_eq. split_and!; [done|done|].
  eexists. split; [reflexivity|]. by split.
Qed.
(** C2 (evaluation at the failing input).  The conversation has the topic
    "old topic".  After [updateTopic] with "new topic" the stored topic is
    the new one, while the topic field of the published message still
    says "old topic" (its text line says "new topic"). *)
Theorem updateTopic_publishes_stale_topic :
  let run := updateTopic general new_topic sample_world in
  (c_topic <$> conversations run.2 !! general) =
    Some (JsObject [("value", JsStr "new topic"); ("creator", JsStr bob);
                    ("last_set", JsNum 100)])
  ∧ ∃ message,
      published run.2 = [(channelTopicUpdateTopic, PObject message)]
      ∧ js_get message "topic" =
          JsObject [("value", JsStr "old topic"); ("creator", JsStr alice);
                    ("last_set", JsNum 10)]
      ∧ js_get message "text" = JsStr "set the channel topic: new topic".
Proof. vm_compute. split; [done|]. eexists. split; [done|]. done. Qed.

(** The sibling operation asks for the updated document and gets it. *)
Example moderateConversation_returns_updated :
  ∃ c, (moderateConversation general true sample_world).1 = Returned (Some c)
       ∧ c_moderate general_conversation = false ∧ c_moderate c = true.
Proof. vm_compute. eexists. split; [done|]. done. Qed.

(** ** getMessages *)

#[local] Instance newer_first_trans : Transitive newer_first.
Proof. unfold newer_first. intros a b c ??. lia. Qed.

#[local] Instance newer_first_total : Total newer_first.
Proof. unfold newer_first. intros a b. lia. Qed.


Lemma StronglySorted_take_drop {A} (R : relation A) (n k : nat) (l : list A) :
  StronglySorted R l → StronglySorted R (take n (drop k l)).
Proof.
  intros H. rewrite <-(take_drop k l) in H. apply StronglySorted_app_1_r in H.
  rewrite <-(take_drop n (drop k l)) in H. by apply StronglySorted_app_1_l in H.
Qed.

Lemma StronglySorted_reverse_flip {A} (R : relation A) `{!Transitive R} (l : list A) :
  StronglySorted R l → StronglySorted (flip R) (reverse l).
Proof.
  intros H%Sorted.StronglySorted_Sorted%Sorted_reverse.
  apply Sorted_StronglySorted; [|done]. intros a b c ??. by etrans.
Qed.

Lemma elem_of_take_drop {A} (n k : nat) (l : list A) x :
  x ∈ take n (drop k l) → x ∈ l.
Proof.
  intros H. rewrite <-(take_drop k l). apply elem_of_app. right.
  rewrite <-(take_drop n (drop k l)). apply elem_of_app. by left.
Qed.

(** [getMessages] answers with the selected page (the [limit] newest
    matching messages after skipping [offset] of them) turned round, so
    oldest first; every message of the answer belongs to the conversation
    and is not moderated, whatever the query says about [moderate]. *)
Lemma getMessages_chronological
    (conversation : ConversationArg) (query : option MessagesQuery) (w : World) :
  hd false (faults w) = false →
  let conversationId := match conversation with ByDocument c => c_id c | ById id => id end in
  let limit := number_or (query ≫= q_limit) 20 in
  let offset := number_or (query ≫= q_offset) 0 in
  ∃ newest_first : list ChatMessage,
    newest_first ≡ₚ filter (λ m, channel m = conversationId ∧ m_moderate m = false)
                           (messages w)
    ∧ StronglySorted newer_first newest_first
    ∧ (getMessages conversation query w).1 =
        Returned (reverse (take limit (drop offset newest_first)))
    ∧ StronglySorted older_first (reverse (take limit (drop offset newest_first)))
    ∧ ∀ m, m ∈ reverse (take limit (drop offset newest_first)) →
           m_moderate m = false ∧ channel m = conversationId ∧ m ∈ messages w.
Proof.
  intros Hf conversationId limit offset.
  set (matching := filter (λ m, channel m = conversationId ∧ m_moderate m = false)
                          (messages w)).
  exists (merge_sort newer_first matching).
  assert (StronglySorted newer_first (merge_sort newer_first matching)) as Hs
    by apply (StronglySorted_merge_sort _).
  split_and!.
  - apply merge_sort_Permutation.
  - done.
  - unfold getMessages, ChatMessage_find_page, mbind, St_bind, st_bind.
    rewrite store_access_ok by done. cbn [fst snd tick messages].
    subst limit offset.
    destruct query as [[qm [[|?]|] [[|?]|]]|];
      cbn -[merge_sort filter truthy]; try destruct (truthy qm); reflexivity.
  - apply (StronglySorted_reverse_flip newer_first).
    by apply StronglySorted_take_drop.
  - intros m Hm%elem_of_reverse%elem_of_take_drop.
    rewrite merge_sort_Permutation in Hm. subst matching.
    apply list_elem_of_filter in Hm. naive_solver.
Qed.
(** The page lemma on the sample world. *)
Example getMessages_chronological_sample :
  let conversationId := general in
  let limit := number_or (Some second_page ≫= q_limit) 20 in
  let offset := number_or (Some second_page ≫= q_offset) 0 in
  ∃ newest_first : list ChatMessage,
    newest_first ≡ₚ filter (λ m, channel m = conversationId ∧ m_moderate m = false)
                           (messages sample_world)
    ∧ StronglySorted newer_first newest_first
    ∧ (getMessages (ById general) (Some second_page) sample_world).1 =
        Returned (reverse (take limit (drop offset newest_first)))
    ∧ StronglySorted older_first (reverse (take limit (drop offset newest_first)))
    ∧ ∀ m, m ∈ reverse (take limit (drop offset newest_first)) →
           m_moderate m = false ∧ channel m = conversationId ∧ m ∈ messages sample_world.
Proof.
  apply (getMessages_chronological (ById general) (Some second_page) sample_world).
  reflexivity.
Qed.

(** C4 (evaluation at the failing input).  The query asks for moderated
    messages.  The conversation holds a moderated message, created at 20,
    between two messages that are returned; it is left out: the filter is
    the constant [{moderate: false}].  The answer is oldest first. *)
Theorem getMessages_ignores_moderate_request :
  truthy (q_moderate second_page) = true
  ∧ sample_message "two" true 20 ∈ messages sample_world
  ∧ (getMessages (ById general) (Some second_page) sample_world).1
    = Returned [sample_message "one" false 10; sample_message "three" false 30].
Proof.
  split_and!.
  - reflexivity.
  - right. left.
  - vm_compute. reflexivity.
Qed.

(** ** findConversation *)

Lemma map_ObjectId_error f l e :
  map_ObjectId f l = inl e →
  e = Error "Argument passed in must be a single String of 12 bytes or a string of 24 hex characters".
Proof.
  induction l as [|s l IH]; [done|]. cbn [map_ObjectId].
  destruct (ObjectId_new (f s)) as [e'|o] eqn:Hnew.
  - intros [= <-]. unfold ObjectId_new in Hnew. repeat case_match; by simplify_eq.
  - destruct (map_ObjectId f l); [|done]. intros [= <-]. by apply IH.
Qed.


Lemma findConversation_request_error options e :
  findConversation_request options = inl e →
  (o_exactMembersMatch options = true ∧ o_members options = None
   ∧ e = exactMembersMatch_error)
  ∨ (o_exactMembersMatch options = false
     ∧ o_ignoreMemberFilterForChannel options = true ∧ o_members options = None
     ∧ e = ignoreMemberFilterForChannel_error)
  ∨ (e ≠ exactMembersMatch_error ∧ e ≠ ignoreMemberFilterForChannel_error
     ∧ is_Some (o_members options)).
Proof.
  unfold findConversation_request.
  destruct (o_members options) as [participants|] eqn:Hm.
  - rewrite (bool_decide_eq_true_2 (is_Some (Some participants))) by eauto.
    cbn [negb]. rewrite !andb_false_r. intros He.
    right; right.
    assert (e = Error "Argument passed in must be a single String of 12 bytes or a string of 24 hex characters"
            ∨ e = TypeError "Cannot set property '$size' of undefined") as [-> | ->];
      [|by split_and!; eauto..].
    destruct (map_ObjectId id participants) as [e'|ids] eqn:Hmap.
    + apply map_ObjectId_error in Hmap. left. by simplify_eq.
    + cbv zeta in He. destruct (o_exactMembersMatch options); [|done].
      destruct (js_get _ "members") in He; simplify_eq; by right.
  - rewrite (bool_decide_eq_false_2 (is_Some None)) by (by intros [??]).
    cbn [negb]. rewrite !andb_true_r.
    destruct (o_exactMembersMatch options), (o_ignoreMemberFilterForChannel options).
    + intros [= <-]. by left.
    + intros [= <-]. by left.
    + intros [= <-]. right; by left.
    + intros He. repeat case_match; by simplify_eq.
Qed.

(** C8. [findConversation] throws its configuration error exactly when
    [exactMembersMatch] or [ignoreMemberFilterForChannel] is set and no
    members are given; it does so before the store is reached (the world
    is unchanged); with any other options neither error is raised. *)
Theorem findConversation_configuration_error (options : FindOptions) (w : World) :
  (o_exactMembersMatch options = true → o_members options = None →
     findConversation options w = (Thrown exactMembersMatch_error, w))
  ∧ (o_exactMembersMatch options = false →
     o_ignoreMemberFilterForChannel options = true → o_members options = None →
     findConversation options w = (Thrown ignoreMemberFilterForChannel_error, w))
  ∧ (is_Some (o_members options)
     ∨ (o_exactMembersMatch options = false
        ∧ o_ignoreMemberFilterForChannel options = false) →
     (findConversation options w).1 ≠ Thrown exactMembersMatch_error
     ∧ (findConversation options w).1 ≠ Thrown ignoreMemberFilterForChannel_error).
Proof.
  split_and!.
  - intros Hx Hm. unfold findConversation, findConversation_request.
    by rewrite Hx, Hm.
  - intros Hx Hi Hm. unfold findConversation, findConversation_request.
    by rewrite Hx, Hi, Hm.
  - intros Hok. unfold findConversation.
    destruct (findConversation_request options) as [e|request] eqn:Hreq.
    + apply findConversation_request_error in Hreq
        as [(? & ? & ?)|[(? & ? & ? & ?)|(? & ? & ?)]].
      * destruct Hok as [[??]|[??]]; congruence.
      * destruct Hok as [[??]|[??]]; congruence.
      * cbn. split; congruence.
    + unfold mbind, St_bind, st_bind, callback, mret, St_ret, st_ret.
      destruct (Conversation_find request w) as [[?|?] ?]; by cbn.
Qed.
Lemma findConversation_configuration_error_witness :
  findConversation exact_without_members sample_world
    = (Thrown exactMembersMatch_error, sample_world)
  ∧ findConversation ignore_without_members sample_world
    = (Thrown ignoreMemberFilterForChannel_error, sample_world)
  ∧ (findConversation exact_with_members sample_world).1
      ≠ Thrown exactMembersMatch_error
  ∧ (findConversation exact_with_members sample_world).1
      ≠ Thrown ignoreMemberFilterForChannel_error.
Proof.
  split_and!.
  - by apply (proj1 (findConversation_configuration_error exact_without_members
                       sample_world)).
  - by apply (proj1 (proj2 (findConversation_configuration_error
                              ignore_without_members sample_world))).
  - apply (proj2 (proj2 (findConversation_configuration_error exact_with_members
                           sample_world))).
    left. by exists [alice].
  - apply (proj2 (proj2 (findConversation_configuration_error exact_with_members
                           sample_world))).
    left. by exists [alice].
Defined.

(** With members given, the exact match finds the conversation whose
    members are exactly those. *)
Example findConversation_exact_sample :
  (findConversation exact_with_members sample_world).1
  = Returned [general_conversation].
Proof. vm_compute. reflexivity. Qed.

(** Both flags with members: a [TypeError], not the configuration error. *)
Example findConversation_exact_and_ignore :
  findConversation exact_and_ignore sample_world
  = (Thrown (TypeError "Cannot set property '$size' of undefined"), sample_world).
Proof. vm_compute. reflexivity. Qed.

(* ===================================================================== *)
(** * Part 3. Further properties of the service                          *)
(* ===================================================================== *)

(** ** Running the store *)

Lemma healthy_le n k w : k ≤ n → healthy n w → healthy k w.
Proof.
  unfold healthy. intros Hle H (i & Hi & Hlt)%elem_of_take. apply H.
  apply elem_of_take. exists i. split; [done|lia].
Qed.

Lemma healthy_drop n k w w' :
  faults w' = drop k (faults w) → healthy (k + n) w → healthy n w'.
Proof.
  unfold healthy. intros -> H (i & Hi & Hlt)%elem_of_take. apply H.
  rewrite lookup_drop in Hi. apply elem_of_take. exists (k + i). split; [done|lia].
Qed.

(** ** deleteConversation, continued *)

(** X1.  A member deletes the conversation: the document is removed and
    handed to the caller, every message of the conversation is removed,
    the messages of other conversations and the other documents stay, and
    one deletion event carrying the removed document is published. *)
Theorem deleteConversation_by_member (userId conversationId : ObjectId)
    (c : Conversation) (w : World) :
  conversations w !! conversationId = Some c →
  userId ∈ c_members c →
  healthy 2 w →
  let run := deleteConversation userId conversationId w in
  run.1 = Returned (Some c)
  ∧ conversations run.2 = delete conversationId (conversations w)
  ∧ messages run.2 = filter (λ m, channel m ≠ conversationId) (messages w)
  ∧ published run.2 = published w ++ [(channelDeletionTopic, PDoc (Some c))].
Proof.
  intros Hc Hu [Hf1 [Hf2 _]%healthy_S]%healthy_S run. subst run.
  unfold deleteConversation, Conversation_findOneAndRemove, ChatMessage_remove.
  unfold mbind, St_bind, st_bind. rewrite store_access_ok by done.
  cbn [tick conversations fst snd]. rewrite Hc, bool_decide_eq_true_2 by done.
  cbn [fst snd publish]. rewrite store_access_ok by done. done.
Qed.

Lemma deleteConversation_by_member_witness :
  let run := deleteConversation alice general two_worlds in
  run.1 = Returned (Some general_conversation)
  ∧ conversations run.2 = delete general (conversations two_worlds)
  ∧ messages run.2 = filter (λ m, channel m ≠ general) (messages two_worlds)
  ∧ published run.2
    = published two_worlds ++ [(channelDeletionTopic, PDoc (Some general_conversation))].
Proof.
  apply (deleteConversation_by_member alice general general_conversation two_worlds).
  - reflexivity.
  - by constructor.
  - unfold healthy. cbn. apply not_elem_of_nil.
Defined.

(** X2.  Store failures during a deletion.  When the removal of the
    document fails, the error is reported and nothing else happens: no
    event, no message removed.  When the document was removed and the
    removal of the messages fails, the error is reported after the event
    was published: the conversation is gone and all its messages are
    still stored. *)
Theorem deleteConversation_store_failure (userId conversationId : ObjectId) (w : World) :
  (hd false (faults w) = true →
     deleteConversation userId conversationId w = (Failed StoreError, tick w))
  ∧ (∀ c rest, faults w = false :: true :: rest →
       conversations w !! conversationId = Some c →
       userId ∈ c_members c →
       let run := deleteConversation userId conversationId w in
       run.1 = Failed StoreError
       ∧ conversations run.2 !! conversationId = None
       ∧ messages run.2 = messages w
       ∧ published run.2 = published w ++ [(channelDeletionTopic, PDoc (Some c))]).
Proof.
  split.
  - intros Hf. unfold deleteConversation, Conversation_findOneAndRemove.
    unfold mbind, St_bind, st_bind. by rewrite store_access_fault.
  - intros c rest Hf Hc Hu run. subst run.
    unfold deleteConversation, Conversation_findOneAndRemove, ChatMessage_remove.
    unfold mbind, St_bind, st_bind. rewrite store_access_ok by by rewrite Hf.
    cbn [tick conversations fst snd]. rewrite Hc, bool_decide_eq_true_2 by done.
    cbn [fst snd publish]. rewrite store_access_fault by by cbn; rewrite Hf.
    cbn. by rewrite lookup_delete_eq.
Qed.

Lemma deleteConversation_store_failure_witness :
  deleteConversation alice general down_world = (Failed StoreError, tick down_world)
  ∧ let run := deleteConversation alice general failing_world in
    run.1 = Failed StoreError
    ∧ conversations run.2 !! general = None
    ∧ messages run.2 = messages failing_world
    ∧ published run.2
      = published failing_world
        ++ [(channelDeletionTopic, PDoc (Some general_conversation))].
Proof.
  split.
  - by apply (proj1 (deleteConversation_store_failure alice general down_world)).
  - apply (proj2 (deleteConversation_store_failure alice general failing_world)
             general_conversation []).
    + reflexivity.
    + reflexivity.
    + by constructor.
Defined.

Lemma filter_channel_removed (conversationId other : ObjectId) (l : list ChatMessage) :
  List.length (filter (λ m, channel m = other) (filter (λ m, channel m ≠ conversationId) l))
  = if decide (other = conversationId) then 0
    else List.length (filter (λ m, channel m = other) l).
Proof.
  induction l as [|m l IH]; [by destruct (decide _)|].
  rewrite !filter_cons.
  destruct (decide (channel m ≠ conversationId)) as [Hne|Heq%dec_stable].
  - rewrite filter_cons. destruct (decide (channel m = other)) as [Ho|Ho].
    + cbn [List.length]. rewrite IH. destruct (decide (other = conversationId)); [|done].
      congruence.
    + done.
  - rewrite IH. destruct (decide (channel m = other)) as [Ho|Ho]; [|done].
    destruct (decide (other = conversationId)); [done|congruence].
Qed.

(** X3.  After [deleteConversation], whoever asked for it and whether or
    not the document existed, [countMessages] finds no message of the
    conversation, and for every other conversation it finds as many as
    before. *)
Theorem countMessages_after_deleteConversation (userId conversationId other : ObjectId)
    (w : World) :
  healthy 3 w →
  let w' := (deleteConversation userId conversationId w).2 in
  (countMessages conversationId w').1 = Returned 0
  ∧ (other ≠ conversationId →
     (countMessages other w').1
     = Returned (List.length (filter (λ m, channel m = other) (messages w)))).
Proof.
  intros (Hf1 & (Hf2 & (Hf3 & _)%healthy_S)%healthy_S)%healthy_S w'.
  assert (messages w' = filter (λ m, channel m ≠ conversationId) (messages w)
          ∧ hd false (faults w') = false) as [Hm Hf].
  { subst w'. unfold deleteConversation, Conversation_findOneAndRemove, ChatMessage_remove.
    unfold mbind, St_bind, st_bind. rewrite store_access_ok by done.
    cbn [tick conversations fst snd].
    destruct (conversations w !! conversationId) as [c|];
      [destruct (bool_decide (userId ∈ c_members c))|];
      cbn [fst snd publish]; by rewrite store_access_ok. }
  unfold countMessages, ChatMessage_count. rewrite !bind_run, !store_access_ok by done.
  cbn [fst snd callback mret St_ret st_ret tick messages].
  rewrite Hm, !filter_channel_removed. split.
  - by rewrite decide_True.
  - intros Hne. by rewrite decide_False.
Qed.

Lemma countMessages_after_deleteConversation_witness :
  let w' := (deleteConversation bob general two_worlds).2 in
  (countMessages general w').1 = Returned 0
  ∧ (countMessages random w').1
    = Returned (List.length (filter (λ m, channel m = random) (messages two_worlds))).
Proof.
  destruct (countMessages_after_deleteConversation bob general random two_worlds)
    as [H0 H1].
  - unfold healthy. cbn. apply not_elem_of_nil.
  - split; [exact H0|]. apply H1. discriminate.
Defined.

(** ** updateTopic and getConversation *)

Lemma apply_update_topic v c :
  apply_update (JsObject [("$set", JsObject [("topic", v)])]) c = set_topic v c.
Proof. reflexivity. Qed.

(** X4.  [updateTopic] on a conversation that does not exist, or when the
    store fails: the callback is never called, neither with the store's
    error nor with a result; a [TypeError] is raised instead, nothing is
    published and nothing is stored. *)
Theorem updateTopic_without_document (conversationId : ObjectId) (topic : TopicInput)
    (w : World) :
  conversations w !! conversationId = None ∨ hd false (faults w) = true →
  let run := updateTopic conversationId topic w in
  (∃ line, run.1 = Thrown (TypeError line)) ∧ run.2 = tick w.
Proof.
  intros H run. subst run. unfold updateTopic. rewrite bind_run.
  destruct (hd false (faults w)) eqn:Hf.
  - unfold Conversation_findByIdAndUpdate. rewrite store_access_fault by done.
    cbn. eauto.
  - destruct H as [Hc|?]; [|done].
    rewrite findByIdAndUpdate_ok, Hc by done. cbn. eauto.
Qed.

Lemma updateTopic_without_document_witness :
  let run := updateTopic random new_topic sample_world in
  (∃ line, run.1 = Thrown (TypeError line)) ∧ run.2 = tick sample_world.
Proof.
  apply (updateTopic_without_document random new_topic sample_world).
  left. reflexivity.
Defined.

(** X5.  [updateTopic] on a conversation that has a topic replaces the
    topic by the three fields given and changes nothing else: no other
    field of the document, no other document, no message.
    [getConversation] then answers the updated document. *)
Theorem updateTopic_then_getConversation (conversationId : ObjectId) (topic : TopicInput)
    (c : Conversation) (fs : list (string * JsVal)) (w : World) :
  conversations w !! conversationId = Some c →
  c_topic c = JsObject fs →
  healthy 2 w →
  let committed :=
    set_topic (JsObject [("value", t_value topic); ("creator", t_creator topic);
                         ("last_set", t_last_set topic)]) c in
  let w' := (updateTopic conversationId topic w).2 in
  conversations w' = <[conversationId := committed]> (conversations w)
  ∧ messages w' = messages w
  ∧ (getConversation conversationId w').1 = Returned (Some committed).
Proof.
  intros Hc Ht [Hf1 [Hf2 _]%healthy_S]%healthy_S committed w'.
  assert (conversations w' = <[conversationId := committed]> (conversations w)
          ∧ messages w' = messages w ∧ faults w' = faults (tick w)) as (Hcs & Hm & Hf).
  { subst w'. unfold updateTopic. rewrite bind_run, findByIdAndUpdate_ok, Hc by done.
    cbn [fst snd]. rewrite Ht, apply_update_topic. by cbn. }
  split_and!; [done|done|].
  unfold getConversation, Conversation_findById.
  rewrite bind_run, store_access_ok by by rewrite Hf.
  cbn [fst snd tick conversations callback mret St_ret st_ret].
  by rewrite Hcs, lookup_insert_eq.
Qed.

Lemma updateTopic_then_getConversation_witness :
  let committed :=
    set_topic (JsObject [("value", t_value new_topic); ("creator", t_creator new_topic);
                         ("last_set", t_last_set new_topic)]) general_conversation in
  let w' := (updateTopic general new_topic sample_world).2 in
  conversations w' = <[general := committed]> (conversations sample_world)
  ∧ messages w' = messages sample_world
  ∧ (getConversation general w').1 = Returned (Some committed).
Proof.
  apply (updateTopic_then_getConversation general new_topic general_conversation
           [("value", JsStr "old topic"); ("creator", JsStr alice); ("last_set", JsNum 10)]
           sample_world).
  - reflexivity.
  - reflexivity.
  - unfold healthy. cbn. apply not_elem_of_nil.
Defined.

(** ** addMemberToConversation and removeMemberFromConversation *)

Lemma apply_update_addToSet u c :
  apply_update (JsObject [("$addToSet", JsObject [("members", JsStr u)])]) c
  = set_members (add_to_set (c_members c) u) c.
Proof. reflexivity. Qed.

Lemma apply_update_max_one u n c :
  apply_update (JsObject [("$max", JsObject [(counter_path u, JsNum n)])]) c
  = set_numOfReadedMessage (max_field (numOfReadedMessage c) (counter_path u, JsNum n)) c.
Proof. by rewrite apply_update_max. Qed.

Lemma apply_update_pull_unset u k c :
  apply_update (JsObject [("$pull", JsObject [("members", JsStr u)]);
                          ("$unset", JsObject [(counter_path k, JsStr "")])]) c
  = set_numOfReadedMessage (delete k (numOfReadedMessage c))
      (set_members (filter (λ m, m ≠ u) (c_members c)) c).
Proof.
  change (apply_update _ c) with
    (apply_unset (JsObject [(counter_path k, JsStr "")])
       (set_members (filter (λ m, m ≠ u) (c_members c)) c)).
  unfold apply_unset. cbn [foldl]. unfold unset_field. cbn [fst].
  by rewrite counter_key_path.
Qed.

(** What [addMemberToConversation] does for an identifier [u] when the
    conversation exists and the store answers. *)
Lemma addMemberToConversation_run (conversationId u : ObjectId) (c : Conversation)
    (w : World) :
  conversations w !! conversationId = Some c →
  c_id c = conversationId →
  healthy 2 w →
  let c1 := set_members (add_to_set (c_members c) u) c in
  let c2 := set_numOfReadedMessage
              (max_field (numOfReadedMessage c) (counter_path u, JsNum (numOfMessage c)))
              c1 in
  let run := addMemberToConversation conversationId (IdObj u) w in
  run.1 = Returned (Some c1)
  ∧ conversations run.2 = <[conversationId := c2]> (conversations w)
  ∧ published run.2 = published w ++ [(channelAddMember, PDoc (Some c))]
  ∧ messages run.2 = messages w
  ∧ faults run.2 = drop 2 (faults w).
Proof.
  intros Hc Hid [Hf1 [Hf2 _]%healthy_S]%healthy_S c1 c2 run. subst run.
  unfold addMemberToConversation. cbn [ensureObjectId IdArg_js].
  rewrite bind_run, findByIdAndUpdate_ok, Hc, apply_update_addToSet by done.
  cbn [fst snd]. fold c1.
  unfold makeAllMessageReadedForAnUserHelper. cbn [foldl js_set fields_set js_String].
  rewrite Hid, !bind_run, findByIdAndUpdate_ok by exact Hf2.
  cbn [with_conversations conversations tick]. rewrite lookup_insert_eq.
  rewrite apply_update_max_one. fold c2.
  cbn [fst snd callback mret St_ret st_ret]. rewrite bind_run. unfold mret, St_ret, st_ret.
  cbn [publish fst snd conversations published messages faults with_conversations tick].
  rewrite insert_insert_eq. split_and!; try done.
  by destruct (faults w) as [|? [|? ?]].
Qed.

Lemma add_to_set_NoDup l x : NoDup l → NoDup (add_to_set l x).
Proof.
  intros Hl. unfold add_to_set. case_bool_decide as Hx; [done|].
  apply NoDup_app. split_and!; [done| |apply NoDup_singleton].
  intros y Hy ->%list_elem_of_singleton. done.
Qed.

(** X6.  [addMemberToConversation] with the identifier of a user, on an
    existing conversation: afterwards the members are the former members
    and the user, without a duplicate when there was none; the user's
    read counter is the larger of its former value and the message count
    (the message count when there was none); the other counters and the
    message count are as before.  The event that is published carries
    the document as it was before the user was added. *)
Theorem addMemberToConversation_member_and_counter (conversationId u : ObjectId)
    (c : Conversation) (w : World) :
  conversations w !! conversationId = Some c →
  c_id c = conversationId →
  healthy 2 w →
  let run := addMemberToConversation conversationId (IdObj u) w in
  ∃ c', conversations run.2 = <[conversationId := c']> (conversations w)
        ∧ (∀ x, x ∈ c_members c' ↔ x ∈ c_members c ∨ x = u)
        ∧ (NoDup (c_members c) → NoDup (c_members c'))
        ∧ numOfMessage c' = numOfMessage c
        ∧ (∀ k, numOfReadedMessage c' !! k =
                if decide (k = u)
                then Some (max_read (numOfReadedMessage c !! u) (numOfMessage c))
                else numOfReadedMessage c !! k)
        ∧ published run.2 = published w ++ [(channelAddMember, PDoc (Some c))].
Proof.
  intros Hc Hid Hh run.
  destruct (addMemberToConversation_run conversationId u c w Hc Hid Hh)
    as (_ & Hcs & Hp & _).
  eexists. split; [exact Hcs|]. cbn [c_members set_members set_numOfReadedMessage
    numOfMessage numOfReadedMessage].
  split_and!; [apply add_to_set_elem|apply add_to_set_NoDup|done| |done].
  intros k. apply max_field_lookup.
Qed.

Lemma addMemberToConversation_member_and_counter_witness :
  let run := addMemberToConversation general (IdObj bob) sample_world in
  ∃ c', conversations run.2 = <[general := c']> (conversations sample_world)
        ∧ (∀ x, x ∈ c_members c' ↔ x ∈ c_members general_conversation ∨ x = bob)
        ∧ (NoDup (c_members general_conversation) → NoDup (c_members c'))
        ∧ numOfMessage c' = numOfMessage general_conversation
        ∧ (∀ k, numOfReadedMessage c' !! k =
                if decide (k = bob)
                then Some (max_read (numOfReadedMessage general_conversation !! bob)
                                    (numOfMessage general_conversation))
                else numOfReadedMessage general_conversation !! k)
        ∧ published run.2
          = published sample_world
            ++ [(channelAddMember, PDoc (Some general_conversation))].
Proof.
  apply (addMemberToConversation_member_and_counter general bob general_conversation
           sample_world).
  - reflexivity.
  - reflexivity.
  - unfold healthy. cbn. apply not_elem_of_nil.
Defined.

Lemma addMemberToConversation_unknown (conversationId : ObjectId) (userId : IdArg)
    (u : ObjectId) (w : World) :
  ensureObjectId userId = inr u →
  conversations w !! conversationId = None →
  hd false (faults w) = false →
  addMemberToConversation conversationId userId w
  = (Thrown (TypeError "Cannot read property 'numOfMessage' of null"), tick w).
Proof.
  intros Hu Hc Hf. unfold addMemberToConversation. rewrite Hu.
  by rewrite bind_run, findByIdAndUpdate_ok, Hc by done.
Qed.

(** X7.  Adding the same user a second time changes no conversation: the
    member is not listed twice and the counter keeps its value. *)
Theorem addMemberToConversation_idempotent (conversationId u : ObjectId) (w : World) :
  store_wf w →
  healthy 4 w →
  let once := (addMemberToConversation conversationId (IdObj u) w).2 in
  let twice := (addMemberToConversation conversationId (IdObj u) once).2 in
  conversations twice = conversations once.
Proof.
  intros Hwf Hh once twice.
  destruct (conversations w !! conversationId) as [c|] eqn:Hc.
  - pose proof (Hwf _ _ Hc) as Hid.
    destruct (addMemberToConversation_run conversationId u c w Hc Hid)
      as (_ & Hcs & _ & _ & Hf); [by eapply healthy_le, Hh; lia|].
    fold once in Hcs, Hf.
    set (c1 := set_members (add_to_set (c_members c) u) c) in *.
    set (c2 := set_numOfReadedMessage _ c1) in *.
    destruct (addMemberToConversation_run conversationId u c2 once)
      as (_ & Hcs2 & _); [by rewrite Hcs, lookup_insert_eq|done| |].
    { by apply (healthy_drop 2 2 w). }
    fold twice in Hcs2. rewrite Hcs2, Hcs, insert_insert_eq. f_equal.
    assert (u ∈ c_members c2) as Hin by (apply add_to_set_elem; by right).
    assert (add_to_set (c_members c2) u = c_members c2) as ->
      by (unfold add_to_set; by rewrite bool_decide_eq_true_2).
    assert (max_field (numOfReadedMessage c2) (counter_path u, JsNum (numOfMessage c2))
            = numOfReadedMessage c2) as ->.
    { apply map_eq. intros k. rewrite max_field_lookup.
      destruct (decide (k = u)) as [->|]; [|done].
      subst c2 c1. cbn [numOfReadedMessage numOfMessage set_numOfReadedMessage
        set_members]. rewrite max_field_lookup, decide_True by done.
      unfold max_read. destruct (numOfReadedMessage c !! u); f_equal; lia. }
    by destruct c2.
  - apply healthy_S in Hh as [Hf1 [Hf2 _]%healthy_S].
    subst twice. subst once.
    rewrite (addMemberToConversation_unknown _ _ u w) by done.
    by rewrite (addMemberToConversation_unknown _ _ u (tick w)) by done.
Qed.

Lemma addMemberToConversation_idempotent_witness :
  let once := (addMemberToConversation general (IdObj bob) sample_world).2 in
  let twice := (addMemberToConversation general (IdObj bob) once).2 in
  conversations twice = conversations once.
Proof.
  apply (addMemberToConversation_idempotent general bob sample_world).
  - exact sample_world_wf.
  - apply sample_world_healthy.
Defined.

(** X8.  What [addMemberToConversation] does when it cannot complete,
    for a user identifier that is accepted.  A failure of the first
    update is reported and nothing is published.  An unknown conversation
    is not reported: a [TypeError] is raised and nothing is published.  A
    failure of the counter update is reported after the user was made a
    member, and the event is published all the same. *)
Theorem addMemberToConversation_failures (conversationId : ObjectId) (userId : IdArg)
    (u : ObjectId) (w : World) :
  ensureObjectId userId = inr u →
  (hd false (faults w) = true →
     addMemberToConversation conversationId userId w = (Failed StoreError, tick w))
  ∧ (hd false (faults w) = false → conversations w !! conversationId = None →
     ∃ line, addMemberToConversation conversationId userId w
             = (Thrown (TypeError line), tick w))
  ∧ (∀ c rest, faults w = false :: true :: rest →
       conversations w !! conversationId = Some c →
       let run := addMemberToConversation conversationId userId w in
       run.1 = Failed StoreError
       ∧ conversations run.2
         = <[conversationId := set_members (add_to_set (c_members c) u) c]>
             (conversations w)
       ∧ published run.2 = published w ++ [(channelAddMember, PDoc (Some c))]).
Proof.
  intros Hu. split_and!.
  - intros Hf. unfold addMemberToConversation. rewrite Hu, bind_run.
    unfold Conversation_findByIdAndUpdate. by rewrite store_access_fault.
  - intros Hf Hc. eexists. by apply (addMemberToConversation_unknown _ _ u).
  - intros c rest Hf Hc run. subst run. unfold addMemberToConversation. rewrite Hu.
    rewrite bind_run, findByIdAndUpdate_ok, Hc, apply_update_addToSet
      by by rewrite Hf.
    cbn [fst snd]. unfold makeAllMessageReadedForAnUserHelper.
    rewrite !bind_run. unfold Conversation_findByIdAndUpdate.
    rewrite store_access_fault by by cbn; rewrite Hf.
    cbn [fst snd callback mret St_ret st_ret]. rewrite bind_run. done.
Qed.

Lemma addMemberToConversation_failures_witness :
  addMemberToConversation general (IdObj bob) down_world
  = (Failed StoreError, tick down_world)
  ∧ (∃ line, addMemberToConversation random (IdObj bob) sample_world
             = (Thrown (TypeError line), tick sample_world))
  ∧ let run := addMemberToConversation general (IdObj bob) failing_world in
    run.1 = Failed StoreError
    ∧ conversations run.2
      = <[general := set_members (add_to_set (c_members general_conversation) bob)
                       general_conversation]> (conversations failing_world)
    ∧ published run.2
      = published failing_world ++ [(channelAddMember, PDoc (Some general_conversation))].
Proof.
  destruct (addMemberToConversation_failures general (IdObj bob) bob down_world)
    as (H1 & _); [reflexivity|].
  destruct (addMemberToConversation_failures random (IdObj bob) bob sample_world)
    as (_ & H2 & _); [reflexivity|].
  destruct (addMemberToConversation_failures general (IdObj bob) bob failing_world)
    as (_ & _ & H3); [reflexivity|].
  split_and!.
  - apply H1. reflexivity.
  - apply H2; reflexivity.
  - apply (H3 general_conversation []); reflexivity.
Defined.

(** What [removeMemberFromConversation] does for an identifier [u] when
    the conversation exists and the store answers. *)
Lemma removeMemberFromConversation_run (conversationId u : ObjectId) (c : Conversation)
    (w : World) :
  conversations w !! conversationId = Some c →
  hd false (faults w) = false →
  let c' := set_numOfReadedMessage (delete u (numOfReadedMessage c))
              (set_members (filter (λ m, m ≠ u) (c_members c)) c) in
  let run := removeMemberFromConversation conversationId (IdObj u) w in
  run.1 = Returned (Some c)
  ∧ conversations run.2 = <[conversationId := c']> (conversations w)
  ∧ published run.2
    = published w
      ++ [(channelUpdateTopic, PUpdate c (JsArray [JsObject [("_id", JsStr u)]]))]
  ∧ messages run.2 = messages w
  ∧ faults run.2 = drop 1 (faults w).
Proof.
  intros Hc Hf c' run. subst run. unfold removeMemberFromConversation.
  cbn [ObjectId_of IdArg_js js_String js_set fields_set].
  rewrite bind_run, findByIdAndUpdate_ok, Hc, apply_update_pull_unset by done.
  cbn [fst snd]. rewrite bind_run. by split_and!.
Qed.

(** X9.  [removeMemberFromConversation] with the identifier of a user,
    on an existing conversation: afterwards the user is no member and has
    no read counter; the other members, the other counters and the
    message count are as before.  The caller and the update event get the
    document as it was before the removal, with the removed user listed
    in [deleteMembers]. *)
Theorem removeMemberFromConversation_member_and_counter (conversationId u : ObjectId)
    (c : Conversation) (w : World) :
  conversations w !! conversationId = Some c →
  hd false (faults w) = false →
  let run := removeMemberFromConversation conversationId (IdObj u) w in
  run.1 = Returned (Some c)
  ∧ published run.2
    = published w
      ++ [(channelUpdateTopic, PUpdate c (JsArray [JsObject [("_id", JsStr u)]]))]
  ∧ ∃ c', conversations run.2 = <[conversationId := c']> (conversations w)
          ∧ (∀ x, x ∈ c_members c' ↔ x ∈ c_members c ∧ x ≠ u)
          ∧ numOfReadedMessage c' !! u = None
          ∧ (∀ k, k ≠ u → numOfReadedMessage c' !! k = numOfReadedMessage c !! k)
          ∧ numOfMessage c' = numOfMessage c.
Proof.
  intros Hc Hf run.
  destruct (removeMemberFromConversation_run conversationId u c w Hc Hf)
    as (Hr & Hcs & Hp & _).
  split_and!; [done|done|]. eexists. split; [exact Hcs|].
  cbn [c_members set_members set_numOfReadedMessage numOfMessage numOfReadedMessage].
  split_and!.
  - intros x. rewrite list_elem_of_filter. tauto.
  - apply lookup_delete_eq.
  - intros k Hk. by apply lookup_delete_ne.
  - done.
Qed.

Lemma removeMemberFromConversation_member_and_counter_witness :
  let run := removeMemberFromConversation general (IdObj alice) sample_world in
  run.1 = Returned (Some general_conversation)
  ∧ published run.2
    = published sample_world
      ++ [(channelUpdateTopic,
           PUpdate general_conversation (JsArray [JsObject [("_id", JsStr alice)]]))]
  ∧ ∃ c', conversations run.2 = <[general := c']> (conversations sample_world)
          ∧ (∀ x, x ∈ c_members c' ↔ x ∈ c_members general_conversation ∧ x ≠ alice)
          ∧ numOfReadedMessage c' !! alice = None
          ∧ (∀ k, k ≠ alice →
               numOfReadedMessage c' !! k = numOfReadedMessage general_conversation !! k)
          ∧ numOfMessage c' = numOfMessage general_conversation.
Proof.
  apply (removeMemberFromConversation_member_and_counter general alice
           general_conversation sample_world); reflexivity.
Defined.

Lemma filter_ne_not_elem_of (u : string) (l : list string) :
  u ∉ l → filter (λ m, m ≠ u) l = l.
Proof.
  induction l as [|x l IH]; [done|].
  intros [Hx Hl]%not_elem_of_cons. rewrite filter_cons_True by done. by rewrite IH.
Qed.

(** X10.  Adding a user who was neither a member nor had a read counter,
    and then removing that user, gives back the conversations as they
    were. *)
Theorem add_then_remove_member (conversationId u : ObjectId) (c : Conversation)
    (w : World) :
  conversations w !! conversationId = Some c →
  c_id c = conversationId →
  u ∉ c_members c →
  numOfReadedMessage c !! u = None →
  healthy 3 w →
  let added := (addMemberToConversation conversationId (IdObj u) w).2 in
  let removed := (removeMemberFromConversation conversationId (IdObj u) added).2 in
  conversations removed = conversations w.
Proof.
  intros Hc Hid Hu Hr Hh added removed.
  destruct (addMemberToConversation_run conversationId u c w Hc Hid)
    as (_ & Hcs & _ & _ & Hf); [by eapply healthy_le, Hh; lia|].
  fold added in Hcs, Hf.
  set (c1 := set_members (add_to_set (c_members c) u) c) in *.
  set (c2 := set_numOfReadedMessage _ c1) in *.
  destruct (removeMemberFromConversation_run conversationId u c2 added)
    as (_ & Hcs2 & _); [by rewrite Hcs, lookup_insert_eq| |].
  { apply (healthy_drop 1 2 w) in Hf; [|done].
    by apply healthy_S in Hf as [? _]. }
  fold removed in Hcs2. rewrite Hcs2, Hcs, insert_insert_eq.
  rewrite <- (insert_id (conversations w) conversationId c) at 2 by done. f_equal.
  subst c2 c1. cbn [c_members numOfReadedMessage set_members set_numOfReadedMessage].
  assert (filter (λ m, m ≠ u) (add_to_set (c_members c) u) = c_members c) as ->.
  { unfold add_to_set. rewrite bool_decide_eq_false_2 by done.
    rewrite filter_app, filter_cons_False, filter_nil, app_nil_r by (by intros []).
    by apply filter_ne_not_elem_of. }
  assert (delete u (max_field (numOfReadedMessage c) (counter_path u, JsNum (numOfMessage c)))
          = numOfReadedMessage c) as ->.
  { apply map_eq. intros k. destruct (decide (k = u)) as [->|Hk].
    - by rewrite lookup_delete_eq.
    - rewrite lookup_delete_ne, max_field_lookup, decide_False by done. done. }
  by destruct c.
Qed.

Lemma add_then_remove_member_witness :
  let added := (addMemberToConversation general (IdObj bob) sample_world).2 in
  let removed := (removeMemberFromConversation general (IdObj bob) added).2 in
  conversations removed = conversations sample_world.
Proof.
  apply (add_then_remove_member general bob general_conversation sample_world).
  - reflexivity.
  - reflexivity.
  - by intros [?|?%elem_of_nil]%elem_of_cons.
  - reflexivity.
  - apply sample_world_healthy.
Defined.

(** X11.  [removeMemberFromConversation] without a document.  When the
    store fails the error is reported and nothing is published.  When the
    conversation does not exist no error is reported: the caller gets
    [null], nothing is stored, and an update event is published all the
    same, with [null] for the conversation. *)
Theorem removeMemberFromConversation_without_document (conversationId u : ObjectId)
    (w : World) :
  (hd false (faults w) = true →
     removeMemberFromConversation conversationId (IdObj u) w
     = (Failed StoreError, tick w))
  ∧ (hd false (faults w) = false → conversations w !! conversationId = None →
     let run := removeMemberFromConversation conversationId (IdObj u) w in
     run.1 = Returned None
     ∧ conversations run.2 = conversations w
     ∧ ∃ event, published run.2 = published w ++ [(channelUpdateTopic, PObject event)]
                ∧ js_get event "conversation" = JsNull
                ∧ js_get event "deleteMembers" = JsArray [JsObject [("_id", JsStr u)]]).
Proof.
  split.
  - intros Hf. unfold removeMemberFromConversation. cbn [ObjectId_of].
    rewrite bind_run. unfold Conversation_findByIdAndUpdate.
    by rewrite store_access_fault.
  - intros Hf Hc run. subst run. unfold removeMemberFromConversation.
    cbn [ObjectId_of]. rewrite bind_run, findByIdAndUpdate_ok, Hc by done.
    cbn [fst snd]. rewrite bind_run. split_and!; [done|done|].
    eexists. split; [reflexivity|]. by split.
Qed.

Lemma removeMemberFromConversation_without_document_witness :
  removeMemberFromConversation general (IdObj alice) down_world
  = (Failed StoreError, tick down_world)
  ∧ let run := removeMemberFromConversation random (IdObj alice) sample_world in
    run.1 = Returned None
    ∧ conversations run.2 = conversations sample_world
    ∧ ∃ event, published run.2
               = published sample_world ++ [(channelUpdateTopic, PObject event)]
               ∧ js_get event "conversation" = JsNull
               ∧ js_get event "deleteMembers" = JsArray [JsObject [("_id", JsStr alice)]].
Proof.
  split.
  - by apply (proj1 (removeMemberFromConversation_without_document general alice
                       down_world)).
  - by apply (proj2 (removeMemberFromConversation_without_document random alice
                       sample_world)).
Defined.

(** ** What every operation keeps *)

(** The operations other than [createConversation] and [getChannels]
    change the conversation collection only by updating a document that
    is there or by removing one.  A property of the collection that such
    steps keep is kept by every one of these operations, whatever the
    arguments, the store failures and the outcome. *)
Section kept.
  Variable P : gmap string Conversation → Prop.
  Hypothesis P_update : ∀ convs id c update,
    P convs → convs !! id = Some c → P (<[id := apply_update update c]> convs).
  Hypothesis P_delete : ∀ convs id, P convs → P (delete id convs).

Lemma on_conversations_convs_only : convs_only (on_conversations P).
Proof. intros w w' E. unfold on_conversations. by rewrite E. Qed.

Lemma kept_frame {A} (m : St A) :
  (∀ w, conversations (m w).2 = conversations w) →
  triple (on_conversations P) m (λ _ w, on_conversations P w).
Proof. intros Hm. apply triple_frame; [apply on_conversations_convs_only|done]. Qed.

Lemma kept_bind {A B} (m : St A) (k : A → St B) :
  triple (on_conversations P) m (λ _ w, on_conversations P w) →
  (∀ a, triple (on_conversations P) (k a) (λ _ w, on_conversations P w)) →
  triple (on_conversations P) (m ≫= k) (λ _ w, on_conversations P w).
Proof. intros Hm Hk. eapply triple_bind; [exact Hm|exact Hk]. Qed.

Lemma kept_ret {A} (a : A) :
  triple (on_conversations P) (mret a) (λ _ w, on_conversations P w).
Proof. by apply triple_ret. Qed.

Lemma findByIdAndUpdate_kept id update new_ :
  triple (on_conversations P) (Conversation_findByIdAndUpdate id update new_)
         (λ _ w, on_conversations P w).
Proof.
  intros w Hw. unfold on_conversations in *.
  destruct (findByIdAndUpdate_effect id update new_ w) as [->|(c & Hc & ->)];
    [done|by apply P_update].
Qed.

Lemma findOneAndRemove_kept id userId :
  triple (on_conversations P) (Conversation_findOneAndRemove id userId)
         (λ _ w, on_conversations P w).
Proof.
  intros w Hw. unfold on_conversations in *.
  unfold Conversation_findOneAndRemove, store_access.
  destruct (faults w) as [|[] ?]; [|done|];
    (cbn [tick conversations]; destruct (conversations w !! id) as [c|]; [|done];
     case_bool_decide; [by apply P_delete|done]).
Qed.

Lemma helper_kept userIds conversation :
  triple (on_conversations P) (makeAllMessageReadedForAnUserHelper userIds conversation)
         (λ _ w, on_conversations P w).
Proof.
  unfold makeAllMessageReadedForAnUserHelper. destruct conversation as [c|].
  - apply kept_bind; [apply findByIdAndUpdate_kept|intros r; apply kept_ret].
  - apply kept_ret.
Qed.

Lemma makeAllMessageReadedForAnUser_kept userId conversationId :
  triple (on_conversations P) (makeAllMessageReadedForAnUser userId conversationId)
         (λ _ w, on_conversations P w).
Proof.
  unfold makeAllMessageReadedForAnUser. apply kept_bind.
  - apply kept_frame, Conversation_findOne_convs.
  - intros [err|conversation]; [apply kept_ret|apply helper_kept].
Qed.

Lemma createMessage_kept message :
  triple (on_conversations P) (createMessage message) (λ _ w, on_conversations P w).
Proof.
  unfold createMessage. destruct (parseMention message) as [e|message'];
    [apply kept_ret|].
  apply kept_bind; [by apply kept_frame|]. intros chatMessage.
  apply kept_bind; [apply kept_frame, ChatMessage_save_convs|].
  intros [err|saved]; [apply kept_ret|].
  apply kept_bind; [apply findByIdAndUpdate_kept|]. intros r.
  apply kept_bind.
  { destruct r as [err|conversation]; [|apply kept_ret].
    apply kept_bind; [by apply kept_frame|intros ?; apply kept_ret]. }
  intros conversation. apply kept_bind; [apply helper_kept|].
  intros [result|err|e]; [|apply kept_ret..].
  apply kept_bind; [apply kept_frame, ChatMessage_populate_convs|].
  intros populated. apply kept_ret.
Qed.

Lemma addMemberToConversation_kept conversationId userId :
  triple (on_conversations P) (addMemberToConversation conversationId userId)
         (λ _ w, on_conversations P w).
Proof.
  unfold addMemberToConversation. destruct (ensureObjectId userId) as [e|u];
    [apply kept_ret|].
  apply kept_bind; [apply findByIdAndUpdate_kept|].
  intros [err|conversation]; [apply kept_ret|].
  apply kept_bind; [apply helper_kept|]. intros marked.
  assert (triple (on_conversations P)
            (publish channelAddMember (PDoc conversation);; mret marked)
            (λ _ w, on_conversations P w)) as Hpub
    by (apply kept_bind; [by apply kept_frame|intros ?; apply kept_ret]).
  destruct marked; [done|done|apply kept_ret].
Qed.

Lemma removeMemberFromConversation_kept conversationId userId :
  triple (on_conversations P) (removeMemberFromConversation conversationId userId)
         (λ _ w, on_conversations P w).
Proof.
  unfold removeMemberFromConversation. destruct (ObjectId_of userId) as [e|u];
    [apply kept_ret|].
  apply kept_bind; [apply findByIdAndUpdate_kept|].
  intros [err|conversation]; [apply kept_ret|].
  apply kept_bind; [by apply kept_frame|intros ?; apply kept_ret].
Qed.

Lemma updateConversation_done_kept modifications mongoModifications next r :
  triple (on_conversations P)
         (updateConversation_done modifications mongoModifications next r)
         (λ _ w, on_conversations P w).
Proof.
  unfold updateConversation_done. destruct r as [err|[conversation|]];
    [apply kept_ret| |apply kept_ret].
  apply kept_bind; [apply kept_frame, Conversation_populate_convs|].
  intros [err|conversation']; [apply kept_ret|].
  apply kept_bind; [by apply kept_frame|]. intros ?.
  destruct (nonempty (newMembers modifications)); [apply helper_kept|apply kept_ret].
Qed.

Lemma updateConversation_kept conversationId modifications :
  triple (on_conversations P) (updateConversation conversationId modifications)
         (λ _ w, on_conversations P w).
Proof.
  unfold updateConversation, Conversation_findOneAndUpdate.
  destruct (updateConversation_modifications modifications) as [e|update];
    [apply kept_ret|].
  destruct (truthy (js_get update "$addToSet") && truthy (js_get update "$pullAll"));
    cbn [truthy].
  - apply kept_bind; [apply findByIdAndUpdate_kept|]. intros r.
    apply kept_bind; [apply findByIdAndUpdate_kept|]. intros r2.
    apply updateConversation_done_kept.
  - apply kept_bind; [apply findByIdAndUpdate_kept|]. intros r.
    apply updateConversation_done_kept.
Qed.

Lemma moderateConversation_kept conversationId moderate :
  triple (on_conversations P) (moderateConversation conversationId moderate)
         (λ _ w, on_conversations P w).
Proof.
  unfold moderateConversation.
  apply kept_bind; [apply findByIdAndUpdate_kept|intros r; apply kept_ret].
Qed.

Lemma updateTopic_kept conversationId topic :
  triple (on_conversations P) (updateTopic conversationId topic)
         (λ _ w, on_conversations P w).
Proof.
  unfold updateTopic. apply kept_bind; [apply findByIdAndUpdate_kept|].
  intros [err|[conversation|]]; [apply kept_ret| |apply kept_ret].
  destruct (c_topic conversation); try apply kept_ret;
    (apply kept_bind; [by apply kept_frame|]; intros now;
     apply kept_bind; [by apply kept_frame|intros ?; apply kept_ret]).
Qed.

Lemma deleteConversation_kept userId channel_ :
  triple (on_conversations P) (deleteConversation userId channel_)
         (λ _ w, on_conversations P w).
Proof.
  unfold deleteConversation. apply kept_bind; [apply findOneAndRemove_kept|].
  intros [err|deleteResult]; [apply kept_ret|].
  apply kept_bind; [by apply kept_frame|]. intros ?.
  apply kept_bind.
  - apply kept_frame. intros w. unfold ChatMessage_remove.
    by apply store_access_convs.
  - intros [err|?]; apply kept_ret.
Qed.

Lemma after_kept call w : on_conversations P w → on_conversations P (after call w).
Proof.
  intros Hw. destruct call; cbn [after].
  - by apply (createMessage_kept message w).
  - by apply (makeAllMessageReadedForAnUser_kept userIds conversationId w).
  - by apply (addMemberToConversation_kept conversationId userId w).
  - by apply (removeMemberFromConversation_kept conversationId userId w).
  - by apply (updateConversation_kept conversationId modifications w).
  - by apply (moderateConversation_kept conversationId moderate w).
  - by apply (updateTopic_kept conversationId topic w).
  - by apply (deleteConversation_kept userId conversationId w).
Qed.

Lemma after_all_kept calls : ∀ w,
  on_conversations P w → on_conversations P (after_all calls w).
Proof.
  unfold after_all. induction calls as [|call calls IH]; intros w Hw; [done|].
  cbn [foldl]. by apply IH, after_kept.
Qed.

End kept.

(** The members of a document after an update. *)
Lemma apply_update_members update c :
  NoDup (c_members c) → NoDup (c_members (apply_update update c)).
Proof.
  intros Hc. unfold apply_update.
  assert (∀ op c, c_members (apply_set op c) = c_members c) as Hset.
  { intros [| | | | | |fs] c0; try done. cbn [apply_set].
    revert c0. induction fs as [|[k v] fs IH]; intros c0; [done|]. cbn [foldl].
    rewrite IH. unfold apply_set_field. repeat case_bool_decide; try done.
    by destruct v. }
  assert (∀ op c, c_members (apply_inc op c) = c_members c) as Hinc
    by (intros op c0; unfold apply_inc; by destruct (js_get op "numOfMessage")).
  assert (∀ op c, c_members (apply_max op c) = c_members c) as Hmax
    by (by intros [] c0).
  assert (∀ op c, c_members (apply_unset op c) = c_members c) as Hunset
    by (by intros [] c0).
  assert (∀ op c, NoDup (c_members c) → NoDup (c_members (apply_addToSet op c)))
    as Hadd.
  { intros op c0 H0. unfold apply_addToSet.
    destruct (js_get op "members") as [| | | | | |fs]; try done;
      cbn [c_members set_members].
    - by apply add_to_set_NoDup.
    - generalize (js_ids (fields_get fs "$each")). intros ids.
      revert H0. generalize (c_members c0). induction ids as [|x ids IH]; [done|].
      intros l Hl. cbn [foldl]. by apply IH, add_to_set_NoDup. }
  assert (∀ op c, NoDup (c_members c) → NoDup (c_members (apply_pullAll op c)))
    as Hpull.
  { intros op c0 H0. unfold apply_pullAll.
    destruct (js_get op "members"); try done. by apply NoDup_filter. }
  assert (∀ op c, NoDup (c_members c) → NoDup (c_members (apply_pull op c)))
    as Hpull1.
  { intros op c0 H0. unfold apply_pull.
    destruct (js_get op "members"); try done. by apply NoDup_filter. }
  rewrite Hunset. apply Hpull1, Hpull, Hadd. by rewrite Hmax, Hinc, Hset.
Qed.

(** X12.  No sequence of calls of the writing operations makes a
    conversation list a member twice: when no conversation does before,
    none does after, whatever the arguments, the store failures and the
    outcomes. *)
Theorem members_stay_distinct (calls : list Call) (w : World) :
  members_NoDup (conversations w) →
  members_NoDup (conversations (after_all calls w)).
Proof.
  apply (after_all_kept members_NoDup).
  - intros convs id c update Hconvs Hc id' c'.
    destruct (decide (id' = id)) as [->|Hne].
    + rewrite lookup_insert_eq. intros [= <-]. apply apply_update_members.
      by apply (Hconvs id c).
    + rewrite lookup_insert_ne by done. apply Hconvs.
  - intros convs id Hconvs id' c' [_ Hc]%lookup_delete_Some. by apply (Hconvs id').
Qed.

Lemma members_stay_distinct_witness :
  members_NoDup (conversations (after_all sample_calls sample_world)).
Proof.
  apply (members_stay_distinct sample_calls sample_world).
  intros id c Hc.
  change (({[general := general_conversation]} : gmap string Conversation) !! id = Some c)
    in Hc.
  apply lookup_singleton_Some in Hc as [<- <-]. apply NoDup_singleton.
Defined.

Lemma apply_update_type_count update c :
  c_type (apply_update update c) = c_type c
  ∧ numOfMessage c ≤ numOfMessage (apply_update update c).
Proof.
  unfold apply_update.
  assert (∀ op c, c_type (apply_set op c) = c_type c) as Hset.
  { intros [| | | | | |fs] c0; try done. cbn [apply_set].
    revert c0. induction fs as [|[k v] fs IH]; intros c0; [done|]. cbn [foldl].
    rewrite IH. unfold apply_set_field. repeat case_bool_decide; try done.
    by destruct v. }
  assert (∀ op c, c_type (apply_inc op c) = c_type c) as Hinc
    by (intros op c0; unfold apply_inc; by destruct (js_get op "numOfMessage")).
  assert (∀ op c, c_type (apply_max op c) = c_type c) as Hmax by (by intros [] c0).
  assert (∀ op c, c_type (apply_unset op c) = c_type c) as Hunset by (by intros [] c0).
  assert (∀ op c, c_type (apply_addToSet op c) = c_type c) as Hadd
    by (intros op c0; unfold apply_addToSet; by destruct (js_get op "members")).
  assert (∀ op c, c_type (apply_pullAll op c) = c_type c) as Hpull
    by (intros op c0; unfold apply_pullAll; by destruct (js_get op "members")).
  assert (∀ op c, c_type (apply_pull op c) = c_type c) as Hpull1
    by (intros op c0; unfold apply_pull; by destruct (js_get op "members")).
  split.
  - by rewrite Hunset, Hpull1, Hpull, Hadd, Hmax, Hinc, Hset.
  - rewrite (proj2 (apply_unset_proj _ _)).
    rewrite (proj1 (proj2 (apply_pull_proj _ _))).
    rewrite (proj1 (proj2 (apply_pullAll_proj _ _))).
    rewrite (proj1 (proj2 (apply_addToSet_proj _ _))).
    rewrite (proj2 (apply_max_proj _ _)).
    etrans; [|apply apply_inc_proj]. by rewrite (proj1 (proj2 (apply_set_proj _ _))).
Qed.

(** X13.  The message count of a conversation never decreases and its
    type never changes: after any sequence of calls of the writing
    operations the conversation, when it is still there, has the type it
    had and at least as many messages counted. *)
Theorem message_count_never_decreases (calls : list Call) (conversationId : ObjectId)
    (c c' : Conversation) (w : World) :
  conversations w !! conversationId = Some c →
  conversations (after_all calls w) !! conversationId = Some c' →
  c_type c' = c_type c ∧ numOfMessage c ≤ numOfMessage c'.
Proof.
  intros Hc Hc'.
  apply (after_all_kept (at_least conversationId (c_type c) (numOfMessage c))
           ) with (calls := calls) (w := w); [..|done].
  - intros convs id c0 update Hconvs Hc0 c1.
    destruct (decide (conversationId = id)) as [->|Hne].
    + rewrite lookup_insert_eq. intros [= <-].
      destruct (Hconvs c0 Hc0) as [Ht Hn], (apply_update_type_count update c0) as [-> ?].
      split; [done|lia].
    + rewrite lookup_insert_ne by done. apply Hconvs.
  - intros convs id Hconvs c1 [_ Hc1]%lookup_delete_Some. by apply Hconvs.
  - intros c1 Hc1. unfold on_conversations in *. by simplify_eq.
Qed.

Lemma message_count_never_decreases_witness :
  ∃ c', conversations
          (after_all [call_createMessage (sample_input "hello");
                      call_addMemberToConversation general (IdObj bob)] sample_world)
          !! general = Some c'
        ∧ c_type c' = c_type general_conversation
        ∧ numOfMessage general_conversation ≤ numOfMessage c'.
Proof.
  eexists. split; [vm_compute; reflexivity|].
  apply (message_count_never_decreases
           [call_createMessage (sample_input "hello");
            call_addMemberToConversation general (IdObj bob)] general
           general_conversation _ sample_world).
  - reflexivity.
  - vm_compute. reflexivity.
Defined.

(** X14.  None of the writing operations creates a conversation: an
    identifier without a document has none after any sequence of calls
    (no update inserts a document that is missing). *)
Theorem no_conversation_created (calls : list Call) (conversationId : ObjectId)
    (w : World) :
  conversations w !! conversationId = None →
  conversations (after_all calls w) !! conversationId = None.
Proof.
  intros Hc. apply eq_None_not_Some. intros Hsome.
  assert (none_created (conversations w) (conversations (after_all calls w))) as Hnone.
  { apply (after_all_kept (none_created (conversations w))); [..|by intros ??].
    - intros convs id c0 update Hconvs Hc0 id'.
      destruct (decide (id' = id)) as [->|Hne].
      + intros _. apply Hconvs. by rewrite Hc0.
      + rewrite lookup_insert_ne by done. apply Hconvs.
    - intros convs id Hconvs id' [c1 [_ Hc1]%lookup_delete_Some]. apply Hconvs.
      by rewrite Hc1. }
  apply Hnone in Hsome. rewrite Hc in Hsome. by destruct Hsome.
Qed.

Lemma no_conversation_created_witness :
  conversations
    (after_all [call_createMessage
                  {| i_channel := random; i_creator := alice; i_text := Some "hello";
                     i_user_mentions := []; i_moderate := false; i_creation := None |};
                call_addMemberToConversation random (IdObj bob);
                call_updateTopic random new_topic] sample_world) !! random = None.
Proof.
  apply (no_conversation_created _ random sample_world). reflexivity.
Defined.

(** ** The read-counter invariant, for every writing operation *)

Lemma findByIdAndUpdate_no_max_inv id update new_ :
  js_get update "$max" = JsUndefined →
  triple inv (Conversation_findByIdAndUpdate id update new_) (λ _ w, inv w).
Proof.
  intros Hmax.
  eapply triple_conseq; [apply findByIdAndUpdate_triple| |by intros a w [H _]].
  intros w Hinv. split; [done|]. intros c _. by rewrite Hmax.
Qed.

Lemma inv_bind {A B} (m : St A) (k : A → St B) :
  triple inv m (λ _ w, inv w) → (∀ a, triple inv (k a) (λ _ w, inv w)) →
  triple inv (m ≫= k) (λ _ w, inv w).
Proof. intros Hm Hk. eapply triple_bind; [exact Hm|exact Hk]. Qed.

Lemma inv_frame {A} (m : St A) :
  (∀ w, conversations (m w).2 = conversations w) → triple inv m (λ _ w, inv w).
Proof. intros Hm. apply triple_frame; [apply inv_convs_only|done]. Qed.

Lemma inv_ret {A} (a : A) : triple inv (mret a) (λ _ w, inv w).
Proof. by apply triple_ret. Qed.

Lemma removeMemberFromConversation_inv conversationId userId :
  triple inv (removeMemberFromConversation conversationId userId) (λ _ w, inv w).
Proof.
  unfold removeMemberFromConversation. destruct (ObjectId_of userId) as [e|u];
    [apply inv_ret|].
  apply inv_bind; [by apply findByIdAndUpdate_no_max_inv|].
  intros [err|conversation]; [apply inv_ret|].
  apply inv_bind; [by apply inv_frame|intros ?; apply inv_ret].
Qed.

Lemma moderateConversation_inv conversationId moderate :
  triple inv (moderateConversation conversationId moderate) (λ _ w, inv w).
Proof.
  unfold moderateConversation.
  apply inv_bind; [by apply findByIdAndUpdate_no_max_inv|intros r; apply inv_ret].
Qed.

Lemma updateTopic_inv conversationId topic :
  triple inv (updateTopic conversationId topic) (λ _ w, inv w).
Proof.
  unfold updateTopic. apply inv_bind; [by apply findByIdAndUpdate_no_max_inv|].
  intros [err|[conversation|]]; [apply inv_ret| |apply inv_ret].
  destruct (c_topic conversation); try apply inv_ret;
    (apply inv_bind; [by apply inv_frame|]; intros now;
     apply inv_bind; [by apply inv_frame|intros ?; apply inv_ret]).
Qed.

Lemma deleteConversation_inv userId channel_ :
  triple inv (deleteConversation userId channel_) (λ _ w, inv w).
Proof.
  unfold deleteConversation. apply inv_bind.
  - intros w [Hwf Hr]. unfold Conversation_findOneAndRemove, store_access.
    destruct (faults w) as [|[] ?]; [|done|];
      (cbn [tick conversations]; destruct (conversations w !! channel_) as [c|]; [|done];
       case_bool_decide; [|done]; split; intros id c' Hd;
       cbn [snd with_conversations conversations tick] in Hd;
       apply lookup_delete_Some in Hd as [_ Hd]; [by apply Hwf|by apply (Hr id)]).
  - intros [err|deleteResult]; [apply inv_ret|].
    apply inv_bind; [by apply inv_frame|]. intros ?.
    apply inv_bind.
    + apply inv_frame. intros w. unfold ChatMessage_remove. by apply store_access_convs.
    + intros [err|?]; apply inv_ret.
Qed.

(** X15.  The read counters stay within the message count under every
    writing operation and every sequence of them.  When every document is
    stored under its own identifier and every read counter a conversation
    records is at most its message count, this is still so after any
    sequence of calls, whatever the arguments, the store failures and the
    outcomes; so it is for the counters of the members. *)
Theorem read_invariant_kept_by_calls (calls : list Call) (w : World) :
  store_wf w →
  read_invariant w →
  store_wf (after_all calls w)
  ∧ read_invariant (after_all calls w)
  ∧ member_invariant (after_all calls w).
Proof.
  intros Hwf Hr.
  assert (inv (after_all calls w)) as [Hwf' Hr'].
  { assert (inv w) as Hinv by done. clear Hwf Hr. revert w Hinv. unfold after_all.
    induction calls as [|call calls IH]; intros w Hinv; [done|].
    cbn [foldl]. apply IH. destruct call; cbn [after].
    - by apply (createMessage_inv message w).
    - by apply (makeAllMessageReadedForAnUser_inv userIds conversationId w).
    - by apply (addMemberToConversation_inv conversationId userId w).
    - by apply (removeMemberFromConversation_inv conversationId userId w).
    - by apply (updateConversation_inv conversationId modifications w).
    - by apply (moderateConversation_inv conversationId moderate w).
    - by apply (updateTopic_inv conversationId topic w).
    - by apply (deleteConversation_inv userId conversationId w). }
  split_and!; [done|done|by apply read_invariant_members].
Qed.

Lemma read_invariant_kept_by_calls_witness :
  store_wf (after_all sample_calls sample_world)
  ∧ read_invariant (after_all sample_calls sample_world)
  ∧ member_invariant (after_all sample_calls sample_world).
Proof.
  apply (read_invariant_kept_by_calls sample_calls sample_world).
  - exact sample_world_wf.
  - exact sample_world_read_invariant.
Defined.

(** ** createMessage and countMessages *)

(** What [createMessage] does when the message has a text, the
    conversation exists and the store answers. *)
Lemma createMessage_run (message : MessageInput) (text_ : string) (c : Conversation)
    (w : World) :
  c_id c = i_channel message →
  i_text message = Some text_ →
  conversations w !! i_channel message = Some c →
  healthy 4 w →
  let m := {| channel := i_channel message; creator := i_creator message;
              text := text_;
              user_mentions := mention_id <$> uniq (match_mentions text_);
              m_moderate := i_moderate message;
              timestamps_creation := default (clock w) (i_creation message) |} in
  let c1 := apply_update
              (JsObject [("$set", JsObject [("last_message", last_message_of m)]);
                         ("$inc", JsObject [("numOfMessage", JsNum 1)])]) c in
  let c2 := set_numOfReadedMessage
              (max_field (numOfReadedMessage c1)
                 (counter_path (i_creator message), JsNum (numOfMessage c))) c1 in
  let run := createMessage message w in
  run.1 = Returned m
  ∧ conversations run.2 = <[i_channel message := c2]> (conversations w)
  ∧ messages run.2 = messages w ++ [m]
  ∧ published run.2 = published w
  ∧ faults run.2 = drop 4 (faults w).
Proof.
  intros Hid Ht Hc Hh m c1 c2 run. subst run. unfold createMessage.
  rewrite (parseMention_eq _ _ Ht).
  destruct w as [convs msgs pub lg fl acc clk]. unfold healthy in Hh.
  cbn [conversations faults clock messages published] in *.
  st_unfold. cbn -[lookup insert apply_update]. rewrite Ht.
  destruct fl as [|[] [|[] [|[] [|[] fl]]]];
    try (exfalso; apply Hh; by repeat constructor).
  all: cbn -[lookup insert apply_update]; rewrite Hc.
  all: cbn -[lookup insert apply_update]; rewrite Hid, lookup_insert_eq.
  all: cbn -[lookup insert apply_update]; rewrite insert_insert_eq.
  all: by rewrite apply_update_max_one.
Qed.

(** X16.  After a successful [createMessage] the read counter of the
    creator is the larger of its former value and the message count
    before this message, because the count is read from the document as
    it was before the update; the counters of the other users are as
    before.  The message count is one more, so when the counters were
    within the count the creator's own message counts as unread for the
    creator. *)
Theorem createMessage_creator_counter (message : MessageInput) (text_ : string)
    (c : Conversation) (w : World) :
  c_id c = i_channel message →
  i_text message = Some text_ →
  conversations w !! i_channel message = Some c →
  healthy 4 w →
  ∃ c', conversations (createMessage message w).2 !! i_channel message = Some c'
        ∧ numOfMessage c' = numOfMessage c + 1
        ∧ numOfReadedMessage c' !! i_creator message =
            Some (max_read (numOfReadedMessage c !! i_creator message) (numOfMessage c))
        ∧ (∀ u, u ≠ i_creator message →
             numOfReadedMessage c' !! u = numOfReadedMessage c !! u)
        ∧ (counters_bounded c →
           ∃ r, numOfReadedMessage c' !! i_creator message = Some r
                ∧ r < numOfMessage c').
Proof.
  intros Hid Ht Hc Hh.
  destruct (createMessage_run message text_ c w Hid Ht Hc Hh) as (_ & Hcs & _).
  rewrite Hcs, lookup_insert_eq. eexists. split; [done|].
  cbn [numOfMessage numOfReadedMessage set_numOfReadedMessage].
  match goal with
  | |- context [apply_update ?u c] =>
      pose proof (apply_update_counters u c eq_refl eq_refl) as Hk;
      destruct (apply_update_summary (last_message_of
        {| channel := i_channel message; creator := i_creator message; text := text_;
           user_mentions := mention_id <$> uniq (match_mentions text_);
           m_moderate := i_moderate message;
           timestamps_creation := default (clock w) (i_creation message) |}) c)
        as [Hn _]
  end.
  cbn zeta in Hn. rewrite Hn.
  split_and!.
  - done.
  - by rewrite max_field_lookup, decide_True, Hk.
  - intros u Hu. by rewrite max_field_lookup, decide_False, Hk.
  - intros Hb. rewrite max_field_lookup, decide_True, Hk by done.
    eexists. split; [done|]. unfold max_read.
    destruct (numOfReadedMessage c !! i_creator message) as [r|] eqn:Hr; [|lia].
    specialize (Hb _ _ Hr). lia.
Qed.

Lemma createMessage_creator_counter_witness :
  ∃ c', conversations (createMessage (sample_input "hello") sample_world).2
          !! general = Some c'
        ∧ numOfMessage c' = numOfMessage general_conversation + 1
        ∧ numOfReadedMessage c' !! alice =
            Some (max_read (numOfReadedMessage general_conversation !! alice)
                           (numOfMessage general_conversation))
        ∧ (∀ u, u ≠ alice →
             numOfReadedMessage c' !! u = numOfReadedMessage general_conversation !! u)
        ∧ ∃ r, numOfReadedMessage c' !! alice = Some r ∧ r < numOfMessage c'.
Proof.
  destruct (createMessage_creator_counter (sample_input "hello") "hello"
              general_conversation sample_world)
    as (c' & Hc' & Hn & Ha & Ho & Hb).
  - reflexivity.
  - reflexivity.
  - reflexivity.
  - apply sample_world_healthy.
  - exists c'. split_and!; [exact Hc'|exact Hn|exact Ha|exact Ho|].
    apply Hb. exact (sample_world_read_invariant general general_conversation eq_refl).
Defined.

(** X17.  [createMessage] where it cannot complete.  A message without a
    text is refused with a [TypeError] before the store is touched.  A
    message for a conversation that does not exist is saved all the same:
    the call ends in a [TypeError], the message stays in the collection
    and no conversation is written. *)
Theorem createMessage_unknown_conversation (message : MessageInput) (w : World) :
  (i_text message = None → ∃ line, createMessage message w = (Thrown (TypeError line), w))
  ∧ (∀ text_, i_text message = Some text_ →
       conversations w !! i_channel message = None →
       healthy 2 w →
       let run := createMessage message w in
       (∃ line, run.1 = Thrown (TypeError line))
       ∧ conversations run.2 = conversations w
       ∧ ∃ m, messages run.2 = messages w ++ [m]
              ∧ channel m = i_channel message ∧ text m = text_).
Proof.
  split.
  - intros Ht. unfold createMessage, parseMention. rewrite Ht. by eexists.
  - intros text_ Ht Hc Hh run. subst run. unfold createMessage.
    rewrite (parseMention_eq _ _ Ht).
    destruct w as [convs msgs pub lg fl acc clk]. unfold healthy in Hh.
    cbn [conversations faults clock messages published] in *.
    st_unfold. cbn -[lookup insert apply_update]. rewrite Ht.
    destruct fl as [|[] [|[] fl]]; try (exfalso; apply Hh; by repeat constructor).
    all: cbn -[lookup insert apply_update]; rewrite Hc.
    all: cbn -[lookup insert apply_update].
    all: split_and!; [by eexists|done|by eexists].
Qed.

Lemma createMessage_unknown_conversation_witness :
  let lost := {| i_channel := random; i_creator := alice; i_text := Some "hello";
                 i_user_mentions := []; i_moderate := false; i_creation := None |} in
  let run := createMessage lost sample_world in
  (∃ line, run.1 = Thrown (TypeError line))
  ∧ conversations run.2 = conversations sample_world
  ∧ ∃ m, messages run.2 = messages sample_world ++ [m]
         ∧ channel m = random ∧ text m = "hello".
Proof.
  apply (proj2 (createMessage_unknown_conversation
                  {| i_channel := random; i_creator := alice; i_text := Some "hello";
                     i_user_mentions := []; i_moderate := false; i_creation := None |}
                  sample_world) "hello").
  - reflexivity.
  - reflexivity.
  - apply sample_world_healthy.
Defined.

Lemma countMessages_ok (conversation : ObjectId) (w : World) :
  hd false (faults w) = false →
  (countMessages conversation w).1
  = Returned (List.length (filter (λ m, channel m = conversation) (messages w))).
Proof.
  intros Hf. unfold countMessages, ChatMessage_count.
  by rewrite bind_run, store_access_ok.
Qed.

(** X18.  [countMessages] after a successful [createMessage]: one more
    for the conversation of the message, and the same as before for any
    other conversation.  Moderated messages are counted as well. *)
Theorem countMessages_after_createMessage (message : MessageInput) (text_ : string)
    (c : Conversation) (other : ObjectId) (w : World) :
  c_id c = i_channel message →
  i_text message = Some text_ →
  conversations w !! i_channel message = Some c →
  healthy 5 w →
  let w' := (createMessage message w).2 in
  (countMessages (i_channel message) w').1
  = Returned (S (List.length (filter (λ m, channel m = i_channel message) (messages w))))
  ∧ (other ≠ i_channel message →
     (countMessages other w').1
     = Returned (List.length (filter (λ m, channel m = other) (messages w)))).
Proof.
  intros Hid Ht Hc Hh w'.
  destruct (createMessage_run message text_ c w Hid Ht Hc) as (_ & _ & Hm & _ & Hf);
    [by eapply healthy_le, Hh; lia|].
  fold w' in Hm, Hf.
  assert (hd false (faults w') = false) as Hf'.
  { apply (healthy_drop 1 4 w) in Hf; [|done]. by apply healthy_S in Hf as [? _]. }
  rewrite !countMessages_ok, Hm, !filter_app by done. split.
  - rewrite filter_cons_True, filter_nil, length_app by done. cbn. f_equal. lia.
  - intros Hne. rewrite filter_cons_False, filter_nil, app_nil_r by (by cbn). done.
Qed.

Lemma countMessages_after_createMessage_witness :
  let w' := (createMessage (sample_input "hello") sample_world).2 in
  (countMessages general w').1
  = Returned (S (List.length (filter (λ m, channel m = general) (messages sample_world))))
  ∧ (countMessages random w').1
    = Returned (List.length (filter (λ m, channel m = random) (messages sample_world))).
Proof.
  destruct (countMessages_after_createMessage (sample_input "hello") "hello"
              general_conversation random sample_world) as [H1 H2].
  - reflexivity.
  - reflexivity.
  - reflexivity.
  - apply sample_world_healthy.
  - split; [exact H1|]. apply H2. discriminate.
Defined.

(** ** getMessages and listMessage: pages *)

Lemma getMessages_ok (conversation : ConversationArg) (query : option MessagesQuery)
    (w : World) :
  hd false (faults w) = false →
  (getMessages conversation query w).1
  = Returned (reverse (take (number_or (query ≫= q_limit) 20)
       (drop (number_or (query ≫= q_offset) 0)
          (merge_sort newer_first
             (filter (λ m, channel m = match conversation with
                                       | ByDocument c => c_id c
                                       | ById id => id
                                       end ∧ m_moderate m = false) (messages w)))))).
Proof.
  intros Hf. unfold getMessages, ChatMessage_find_page, mbind, St_bind, st_bind.
  rewrite store_access_ok by done. cbn [fst snd tick messages].
  destruct query as [[qm [[|?]|] [[|?]|]]|];
    cbn -[merge_sort filter truthy]; try destruct (truthy qm); reflexivity.
Qed.



(** X20.  The size of a page of [getMessages]: the limit, or what is left
    of the messages of the conversation that are not moderated once the
    offset is skipped, whichever is less.  A limit that is missing or [0]
    stands for 20, an offset that is missing for [0]. *)
Theorem getMessages_page_size (conversation : ConversationArg)
    (query : option MessagesQuery) (w : World) :
  hd false (faults w) = false →
  let conversationId := match conversation with ByDocument c => c_id c | ById id => id end in
  let visible := List.length (filter (λ m, channel m = conversationId ∧ m_moderate m = false)
                                     (messages w)) in
  ∃ page, (getMessages conversation query w).1 = Returned page
          ∧ List.length page
            = (number_or (query ≫= q_limit) 20)
                `min` (visible - number_or (query ≫= q_offset) 0)
          ∧ (query ≫= q_limit = None ∨ query ≫= q_limit = Some 0 →
             List.length page ≤ 20).
Proof.
  intros Hf conversationId visible. rewrite getMessages_ok by done.
  eexists. split; [done|].
  rewrite length_reverse, length_take, length_drop.
  rewrite (Permutation_length (merge_sort_Permutation _ _)). fold conversationId visible.
  split; [done|]. intros [->| ->]; cbn [number_or]; lia.
Qed.

Lemma getMessages_page_size_witness :
  let visible := List.length (filter (λ m, channel m = general ∧ m_moderate m = false)
                                     (messages sample_world)) in
  ∃ page, (getMessages (ById general) (Some second_page) sample_world).1 = Returned page
          ∧ List.length page
            = (number_or (Some second_page ≫= q_limit) 20)
                `min` (visible - number_or (Some second_page ≫= q_offset) 0).
Proof.
  destruct (getMessages_page_size (ById general) (Some second_page) sample_world)
    as (page & Hp & Hl & _).
  - reflexivity.
  - exists page. split; [exact Hp|exact Hl].
Defined.

#[local] Instance older_first_trans : Transitive older_first.
Proof. unfold older_first. intros a b c ??. lia. Qed.

#[local] Instance older_first_total : Total older_first.
Proof. unfold older_first. intros a b. lia. Qed.

(** X21.  [listMessage] answers the number of all messages the creator
    filter selects, whatever the page asked for, together with one page
    of them, oldest first: the selected messages are sorted by creation
    time, the offset is skipped and at most [limit] messages are kept; a
    limit of [0], which only a default of [0] can give, keeps them all.
    Moderated messages are listed like the others. *)
Theorem listMessage_page (DEFAULT_LIMIT DEFAULT_OFFSET : nat)
    (options : option ListOptions) (w : World) :
  healthy 2 w →
  let limit := number_or (options ≫= l_limit) DEFAULT_LIMIT in
  let offset := number_or (options ≫= l_offset) DEFAULT_OFFSET in
  let selected := filter (by_creator (options ≫= l_creator)) (messages w) in
  ∃ oldest_first page,
    oldest_first ≡ₚ selected
    ∧ StronglySorted older_first oldest_first
    ∧ (listMessage DEFAULT_LIMIT DEFAULT_OFFSET options w).1
      = Returned {| total_count := List.length selected; list_ := page |}
    ∧ page = (if decide (0 < limit) then take limit (drop offset oldest_first)
              else drop offset oldest_first)
    ∧ StronglySorted older_first page
    ∧ List.length page ≤ List.length selected.
Proof.
  intros [Hf1 [Hf2 _]%healthy_S]%healthy_S limit offset selected.
  exists (merge_sort older_first selected).
  assert (StronglySorted older_first (merge_sort older_first selected)) as Hs
    by apply (StronglySorted_merge_sort _).
  eexists. split_and!; [apply merge_sort_Permutation|done| |reflexivity| |].
  - unfold listMessage, ChatMessage_count_query, ChatMessage_find_sorted.
    rewrite bind_run, store_access_ok by done. cbn [fst snd].
    rewrite bind_run, store_access_ok by done. cbn [fst snd tick messages].
    subst limit offset selected. destruct options as [[ll lo lc]|];
      cbn -[merge_sort filter number_or Nat.ltb decide].
    + destruct (number_or ll DEFAULT_LIMIT); [done|].
      by rewrite decide_True by lia.
    + cbn [number_or]. destruct DEFAULT_LIMIT; [done|]. by rewrite decide_True by lia.
  - destruct (decide (0 < limit)).
    + by apply StronglySorted_take_drop.
    + rewrite <- (take_drop offset (merge_sort older_first selected)) in Hs.
      by apply StronglySorted_app_1_r in Hs.
  - rewrite <- (Permutation_length (merge_sort_Permutation older_first selected)).
    destruct (decide (0 < limit)); rewrite ?length_take, length_drop; lia.
Qed.

Lemma listMessage_page_witness :
  let limit := number_or (Some {| l_limit := Some 2; l_offset := Some 1;
                                  l_creator := Some alice |} ≫= l_limit) 10 in
  let offset := number_or (Some {| l_limit := Some 2; l_offset := Some 1;
                                   l_creator := Some alice |} ≫= l_offset) 0 in
  let selected := filter (by_creator (Some alice)) (messages two_worlds) in
  ∃ oldest_first page,
    oldest_first ≡ₚ selected
    ∧ StronglySorted older_first oldest_first
    ∧ (listMessage 10 0 (Some {| l_limit := Some 2; l_offset := Some 1;
                                 l_creator := Some alice |}) two_worlds).1
      = Returned {| total_count := List.length selected; list_ := page |}
    ∧ page = (if decide (0 < limit) then take limit (drop offset oldest_first)
              else drop offset oldest_first)
    ∧ StronglySorted older_first page
    ∧ List.length page ≤ List.length selected.
Proof.
  apply (listMessage_page 10 0
           (Some {| l_limit := Some 2; l_offset := Some 1; l_creator := Some alice |})
           two_worlds).
  unfold healthy. cbn. apply not_elem_of_nil.
Defined.

(** ** findConversation: what the answer holds *)

#[local] Instance latest_first_trans : Transitive latest_first.
Proof. unfold latest_first. intros a b c ??. lia. Qed.

#[local] Instance latest_first_total : Total latest_first.
Proof. unfold latest_first. intros a b. lia. Qed.

Lemma matches_cons c kv fs :
  matches c (JsObject (kv :: fs))
  = (if bool_decide (kv.1 = "$or") then
       match kv.2 with
       | JsArray alts =>
           (fix any (l : list JsVal) : bool :=
              match l with
              | [] => false
              | r :: l' => matches c r || any l'
              end) alts
       | _ => false
       end
     else matches_field c kv.1 kv.2)
    && matches c (JsObject fs).
Proof. reflexivity. Qed.

Lemma matches_elem c fs k v :
  matches c (JsObject fs) = true → (k, v) ∈ fs → k ≠ "$or" →
  matches_field c k v = true.
Proof.
  intros Hm Hin Hk. induction fs as [|kv fs IH]; [by apply elem_of_nil in Hin|].
  rewrite matches_cons in Hm. apply andb_true_iff in Hm as [Hhd Htl].
  apply elem_of_cons in Hin as [<-|Hin]; [|by apply IH].
  cbn [fst snd] in Hhd. by rewrite bool_decide_eq_false_2 in Hhd.
Qed.

Lemma fields_get_elem fs k v : fields_get fs k = v → v ≠ JsUndefined → (k, v) ∈ fs.
Proof.
  induction fs as [|[k' v'] fs IH]; cbn [fields_get]; [congruence|].
  destruct (decide (k' = k)) as [->|]; [intros -> _; by left|].
  intros ??. right. by apply IH.
Qed.

Lemma js_get_set_eq fs k v : js_get (js_set (JsObject fs) k v) k = v.
Proof.
  cbn [js_set js_get]. induction fs as [|[k' v'] fs IH]; cbn [fields_set fields_get].
  - by rewrite decide_True.
  - destruct (decide (k' = k)) as [->|]; cbn [fields_get].
    + by rewrite decide_True.
    + by rewrite decide_False.
Qed.

(** The query document [findConversation] builds always asks for the
    moderation flag of the options. *)
Lemma findConversation_request_moderate options request :
  findConversation_request options = inr request →
  js_get request "moderate" = JsBool (o_moderate options).
Proof.
  unfold findConversation_request.
  destruct (o_exactMembersMatch options && _); [done|].
  destruct (o_ignoreMemberFilterForChannel options && negb _); [done|].
  set (r0 := JsObject [("moderate", JsBool (o_moderate options))]).
  assert (js_get r0 "moderate" = JsBool (o_moderate options)) as H0 by done.
  destruct (match o_members options with Some _ => _ | None => _ end)
    as [e|r1] eqn:H1; [done|].
  assert (js_get r1 "moderate" = JsBool (o_moderate options)) as Hr1.
  { destruct (o_members options); [|by simplify_eq].
    destruct (map_ObjectId id l); simplify_eq. by rewrite js_get_set_ne. }
  clear H1 H0. cbn zeta.
  set (r2 := if type_truthy (o_type options) then _ else r1).
  assert (js_get r2 "moderate" = JsBool (o_moderate options)) as Hr2
    by (subst r2; destruct (type_truthy _); by rewrite ?js_get_set_ne).
  set (r3 := if truthy (o_name options) then _ else r2).
  assert (js_get r3 "moderate" = JsBool (o_moderate options)) as Hr3
    by (subst r3; destruct (truthy _); by rewrite ?js_get_set_ne).
  set (r4 := match o_name options with JsNull => _ | _ => r3 end).
  assert (js_get r4 "moderate" = JsBool (o_moderate options)) as Hr4
    by (subst r4; destruct (o_name options); by rewrite ?js_get_set_ne).
  set (r5 := if o_ignoreMemberFilterForChannel options && _ then _ else r4).
  assert (js_get r5 "moderate" = JsBool (o_moderate options)) as Hr5
    by (subst r5; by destruct (_ && _)).
  destruct (o_exactMembersMatch options); [|by intros [= <-]].
  destruct (js_get r5 "members"); try done. intros [= <-]. by rewrite js_get_set_ne.
Qed.

Lemma Conversation_find_ok request w :
  hd false (faults w) = false →
  (Conversation_find request w).1
  = inr (merge_sort latest_first
           (filter (λ c, matches c request = true) (map_to_list (conversations w)).*2)).
Proof. intros Hf. unfold Conversation_find. by rewrite store_access_ok. Qed.

Lemma findConversation_returned options w result :
  (findConversation options w).1 = Returned result →
  ∃ request, findConversation_request options = inr request
             ∧ result = merge_sort latest_first
                 (filter (λ c, matches c request = true)
                         (map_to_list (conversations w)).*2).
Proof.
  unfold findConversation.
  destruct (findConversation_request options) as [e|request]; [done|].
  rewrite bind_run. unfold Conversation_find, store_access.
  destruct (faults w) as [|[] ?]; cbn; intros [= <-]; by eexists.
Qed.

Lemma elem_of_found c request w :
  c ∈ merge_sort latest_first
        (filter (λ c, matches c request = true) (map_to_list (conversations w)).*2)
  ↔ matches c request = true ∧ ∃ conversationId, conversations w !! conversationId = Some c.
Proof.
  rewrite merge_sort_Permutation, list_elem_of_filter, list_elem_of_fmap.
  split.
  - intros [? [[k c'] [-> Hk%elem_of_map_to_list]]]. eauto.
  - intros [? [k Hk]]. split; [done|]. exists (k, c). by rewrite elem_of_map_to_list.
Qed.

Lemma findConversation_request_flag options request c :
  findConversation_request options = inr request →
  matches c request = true →
  c_moderate c = o_moderate options.
Proof.
  intros Hreq%findConversation_request_moderate Hm.
  destruct request as [| | | | | |fs]; try done.
  apply fields_get_elem in Hreq; [|done].
  apply (matches_elem c) in Hreq; [|done..].
  unfold matches_field in Hreq. rewrite bool_decide_eq_true_2 in Hreq by done.
  by apply bool_decide_eq_true in Hreq.
Qed.

(** X22.  What every answer of [findConversation] has, whatever the
    options: each conversation in it is a stored document whose
    moderation flag is the one the options ask for, and the list is
    ordered by the date of the last message, latest first. *)
Theorem findConversation_answer (options : FindOptions) (w : World)
    (result : list Conversation) :
  (findConversation options w).1 = Returned result →
  StronglySorted latest_first result
  ∧ ∀ c, c ∈ result →
      c_moderate c = o_moderate options
      ∧ ∃ conversationId, conversations w !! conversationId = Some c.
Proof.
  intros (request & Hreq & ->)%findConversation_returned. split.
  - apply (StronglySorted_merge_sort _).
  - intros c [Hm Hc]%elem_of_found. split; [|done].
    by apply (findConversation_request_flag options request).
Qed.

Lemma findConversation_answer_witness :
  StronglySorted latest_first [general_conversation]
  ∧ ∀ c, c ∈ [general_conversation] →
      c_moderate c = o_moderate exact_with_members
      ∧ ∃ conversationId, conversations sample_world !! conversationId = Some c.
Proof.
  apply (findConversation_answer exact_with_members sample_world [general_conversation]).
  vm_compute. reflexivity.
Defined.

Lemma js_ids_id_array ids : js_ids (js_id_array ids) = ids.
Proof.
  unfold js_ids, js_id_array. induction ids as [|x ids IH]; [done|].
  cbn [fmap list_fmap omap list_omap]. by rewrite IH.
Qed.

Lemma findConversation_request_exact options members ids request :
  o_exactMembersMatch options = true →
  o_members options = Some members →
  map_ObjectId id members = inr ids →
  findConversation_request options = inr request →
  js_get request "members"
  = JsObject [("$all", js_id_array ids); ("$size", JsNum (List.length members))].
Proof.
  intros He Hm Hids. unfold findConversation_request. rewrite He, Hm, Hids.
  rewrite bool_decide_eq_true_2 by done. cbn [negb andb].
  rewrite andb_false_r. cbn [default].
  set (r1 := js_set _ "members" _).
  assert (js_get r1 "members" = JsObject [("$all", js_id_array ids)]) as Hr1 by done.
  cbn zeta.
  set (r2 := if type_truthy (o_type options) then _ else r1).
  assert (js_get r2 "members" = JsObject [("$all", js_id_array ids)]) as Hr2
    by (subst r2; destruct (type_truthy _); by rewrite ?js_get_set_ne).
  set (r3 := if truthy (o_name options) then _ else r2).
  assert (js_get r3 "members" = JsObject [("$all", js_id_array ids)]) as Hr3
    by (subst r3; destruct (truthy _); by rewrite ?js_get_set_ne).
  set (r4 := match o_name options with JsNull => _ | _ => r3 end).
  assert (js_get r4 "members" = JsObject [("$all", js_id_array ids)]) as Hr4
    by (subst r4; destruct (o_name options); by rewrite ?js_get_set_ne).
  destruct (o_ignoreMemberFilterForChannel options && _); [done|].
  rewrite Hr4. intros [= <-].
  destruct r4 as [| | | | | |fs]; try done. by rewrite js_get_set_eq.
Qed.

(** X23.  With [exactMembersMatch] and a list of members, every
    conversation [findConversation] answers has each of the given members
    among its members and has as many members as the list is long (the
    list is counted as given, a member named twice counts twice). *)
Theorem findConversation_exact_members (options : FindOptions) (members : list string)
    (ids : list ObjectId) (w : World) (result : list Conversation) (c : Conversation) :
  o_exactMembersMatch options = true →
  o_members options = Some members →
  map_ObjectId id members = inr ids →
  (findConversation options w).1 = Returned result →
  c ∈ result →
  (∀ u, u ∈ ids → u ∈ c_members c)
  ∧ List.length (c_members c) = List.length members.
Proof.
  intros He Hm Hids (request & Hreq & ->)%findConversation_returned
    [Hc _]%elem_of_found.
  apply (findConversation_request_exact _ _ _ _ He Hm Hids) in Hreq.
  destruct request as [| | | | | |fs]; try done.
  apply fields_get_elem in Hreq; [|done].
  apply (matches_elem c) in Hreq; [|done..].
  unfold matches_field in Hreq. rewrite bool_decide_eq_false_2 in Hreq by done.
  rewrite bool_decide_eq_true_2 in Hreq by done.
  apply andb_true_iff in Hreq as [Hall Hsize].
  cbn [js_get fields_get] in Hall, Hsize.
  rewrite decide_True in Hall by done.
  rewrite decide_False, decide_True in Hsize by done.
  rewrite js_ids_id_array in Hall. split.
  - intros u Hu. rewrite forallb_forall in Hall.
    apply list_elem_of_In, Hall in Hu. by apply bool_decide_eq_true in Hu.
  - by apply Nat.eqb_eq.
Qed.

Lemma findConversation_exact_members_witness :
  (∀ u, u ∈ [alice] → u ∈ c_members general_conversation)
  ∧ List.length (c_members general_conversation) = List.length [alice].
Proof.
  apply (findConversation_exact_members exact_with_members [alice] [alice] sample_world
           [general_conversation] general_conversation).
  - reflexivity.
  - reflexivity.
  - reflexivity.
  - vm_compute. reflexivity.
  - by constructor.
Defined.

(** X24.  With [ignoreMemberFilterForChannel], a list of members, and a
    type filter that is missing or admits channels, every stored channel
    with the moderation flag asked for is in the answer, whether or not
    it has the given members and whatever name is asked for. *)
Theorem findConversation_channels_included (options : FindOptions)
    (members : list string) (ids : list ObjectId) (w : World)
    (conversationId : ObjectId) (c : Conversation) :
  o_ignoreMemberFilterForChannel options = true →
  o_exactMembersMatch options = false →
  o_members options = Some members →
  map_ObjectId id members = inr ids →
  type_truthy (o_type options) = false ∨ type_has_channel (o_type options) = true →
  hd false (faults w) = false →
  conversations w !! conversationId = Some c →
  c_type c = CONVERSATION_TYPE_CHANNEL →
  c_moderate c = o_moderate options →
  ∃ result, (findConversation options w).1 = Returned result ∧ c ∈ result.
Proof.
  intros Hi He Hm Hids Ht Hf Hc Htype Hmod.
  assert (∃ r4, findConversation_request options
                = inr (JsObject [("$or", JsArray [r4;
                                     JsObject [("type", JsStr CONVERSATION_TYPE_CHANNEL)]]);
                                 ("moderate", JsBool (o_moderate options))]))
    as [r4 Hreq].
  { unfold findConversation_request. rewrite Hi, He, Hm, Hids.
    rewrite bool_decide_eq_true_2 by done. cbn [negb andb]. cbn zeta.
    assert (negb (type_truthy (o_type options)) || type_has_channel (o_type options)
            = true) as -> by (destruct Ht as [-> | ->]; [done|apply orb_true_r]).
    by eexists. }
  unfold findConversation. rewrite Hreq, bind_run, Conversation_find_ok by done.
  eexists. split; [done|]. apply elem_of_found. split; [|by eexists].
  rewrite !matches_cons. cbn [fst snd].
  rewrite bool_decide_eq_true_2, (bool_decide_eq_false_2 ("moderate" = "$or")) by done.
  apply andb_true_iff. split.
  - apply orb_true_iff. right. apply orb_true_iff. left.
    rewrite matches_cons. cbn [fst snd].
    rewrite bool_decide_eq_false_2 by done. apply andb_true_iff. split; [|done].
    unfold matches_field. rewrite !bool_decide_eq_false_2 by done.
    rewrite bool_decide_eq_true_2 by done. cbn [js_get]. by apply bool_decide_eq_true.
  - apply andb_true_iff. split; [|done].
    unfold matches_field. rewrite bool_decide_eq_true_2 by done.
    by apply bool_decide_eq_true.
Qed.

Lemma findConversation_channels_included_witness :
  ∃ result,
    (findConversation
       {| o_type := None; o_ignoreMemberFilterForChannel := true;
          o_exactMembersMatch := false; o_members := Some [carol];
          o_name := JsUndefined; o_moderate := false |} two_worlds).1 = Returned result
    ∧ random_conversation ∈ result.
Proof.
  apply (findConversation_channels_included
           {| o_type := None; o_ignoreMemberFilterForChannel := true;
              o_exactMembersMatch := false; o_members := Some [carol];
              o_name := JsUndefined; o_moderate := false |}
           [carol] [carol] two_worlds random random_conversation).
  - reflexivity.
  - reflexivity.
  - reflexivity.
  - reflexivity.
  - left. reflexivity.
  - reflexivity.
  - reflexivity.
  - reflexivity.
  - reflexivity.
Defined.

Lemma apply_update_moderate b c :
  apply_update (JsObject [("$set", JsObject [("moderate", JsBool b)])]) c
  = set_moderate b c.
Proof. reflexivity. Qed.

(** X25.  Moderation and search.  After [moderateConversation] has set
    the flag of a conversation, [findConversation] with options asking
    for the other value of the flag does not answer that conversation,
    whatever else the options say. *)
Theorem moderateConversation_then_findConversation (conversationId : ObjectId)
    (moderate : bool) (c : Conversation) (options : FindOptions) (w : World)
    (result : list Conversation) (c' : Conversation) :
  store_wf w →
  conversations w !! conversationId = Some c →
  hd false (faults w) = false →
  o_moderate options ≠ moderate →
  (findConversation options (moderateConversation conversationId moderate w).2).1
  = Returned result →
  c' ∈ result →
  c_id c' ≠ conversationId.
Proof.
  intros Hwf Hc Hf Hflag (request & Hreq & ->)%findConversation_returned
    [Hm [k Hk]]%elem_of_found Hid.
  apply (findConversation_request_flag options request c' Hreq) in Hm.
  unfold moderateConversation in Hk.
  rewrite bind_run, findByIdAndUpdate_ok, Hc, apply_update_moderate in Hk by done.
  cbn [fst snd callback mret St_ret st_ret with_conversations conversations] in Hk.
  destruct (decide (k = conversationId)) as [->|Hne].
  - rewrite lookup_insert_eq in Hk. injection Hk as <-. by cbn in Hm.
  - rewrite lookup_insert_ne in Hk by done. cbn [tick conversations] in Hk.
    apply Hwf in Hk. congruence.
Qed.

Lemma moderateConversation_then_findConversation_witness :
  (findConversation
     {| o_type := None; o_ignoreMemberFilterForChannel := false;
        o_exactMembersMatch := false; o_members := None; o_name := JsUndefined;
        o_moderate := false |}
     (moderateConversation general true two_worlds).2).1
  = Returned [random_conversation]
  ∧ c_id random_conversation ≠ general.
Proof.
  assert ((findConversation
             {| o_type := None; o_ignoreMemberFilterForChannel := false;
                o_exactMembersMatch := false; o_members := None; o_name := JsUndefined;
                o_moderate := false |}
             (moderateConversation general true two_worlds).2).1
          = Returned [random_conversation]) as Hfound by (vm_compute; reflexivity).
  split; [exact Hfound|].
  apply (moderateConversation_then_findConversation general true general_conversation
           {| o_type := None; o_ignoreMemberFilterForChannel := false;
              o_exactMembersMatch := false; o_members := None; o_name := JsUndefined;
              o_moderate := false |}
           two_worlds [random_conversation] random_conversation).
  - intros k c Hc.
    change (({[general := general_conversation; random := random_conversation]}
             : gmap string Conversation) !! k = Some c) in Hc.
    apply lookup_insert_Some in Hc as [[<- <-]|[_ Hc]]; [done|].
    by apply lookup_singleton_Some in Hc as [<- <-].
  - reflexivity.
  - reflexivity.
  - discriminate.
  - exact Hfound.
  - by constructor.
Defined.

(** ** createConversation and getChannels *)

Lemma new_Conversation_eq new_id options w :
  new_Conversation new_id options w
  = ({| c_id := new_id; c_type := co_type options; c_name := co_name options;
        c_moderate := co_moderate options; c_members := co_members options;
        c_topic := co_topic options; c_avatar := co_avatar options;
        last_message :=
          JsObject [("date", JsNum (default (clock w) (co_creation options)));
                    ("user_mentions", JsArray [])];
        numOfMessage := default 0 (co_numOfMessage options);
        numOfReadedMessage := default ∅ (co_numOfReadedMessage options) |}, w).
Proof. reflexivity. Qed.

Lemma Conversation_save_ok c w :
  hd false (faults w) = false → conversations w !! c_id c = None →
  Conversation_save c w = (inr c, with_conversations (insert (c_id c) c) (tick w)).
Proof.
  intros Hf Hc. unfold Conversation_save. rewrite Hc.
  by destruct (faults w) as [|[] ?].
Qed.

(** What [createConversation] does with a fresh identifier when the store
    answers. *)
Lemma createConversation_run (new_id : ObjectId) (options : ConversationOptions)
    (w : World) :
  conversations w !! new_id = None →
  healthy 2 w →
  let c := (new_Conversation new_id options w).1 in
  let run := createConversation new_id options w in
  run.1 = Returned c
  ∧ conversations run.2 = <[new_id := c]> (conversations w)
  ∧ published run.2 = published w ++ [(channelCreationTopic, PDoc (Some c))]
  ∧ messages run.2 = messages w
  ∧ faults run.2 = drop 2 (faults w).
Proof.
  intros Hc [Hf1 [Hf2 _]%healthy_S]%healthy_S c run. subst run.
  unfold createConversation. rewrite bind_run. fold c.
  assert ((new_Conversation new_id options w).2 = w) as -> by done.
  assert (c_id c = new_id) as Hid by done.
  rewrite bind_run, Conversation_save_ok by by rewrite ?Hid.
  cbn [fst snd]. rewrite bind_run. unfold Conversation_populate.
  rewrite store_access_ok by done. cbn [fst snd]. rewrite bind_run, Hid.
  split_and!; try done. cbn. by destruct (faults w) as [|? [|? ?]].
Qed.

(** X26.  [createConversation] with the store answering: the new
    document has the fields given, [last_message] seeded with the
    creation time given (the current time when none is) and no mentions,
    whatever [last_message] the caller gave; the message count is the one
    given, [0] when none is, and the read counters are those given, none
    when none are.  The document is stored under its identifier, one
    creation event carrying it is published, and [getConversation]
    answers it. *)
Theorem createConversation_then_getConversation (new_id : ObjectId)
    (options : ConversationOptions) (w : World) :
  conversations w !! new_id = None →
  healthy 3 w →
  let run := createConversation new_id options w in
  ∃ c, run.1 = Returned c
       ∧ c_id c = new_id
       ∧ c_type c = co_type options ∧ c_members c = co_members options
       ∧ last_message c
         = JsObject [("date", JsNum (default (clock w) (co_creation options)));
                     ("user_mentions", JsArray [])]
       ∧ numOfMessage c = default 0 (co_numOfMessage options)
       ∧ numOfReadedMessage c = default ∅ (co_numOfReadedMessage options)
       ∧ conversations run.2 = <[new_id := c]> (conversations w)
       ∧ published run.2 = published w ++ [(channelCreationTopic, PDoc (Some c))]
       ∧ (getConversation new_id run.2).1 = Returned (Some c).
Proof.
  intros Hc Hh run.
  destruct (createConversation_run new_id options w Hc) as (Hr & Hcs & Hp & _ & Hf);
    [by eapply healthy_le, Hh; lia|].
  fold run in Hr, Hcs, Hp, Hf. eexists. split; [exact Hr|].
  split_and!; try done.
  unfold getConversation, Conversation_findById. rewrite bind_run, store_access_ok.
  - cbn [fst snd tick conversations callback mret St_ret st_ret].
    by rewrite Hcs, lookup_insert_eq.
  - apply (healthy_drop 1 2 w) in Hf; [|done]. by apply healthy_S in Hf as [? _].
Qed.

Lemma createConversation_then_getConversation_witness :
  let run := createConversation random default_channel sample_world in
  ∃ c, run.1 = Returned c
       ∧ c_id c = random
       ∧ c_type c = co_type default_channel ∧ c_members c = co_members default_channel
       ∧ last_message c
         = JsObject [("date", JsNum (default (clock sample_world)
                                       (co_creation default_channel)));
                     ("user_mentions", JsArray [])]
       ∧ numOfMessage c = default 0 (co_numOfMessage default_channel)
       ∧ numOfReadedMessage c = default ∅ (co_numOfReadedMessage default_channel)
       ∧ conversations run.2 = <[random := c]> (conversations sample_world)
       ∧ published run.2
         = published sample_world ++ [(channelCreationTopic, PDoc (Some c))]
       ∧ (getConversation random run.2).1 = Returned (Some c).
Proof.
  apply (createConversation_then_getConversation random default_channel sample_world).
  - reflexivity.
  - apply sample_world_healthy.
Defined.

Lemma createConversation_save_fails new_id options w :
  hd false (faults w) = true →
  createConversation new_id options w = (Failed StoreError, tick w).
Proof.
  intros Hf. unfold createConversation. rewrite bind_run, new_Conversation_eq.
  cbn [fst snd]. rewrite bind_run. unfold Conversation_save.
  by destruct (faults w) as [|[] ?].
Qed.



Lemma elem_of_channels (moderate : bool) (convs : gmap string Conversation) c :
  c ∈ filter (λ c, c_type c = CONVERSATION_TYPE_CHANNEL ∧ c_moderate c = moderate)
             (map_to_list convs).*2
  ↔ (∃ conversationId, convs !! conversationId = Some c)
    ∧ c_type c = CONVERSATION_TYPE_CHANNEL ∧ c_moderate c = moderate.
Proof.
  rewrite list_elem_of_filter, list_elem_of_fmap. split.
  - intros [? [[k c'] [-> Hk%elem_of_map_to_list]]]. eauto.
  - intros [[k Hk] ?]. split; [done|]. exists (k, c). by rewrite elem_of_map_to_list.
Qed.

(** X28.  [getChannels] when a channel with the moderation flag asked
    for is stored: the answer holds exactly the stored channels with
    that flag, and nothing is created or published. *)
Theorem getChannels_existing (DEFAULT_CHANNEL : ConversationOptions) (new_id : ObjectId)
    (moderate : bool) (conversationId : ObjectId) (c : Conversation) (w : World) :
  hd false (faults w) = false →
  conversations w !! conversationId = Some c →
  c_type c = CONVERSATION_TYPE_CHANNEL →
  c_moderate c = moderate →
  let run := getChannels DEFAULT_CHANNEL new_id moderate w in
  ∃ channels,
    run.1 = Returned channels
    ∧ (∀ c', c' ∈ channels ↔
             (∃ id', conversations w !! id' = Some c')
             ∧ c_type c' = CONVERSATION_TYPE_CHANNEL ∧ c_moderate c' = moderate)
    ∧ run.2 = tick w.
Proof.
  intros Hf Hc Ht Hm run. subst run. unfold getChannels, Conversation_find_channels.
  rewrite bind_run, store_access_ok by done. cbn [fst snd tick conversations].
  set (channels := filter _ _).
  assert (c ∈ channels) as Hin by (apply elem_of_channels; eauto).
  destruct channels as [|c0 rest] eqn:E; [by apply elem_of_nil in Hin|].
  eexists. split_and!; [done| |done].
  intros c'. rewrite <- E. apply elem_of_channels.
Qed.

Lemma getChannels_existing_witness :
  let run := getChannels default_channel random false sample_world in
  ∃ channels,
    run.1 = Returned channels
    ∧ (∀ c', c' ∈ channels ↔
             (∃ id', conversations sample_world !! id' = Some c')
             ∧ c_type c' = CONVERSATION_TYPE_CHANNEL ∧ c_moderate c' = false)
    ∧ run.2 = tick sample_world.
Proof.
  apply (getChannels_existing default_channel random false general general_conversation
           sample_world); reflexivity.
Defined.

(** X29.  [getChannels] when no channel with the moderation flag asked
    for is stored: the default channel is created, stored and published,
    and the answer holds it alone.  When the default channel is a channel
    with that flag, a second call answers the same channel and creates
    nothing. *)
Theorem getChannels_creates_default_once (DEFAULT_CHANNEL : ConversationOptions)
    (new_id next_id : ObjectId) (moderate : bool) (w : World) :
  (∀ conversationId c, conversations w !! conversationId = Some c →
     ¬ (c_type c = CONVERSATION_TYPE_CHANNEL ∧ c_moderate c = moderate)) →
  conversations w !! new_id = None →
  healthy 4 w →
  let first := getChannels DEFAULT_CHANNEL new_id moderate w in
  ∃ c, first.1 = Returned [c]
       ∧ c_id c = new_id
       ∧ conversations first.2 = <[new_id := c]> (conversations w)
       ∧ published first.2 = published w ++ [(channelCreationTopic, PDoc (Some c))]
       ∧ (co_type DEFAULT_CHANNEL = CONVERSATION_TYPE_CHANNEL →
          co_moderate DEFAULT_CHANNEL = moderate →
          let second := getChannels DEFAULT_CHANNEL next_id moderate first.2 in
          second.1 = Returned [c]
          ∧ conversations second.2 = conversations first.2
          ∧ published second.2 = published first.2).
Proof.
  intros Hnone Hfresh Hh first.
  pose proof Hh as (Hf1 & Hh3)%healthy_S.
  assert (filter (λ c, c_type c = CONVERSATION_TYPE_CHANNEL ∧ c_moderate c = moderate)
                 (map_to_list (conversations w)).*2 = []) as Hempty.
  { apply elem_of_nil_inv. intros c [[k Hk] Hc]%elem_of_channels.
    by apply (Hnone k c). }
  destruct (createConversation_run new_id DEFAULT_CHANNEL (tick w))
    as (Hr & Hcs & Hp & _ & Hf); [done|by eapply healthy_le, Hh3; lia|].
  change (conversations (tick w)) with (conversations w) in Hcs.
  change (published (tick w)) with (published w) in Hp.
  set (c := (new_Conversation new_id DEFAULT_CHANNEL (tick w)).1) in *.
  assert (first = (Returned [c], (createConversation new_id DEFAULT_CHANNEL (tick w)).2))
    as Hfirst.
  { subst first. unfold getChannels, Conversation_find_channels.
    rewrite bind_run, store_access_ok by done. cbn [fst snd tick conversations].
    rewrite Hempty, bind_run.
    destruct (createConversation new_id DEFAULT_CHANNEL _) as [o w1]. cbn [fst] in Hr.
    by rewrite Hr. }
  rewrite !Hfirst. cbn [fst snd].
  exists c. split_and!; [done|done|done|done|].
  intros Htype Hmod.
  set (w1 := (createConversation new_id DEFAULT_CHANNEL (tick w)).2) in *.
  assert (hd false (faults w1) = false) as Hf1'.
  { assert (healthy 1 w1) as [? _]%healthy_S; [|done].
    apply (healthy_drop 1 2 (tick w)); [done|by eapply healthy_le, Hh3; lia]. }
  unfold getChannels, Conversation_find_channels.
  rewrite bind_run, store_access_ok by done. cbn [fst snd tick conversations].
  rewrite Hcs.
  assert (filter (λ c, c_type c = CONVERSATION_TYPE_CHANNEL ∧ c_moderate c = moderate)
                 (map_to_list (<[new_id := c]> (conversations w))).*2 = [c]) as ->.
  { apply Permutation_singleton_r.
    rewrite map_to_list_insert by done. cbn [fmap list_fmap snd].
    rewrite filter_cons_True by done. by rewrite Hempty. }
  by cbn.
Qed.

Lemma getChannels_creates_default_once_witness :
  let first := getChannels default_channel general false empty_world in
  ∃ c, first.1 = Returned [c]
       ∧ c_id c = general
       ∧ conversations first.2 = <[general := c]> (conversations empty_world)
       ∧ published first.2
         = published empty_world ++ [(channelCreationTopic, PDoc (Some c))]
       ∧ let second := getChannels default_channel random false first.2 in
         second.1 = Returned [c]
         ∧ conversations second.2 = conversations first.2
         ∧ published second.2 = published first.2.
Proof.
  destruct (getChannels_creates_default_once default_channel general random false
              empty_world) as (c & H1 & H2 & H3 & H4 & H5).
  - intros conversationId c Hc. exfalso.
    exact (lookup_empty_Some (M := gmap string) conversationId c Hc).
  - reflexivity.
  - unfold healthy. cbn. apply not_elem_of_nil.
  - exists c. split_and!; [exact H1|exact H2|exact H3|exact H4|].
    apply H5; reflexivity.
Defined.

(** X30.  [getChannels] does not look at the error of its search: when
    the search fails and the store answers afterwards, the default
    channel is created and answered alone, whatever channels are stored.
    When the creation fails as well, the error reported is the fixed
    one, not the store's. *)
Theorem getChannels_search_failure (DEFAULT_CHANNEL : ConversationOptions)
    (new_id : ObjectId) (moderate : bool) (w : World) :
  hd false (faults w) = true →
  (conversations w !! new_id = None → healthy 2 (tick w) →
     let run := getChannels DEFAULT_CHANNEL new_id moderate w in
     ∃ c, run.1 = Returned [c]
          ∧ conversations run.2 = <[new_id := c]> (conversations w)
          ∧ published run.2 = published w ++ [(channelCreationTopic, PDoc (Some c))])
  ∧ (hd false (faults (tick w)) = true →
     (getChannels DEFAULT_CHANNEL new_id moderate w).1
     = Failed (Error "Can not create the default channel")).
Proof.
  intros Hf.
  assert (getChannels DEFAULT_CHANNEL new_id moderate w
          = (created ← createConversation new_id DEFAULT_CHANNEL;
             match created with
             | Returned channel_ => callback (inr [channel_])
             | _ => callback (inl (Error "Can not create the default channel"))
             end) (tick w)) as ->.
  { unfold getChannels, Conversation_find_channels.
    by rewrite bind_run, store_access_fault. }
  split.
  - intros Hfresh Hh run. subst run.
    destruct (createConversation_run new_id DEFAULT_CHANNEL (tick w))
      as (Hr & Hcs & Hp & _); [done..|].
    rewrite bind_run.
    destruct (createConversation new_id DEFAULT_CHANNEL _) as [o w1].
    cbn [fst snd] in *. rewrite Hr. by eexists.
  - intros Hf2. rewrite bind_run.
    by rewrite createConversation_save_fails.
Qed.

Lemma getChannels_search_failure_witness :
  (let run := getChannels default_channel random false down_world in
   ∃ c, run.1 = Returned [c]
        ∧ conversations run.2 = <[random := c]> (conversations down_world)
        ∧ published run.2
          = published down_world ++ [(channelCreationTopic, PDoc (Some c))])
  ∧ (getChannels default_channel random false
       {| conversations := conversations sample_world; messages := [];
          published := []; logged := []; faults := [true; true]; accesses := 0;
          clock := 100 |}).1
    = Failed (Error "Can not create the default channel").
Proof.
  split.
  - apply (proj1 (getChannels_search_failure default_channel random false down_world
                    eq_refl)).
    + reflexivity.
    + unfold healthy. cbn. apply not_elem_of_nil.
  - by apply (proj2 (getChannels_search_failure default_channel random false
                       {| conversations := conversations sample_world; messages := [];
                          published := []; logged := []; faults := [true; true];
                          accesses := 0; clock := 100 |} eq_refl)).
Defined.
